(** * secure-fs: the mediated file I/O adapter of libs/platform

    A shallow embedding of [libs/platform/src/secure-fs.ts]: the throttling
    configuration and its limiter, the retry loop with exponential backoff,
    the mediated [fs/promises] entry points and the path helpers.

    Conventions of the embedding.
    - A JavaScript [number] held by a configuration field is an integer or
      [undefined] ([JsNumber]); fractional settings are outside the model.
    - A computed number is an IEEE 754 double: NaN, an infinity, or the
      rational a finite double denotes, every operation rounding its exact
      result to the nearest double, ties to even.  The two zeros are not
      told apart.
    - Objects live in a store of locations, so that the object spread
      [{ ...config }] is an allocation and aliasing is visible.
    - An [async] function runs from one [await] to the next; what other
      code does to the module state while it is suspended is given by a
      schedule.  Its effects are recorded in a trace of events, in program
      order. *)

From Stdlib Require Import ZArith QArith Qminmax Qround Qabs Qpower.
From Stdlib Require Import PrimFloat SpecFloat FloatOps.
From Stdlib Require Import List Ascii String Bool Arith Lia Lqa.
Import ListNotations.

Set Implicit Arguments.
Close Scope Q_scope.

(** ** JavaScript values *)

Module Js.

(** Values that can be thrown and caught.  Only the own and inherited
    properties of objects matter here, as a property list. *)
#[warnings="-register-all"]
Inductive Value : Type :=
| Undefined
| Null
| Boolean (b : bool)
| Number (n : Z)
| Str (s : string)
| Function (props : list (string * Value))
| Object (props : list (string * Value)).

(** [ToBoolean]. *)
Definition truthy (v : Value) : bool :=
  match v with
  | Undefined | Null => false
  | Boolean b => b
  | Number n => negb (Z.eqb n 0)
  | Str s => negb (String.eqb s EmptyString)
  | Function _ | Object _ => true
  end.

Inductive TypeTag := TUndefined | TObject | TBoolean | TNumber | TString | TFunction.

(** [typeof v]; [typeof null] is ["object"]. *)
Definition typeof (v : Value) : TypeTag :=
  match v with
  | Undefined => TUndefined
  | Null => TObject
  | Boolean _ => TBoolean
  | Number _ => TNumber
  | Str _ => TString
  | Function _ => TFunction
  | Object _ => TObject
  end.

Definition is_object_tag (t : TypeTag) : bool :=
  match t with TObject => true | _ => false end.

Fixpoint lookup (k : string) (props : list (string * Value)) : option Value :=
  match props with
  | [] => None
  | (k', v) :: rest => if String.eqb k k' then Some v else lookup k rest
  end.

Definition props_of (v : Value) : list (string * Value) :=
  match v with
  | Function props | Object props => props
  | _ => []
  end.

(** [k in v], for a [v] that is an object. *)
Definition has_property (k : string) (v : Value) : bool :=
  match lookup k (props_of v) with Some _ => true | None => false end.

(** [v[k]]; a missing property reads as [undefined]. *)
Definition get (k : string) (v : Value) : Value :=
  match lookup k (props_of v) with Some x => x | None => Undefined end.

(** [new Set(strings).has(v)]: SameValueZero against string members. *)
Definition set_has (members : list string) (v : Value) : bool :=
  match v with
  | Str s => existsb (String.eqb s) members
  | _ => false
  end.

End Js.

(** ** The throttling configuration *)

(** A configuration field at run time: a number, or [undefined] once a
    caller has merged a key whose value is [undefined]. *)
Inductive JsNumber : Type :=
| Undef
| Num (n : Z).

Definition JsNumber_eqb (a b : JsNumber) : bool :=
  match a, b with
  | Undef, Undef => true
  | Num x, Num y => Z.eqb x y
  | _, _ => false
  end.

(** [interface ThrottleConfig] *)
Record ThrottleConfig : Type := mkConfig {
  maxConcurrency : JsNumber;
  maxRetries : JsNumber;
  baseDelay : JsNumber;
  maxDelay : JsNumber
}.

(** [Partial<ThrottleConfig>]: a key is absent ([None]) or present; a
    present key may hold [undefined]. *)
Record PartialConfig : Type := mkPartial {
  p_maxConcurrency : option JsNumber;
  p_maxRetries : option JsNumber;
  p_baseDelay : option JsNumber;
  p_maxDelay : option JsNumber
}.

Definition empty_partial : PartialConfig := mkPartial None None None None.

(** Reading a key of a partial object: an absent key reads as [undefined]. *)
Definition read_key (k : option JsNumber) : JsNumber :=
  match k with Some v => v | None => Undef end.

(** One key of [{ ...a, ...b }]: the key of [b] wins when present. *)
Definition spread_key (old : JsNumber) (k : option JsNumber) : JsNumber :=
  match k with Some v => v | None => old end.

(** [{ ...c, ...p }] *)
Definition spread (c : ThrottleConfig) (p : PartialConfig) : ThrottleConfig :=
  {| maxConcurrency := spread_key (maxConcurrency c) (p_maxConcurrency p);
     maxRetries := spread_key (maxRetries c) (p_maxRetries p);
     baseDelay := spread_key (baseDelay c) (p_baseDelay p);
     maxDelay := spread_key (maxDelay c) (p_maxDelay p) |}.

Definition DEFAULT_CONFIG : ThrottleConfig :=
  {| maxConcurrency := Num 100;
     maxRetries := Num 3;
     baseDelay := Num 100;
     maxDelay := Num 5000 |}.

(** ** The limiter and the module state *)

(** What the module observes of a [p-limit] instance. *)
Record Limiter : Type := mkLimiter {
  concurrency : Z;
  activeCount : nat;
  pendingCount : nat
}.

Definition Loc := nat.

(** The module-level bindings and the objects they refer to.  [heap] holds
    the configuration objects, [next] is the first unused location,
    [config] is the binding [let config], [fsLimit] the binding
    [let fsLimit].  [exported] lists the locations handed out to callers:
    the only objects outside code can write to. *)
Record Store : Type := mkStore {
  heap : Loc -> ThrottleConfig;
  next : Loc;
  config : Loc;
  fsLimit : Limiter;
  exported : list Loc
}.

Definition deref (s : Store) (l : Loc) : ThrottleConfig := heap s l.

(** The object the binding [config] refers to. *)
Definition live (s : Store) : ThrottleConfig := deref s (config s).

Definition upd (h : Loc -> ThrottleConfig) (l : Loc) (o : ThrottleConfig)
  : Loc -> ThrottleConfig :=
  fun l' => if Nat.eqb l' l then o else h l'.

(** Allocation of a fresh object. *)
Definition alloc (s : Store) (o : ThrottleConfig) : Loc * Store :=
  (next s,
   {| heap := upd (heap s) (next s) o;
      next := S (next s);
      config := config s;
      fsLimit := fsLimit s;
      exported := exported s |}).

Definition set_config (s : Store) (l : Loc) : Store :=
  {| heap := heap s; next := next s; config := l;
     fsLimit := fsLimit s; exported := exported s |}.

Definition set_fsLimit (s : Store) (lim : Limiter) : Store :=
  {| heap := heap s; next := next s; config := config s;
     fsLimit := lim; exported := exported s |}.

Definition export (s : Store) (l : Loc) : Store :=
  {| heap := heap s; next := next s; config := config s;
     fsLimit := fsLimit s; exported := l :: exported s |}.

(** A write by outside code to the fields of an object at [l]. *)
Definition write (s : Store) (l : Loc) (o : ThrottleConfig) : Store :=
  {| heap := upd (heap s) l o; next := next s; config := config s;
     fsLimit := fsLimit s; exported := exported s |}.

Inductive ConfigError : Type :=
| InFlightError (active pending : nat)
    (* "[SecureFS] Cannot change maxConcurrency while operations are in flight." *)
| ConcurrencyTypeError (n : Z).
    (* thrown by the constructor of p-limit *)

Definition is_in_flight_error (r : ConfigError + unit) : bool :=
  match r with inl (InFlightError _ _) => true | _ => false end.

(** The state invariant: the binding [config] refers to an allocated object
    that was never handed out, and every object handed out is allocated. *)
Definition wf (s : Store) : Prop :=
  config s < next s
  /\ Forall (fun l => l < next s) (exported s)
  /\ ~ In (config s) (exported s).

(** The data-model invariant of [ThrottleConfig]. *)
Definition config_invariant (c : ThrottleConfig) : Prop :=
  match maxConcurrency c, maxRetries c, baseDelay c, maxDelay c with
  | Num mc, Num mr, Num b, Num m => (1 <= mc /\ 0 <= mr /\ 0 < b /\ 0 < m /\ b <= m)%Z
  | _, _, _, _ => False
  end.

(** A key of a partial configuration is absent or holds a number that is
    at least [lo]. *)
Definition in_range (lo : Z) (key : option JsNumber) : Prop :=
  match key with
  | None => True
  | Some (Num n) => (lo <= n)%Z
  | Some Undef => False
  end.

(** A partial configuration whose supplied values are in range and whose
    merge over [c] leaves [baseDelay <= maxDelay]. *)
Definition keeps_invariant (c : ThrottleConfig) (p : PartialConfig) : Prop :=
  in_range 1 (p_maxConcurrency p)
  /\ in_range 0 (p_maxRetries p)
  /\ in_range 1 (p_baseDelay p)
  /\ in_range 1 (p_maxDelay p)
  /\ match spread_key (baseDelay c) (p_baseDelay p),
           spread_key (maxDelay c) (p_maxDelay p) with
     | Num b, Num m => (b <= m)%Z
     | _, _ => False
     end.

(** No supplied key holds [undefined]. *)
Definition defined_key (key : option JsNumber) : Prop := key <> Some Undef.

Definition supplies_defined_values (p : PartialConfig) : Prop :=
  defined_key (p_maxConcurrency p)
  /\ defined_key (p_maxRetries p)
  /\ defined_key (p_baseDelay p)
  /\ defined_key (p_maxDelay p).

(** The law of one key under a merge. *)
Definition key_law (key : option JsNumber) (before after : JsNumber) : Prop :=
  match key with
  | Some v => after = v
  | None => after = before
  end.

(** What the constructor of [p-limit] accepts among the integers: a
    concurrency of at least one. *)
Definition accepts_positive (n : Z) : bool := (0 <? n)%Z.

Section Configuration.

(** The argument check of the [p-limit] constructor, which belongs to
    that package: [pLimit n] throws a [TypeError] when it refuses [n]. *)
Variable validConcurrency : Z -> bool.

Definition pLimit (n : Z) : ConfigError + Limiter :=
  if validConcurrency n
  then inr {| concurrency := n; activeCount := 0; pendingCount := 0 |}
  else inl (ConcurrencyTypeError n).

(** Module initialisation:
    [let config = { ...DEFAULT_CONFIG }; let fsLimit = pLimit(config.maxConcurrency)].
    Location 0 holds [DEFAULT_CONFIG], location 1 its copy.  The module
    loads only if the constructor accepts the default capacity. *)
Definition initial : Store :=
  {| heap := upd (upd (fun _ => DEFAULT_CONFIG) 0 DEFAULT_CONFIG) 1 DEFAULT_CONFIG;
     next := 2;
     config := 1;
     fsLimit := {| concurrency := 100; activeCount := 0; pendingCount := 0 |};
     exported := [] |}.

(** [configureThrottling(newConfig)] *)
Definition configureThrottling (s : Store) (newConfig : PartialConfig)
  : (ConfigError + unit) * Store :=
  let newConcurrency := read_key (p_maxConcurrency newConfig) in
  let merge (s0 : Store) :=
    let '(l, s1) := alloc s0 (spread (live s0) newConfig) in
    (inr tt, set_config s1 l) in
  match newConcurrency with
  | Num n =>
      if negb (JsNumber_eqb newConcurrency (maxConcurrency (live s))) then
        if (0 <? activeCount (fsLimit s))%nat || (0 <? pendingCount (fsLimit s))%nat
        then (inl (InFlightError (activeCount (fsLimit s)) (pendingCount (fsLimit s))), s)
        else
          match pLimit n with
          | inl e => (inl e, s)
          | inr lim => merge (set_fsLimit s lim)
          end
      else merge s
  | Undef => merge s
  end.

(** [getThrottlingConfig()]: returns a fresh object [{ ...config }]. *)
Definition getThrottlingConfig (s : Store) : Loc * Store :=
  let '(l, s1) := alloc s (live s) in
  (l, export s1 l).

(** What a caller reads from the object [getThrottlingConfig()] returns. *)
Definition observe (s : Store) : ThrottleConfig :=
  let '(l, s1) := getThrottlingConfig s in deref s1 l.

(** [getPendingOperations()] and [getActiveOperations()] *)
Definition getPendingOperations (s : Store) : nat := pendingCount (fsLimit s).
Definition getActiveOperations (s : Store) : nat := activeCount (fsLimit s).

(** *** Histories of the module state *)

(** What can happen to the module state between two observations: a
    reconfiguration, a snapshot taken by a caller, a caller writing to an
    object it was given, and the bookkeeping of [p-limit] as operations
    are queued, admitted and completed. *)
Inductive Action : Type :=
| Configure (newConfig : PartialConfig)
| GetConfig
| Mutate (l : Loc) (o : ThrottleConfig)
| Submit
| Admit
| Release.

Definition limiter_submit (lim : Limiter) : Limiter :=
  {| concurrency := concurrency lim;
     activeCount := activeCount lim;
     pendingCount := S (pendingCount lim) |}.

Definition limiter_admit (lim : Limiter) : Limiter :=
  match pendingCount lim with
  | O => lim
  | S k =>
      if (Z.of_nat (activeCount lim) <? concurrency lim)%Z
      then {| concurrency := concurrency lim;
              activeCount := S (activeCount lim);
              pendingCount := k |}
      else lim
  end.

Definition limiter_release (lim : Limiter) : Limiter :=
  {| concurrency := concurrency lim;
     activeCount := pred (activeCount lim);
     pendingCount := pendingCount lim |}.

Definition step (s : Store) (a : Action) : Store :=
  match a with
  | Configure p => snd (configureThrottling s p)
  | GetConfig => snd (getThrottlingConfig s)
  | Mutate l o => if existsb (Nat.eqb l) (exported s) then write s l o else s
  | Submit => set_fsLimit s (limiter_submit (fsLimit s))
  | Admit => set_fsLimit s (limiter_admit (fsLimit s))
  | Release => set_fsLimit s (limiter_release (fsLimit s))
  end.

Definition run (s : Store) (acts : list Action) : Store := fold_left step acts s.

(** The three ways [configureThrottling] can end. *)
Inductive ConfigureCase (s : Store) (p : PartialConfig)
  : (ConfigError + unit) * Store -> Prop :=
| CaseInFlight n :
    p_maxConcurrency p = Some (Num n) ->
    Num n <> maxConcurrency (live s) ->
    (0 < activeCount (fsLimit s) \/ 0 < pendingCount (fsLimit s)) ->
    ConfigureCase s p
      (inl (InFlightError (activeCount (fsLimit s)) (pendingCount (fsLimit s))), s)
| CaseRefused n :
    p_maxConcurrency p = Some (Num n) ->
    Num n <> maxConcurrency (live s) ->
    activeCount (fsLimit s) = 0 -> pendingCount (fsLimit s) = 0 ->
    validConcurrency n = false ->
    ConfigureCase s p (inl (ConcurrencyTypeError n), s)
| CaseSwapped n s' :
    p_maxConcurrency p = Some (Num n) ->
    Num n <> maxConcurrency (live s) ->
    activeCount (fsLimit s) = 0 -> pendingCount (fsLimit s) = 0 ->
    validConcurrency n = true ->
    fsLimit s' = {| concurrency := n; activeCount := 0; pendingCount := 0 |} ->
    live s' = spread (live s) p ->
    config s' = next s -> next s' = S (next s) -> exported s' = exported s ->
    (forall l, l <> next s -> heap s' l = heap s l) ->
    ConfigureCase s p (inr tt, s')
| CaseMerged s' :
    (forall n, p_maxConcurrency p = Some (Num n) -> Num n = maxConcurrency (live s)) ->
    fsLimit s' = fsLimit s ->
    live s' = spread (live s) p ->
    config s' = next s -> next s' = S (next s) -> exported s' = exported s ->
    (forall l, l <> next s -> heap s' l = heap s l) ->
    ConfigureCase s p (inr tt, s').

(** Every [Configure] of a history supplies defined values. *)
Definition defined_action (a : Action) : Prop :=
  match a with
  | Configure p => supplies_defined_values p
  | _ => True
  end.

(** Every [Configure] of a history, at the state it is called in, keeps
    the data-model invariant. *)
Fixpoint admissible_history (s : Store) (acts : list Action) : Prop :=
  match acts with
  | [] => True
  | a :: rest =>
      match a with
      | Configure p => keeps_invariant (live s) p
      | _ => True
      end
      /\ admissible_history (step s a) rest
  end.

Definition consistent (s : Store) : Prop :=
  Num (concurrency (fsLimit s)) = maxConcurrency (live s).


End Configuration.

(** ** Error classification and backoff *)

Local Open Scope string_scope.

(** [const FILE_DESCRIPTOR_ERROR_CODES = new Set(['ENFILE', 'EMFILE'])] *)
Definition FILE_DESCRIPTOR_ERROR_CODES : list string := ["ENFILE"; "EMFILE"].

(** [isFileDescriptorError(error)] *)
Definition isFileDescriptorError (error : Js.Value) : bool :=
  if Js.truthy error
     && Js.is_object_tag (Js.typeof error)
     && Js.has_property "code" error
  then Js.set_has FILE_DESCRIPTOR_ERROR_CODES (Js.get "code" error)
  else false.

(** *** Double-precision numbers *)

(** [2^k] *)
Definition exp2 (k : Z) : Q := Qpower (2 # 1) k.

(** The nearest integer, the even one of two equally near. *)
Definition round_half_even (q : Q) : Z :=
  let f := Qfloor q in
  match Qcompare (q - inject_Z f) (1 # 2) with
  | Lt => f
  | Eq => if Z.even f then f else (f + 1)%Z
  | Gt => (f + 1)%Z
  end.

(** The binary exponent of a positive number: [2^(ilog2 q) <= q < 2^(ilog2 q + 1)]. *)
Definition ilog2 (q : Q) : Z :=
  let k := (Z.log2 (Qnum q) - Z.log2 (Zpos (Qden q)))%Z in
  if Qle_bool (exp2 k) q then k else (k - 1)%Z.

(** The exponent of the unit in the last place of the doubles around [q]:
    53 significant bits, and [2^-1074] throughout the subnormal range. *)
Definition ulp_exponent (q : Q) : Z := Z.max (ilog2 (Qabs q) - 52) (-1074).

(** The nearest multiple of [u]. *)
Definition round_to (u : Q) (q : Q) : Q :=
  (inject_Z (round_half_even (q / u)) * u)%Q.

(** The nearest number with a 53-bit significand, before overflow is
    looked at. *)
Definition round64 (q : Q) : Q :=
  if Qeq_bool q 0 then 0%Q else round_to (exp2 (ulp_exponent q)) q.

(** A number as JavaScript computes with it; a delay in milliseconds when
    it is handed to [setTimeout]. *)
Inductive Delay : Type :=
| NaN
| Infinite (negative : bool)
| Ms (q : Q).

Definition is_zero (q : Q) : bool := Qeq_bool q 0.
Definition is_negative (q : Q) : bool := negb (Qle_bool 0 q).

(** The double an exact result is delivered as: the rounded value, or an
    infinity once that is beyond the largest finite double. *)
Definition to_double (q : Q) : Delay :=
  let r := round64 q in
  if Qle_bool (exp2 1024) (Qabs r) then Infinite (is_negative q) else Ms r.

(** The number read from a configuration field; arithmetic on [undefined]
    gives NaN. *)
Definition to_number (n : JsNumber) : Delay :=
  match n with
  | Undef => NaN
  | Num z => to_double (inject_Z z)
  end.

(** The number a binary64 value of the kernel denotes: the embedding is
    compared with it on samples. *)
Definition of_binary64 (f : float) : Delay :=
  match Prim2SF f with
  | S754_zero _ => Ms 0%Q
  | S754_infinity negative => Infinite negative
  | S754_nan => NaN
  | S754_finite negative m e =>
      Ms ((if negative then inject_Z (Zneg m) else inject_Z (Zpos m)) * exp2 e)%Q
  end.

(** Two numbers of the same value; a finite double can be held as more
    than one fraction. *)
Definition same_number (a b : Delay) : bool :=
  match a, b with
  | NaN, NaN => true
  | Infinite s, Infinite t => Bool.eqb s t
  | Ms x, Ms y => Qeq_bool x y
  | _, _ => false
  end.

(** [a * b] *)
Definition delay_mul (a b : Delay) : Delay :=
  match a, b with
  | NaN, _ | _, NaN => NaN
  | Infinite s, Infinite t => Infinite (xorb s t)
  | Infinite s, Ms y => if is_zero y then NaN else Infinite (xorb s (is_negative y))
  | Ms x, Infinite t => if is_zero x then NaN else Infinite (xorb (is_negative x) t)
  | Ms x, Ms y => to_double (x * y)
  end.

(** [a + b] *)
Definition delay_add (a b : Delay) : Delay :=
  match a, b with
  | NaN, _ | _, NaN => NaN
  | Infinite s, Infinite t => if Bool.eqb s t then Infinite s else NaN
  | Infinite s, Ms _ => Infinite s
  | Ms _, Infinite t => Infinite t
  | Ms x, Ms y => to_double (x + y)
  end.

(** [Math.min(a, b)]; NaN if either argument is NaN. *)
Definition delay_min (a b : Delay) : Delay :=
  match a, b with
  | NaN, _ | _, NaN => NaN
  | Infinite true, _ | _, Infinite true => Infinite true
  | Infinite false, y => y
  | x, Infinite false => x
  | Ms x, Ms y => Ms (Qmin x y)
  end.

(** [Math.pow(2, attempt)] for a loop index: exact up to [2^1023], the
    largest power of two that is a double, and [Infinity] beyond. *)
Definition pow2 (attempt : nat) : Delay :=
  if (attempt <=? 1023)%nat then Ms (exp2 (Z.of_nat attempt)) else Infinite false.

(** [calculateDelay(attempt)], reading the configuration [cfg], with
    [random] the value [Math.random()] returns in this call. *)
Definition calculateDelay (cfg : ThrottleConfig) (attempt : nat) (random : Q) : Delay :=
  let exponentialDelay := delay_mul (to_number (baseDelay cfg)) (pow2 attempt) in
  let jitter := delay_mul (Ms random) (to_number (baseDelay cfg)) in
  delay_min (delay_add exponentialDelay jitter) (to_number (maxDelay cfg)).

(** [a <= n] and [a < n] for a loop index [a]; false against [undefined]. *)
Definition le_num (a : nat) (n : JsNumber) : bool :=
  match n with
  | Num z => (Z.of_nat a <=? z)%Z
  | Undef => false
  end.

Definition lt_num (a : nat) (n : JsNumber) : bool :=
  match n with
  | Num z => (Z.of_nat a <? z)%Z
  | Undef => false
  end.

(** The descriptor-exhaustion class: an object whose [code] property is the
    string ["ENFILE"] or ["EMFILE"]. *)
Definition descriptor_exhaustion (error : Js.Value) : Prop :=
  exists props,
    error = Js.Object props
    /\ (Js.lookup "code" props = Some (Js.Str "ENFILE")
        \/ Js.lookup "code" props = Some (Js.Str "EMFILE")).

(** ** Calls of [fs/promises] and the event trace *)

Record MkdirOptions : Type := { mk_recursive : option bool; mk_mode : option Z }.
Record RmOptions : Type := { rm_recursive : option bool; rm_force : option bool }.
Record ReaddirOptions : Type := { rd_withFileTypes : option bool; rd_encoding : option string }.

(** A call of the underlying primitive with the arguments it receives;
    file contents ([string | Buffer]) are byte strings. *)
Inductive FsCall : Type :=
| fs_access (path : string) (mode : option Z)
| fs_readFile (path : string) (encoding : option string)
| fs_writeFile (path : string) (data : string) (encoding : option string)
| fs_mkdir (path : string) (options : option MkdirOptions)
| fs_readdir (path : string) (withFileTypes : bool)
| fs_stat (path : string)
| fs_rm (path : string) (options : option RmOptions)
| fs_unlink (path : string)
| fs_copyFile (src dest : string) (mode : option Z)
| fs_appendFile (path : string) (data : string) (encoding : option string)
| fs_rename (oldPath newPath : string)
| fs_lstat (path : string).

Inductive Primitive : Type :=
| Paccess | PreadFile | PwriteFile | Pmkdir | Preaddir | Pstat
| Prm | Punlink | PcopyFile | PappendFile | Prename | Plstat.

Definition call_primitive (c : FsCall) : Primitive :=
  match c with
  | fs_access _ _ => Paccess
  | fs_readFile _ _ => PreadFile
  | fs_writeFile _ _ _ => PwriteFile
  | fs_mkdir _ _ => Pmkdir
  | fs_readdir _ _ => Preaddir
  | fs_stat _ => Pstat
  | fs_rm _ _ => Prm
  | fs_unlink _ => Punlink
  | fs_copyFile _ _ _ => PcopyFile
  | fs_appendFile _ _ _ => PappendFile
  | fs_rename _ _ => Prename
  | fs_lstat _ => Plstat
  end.

(** The path arguments a call hands to the operating system. *)
Definition call_paths (c : FsCall) : list string :=
  match c with
  | fs_access p _ | fs_readFile p _ | fs_writeFile p _ _ | fs_mkdir p _
  | fs_readdir p _ | fs_stat p | fs_rm p _ | fs_unlink p
  | fs_appendFile p _ _ | fs_lstat p => [p]
  | fs_copyFile a b _ | fs_rename a b => [a; b]
  end.

(** Effects, in program order.  [EvLimit] is the call [fsLimit(task)] that
    takes a place in the limiter; [EvAttempt] is one call of
    [operation()]; [EvCaught] marks the [catch] clause; [EvWarn] is the
    [console.warn] of a retry, which prints [attempt + 1]. *)
Inductive Event : Type :=
| EvValidate (raw : string)
| EvLimit (operationName : string)
| EvAttempt (attempt : nat)
| EvFs (call : FsCall)
| EvCaught (attempt : nat) (error : Js.Value)
| EvWarn (operationName : string) (attempt : nat) (delay : Delay)
| EvSleep (delay : Delay).

Inductive Outcome (T : Type) : Type :=
| Resolved (value : T)
| Rejected (error : Js.Value).
Arguments Resolved {T} value.
Arguments Rejected {T} error.

Definition is_validate (e : Event) : bool :=
  match e with EvValidate _ => true | _ => false end.
Definition is_limit (e : Event) : bool :=
  match e with EvLimit _ => true | _ => false end.
Definition is_attempt (e : Event) : bool :=
  match e with EvAttempt _ => true | _ => false end.
Definition is_caught (e : Event) : bool :=
  match e with EvCaught _ _ => true | _ => false end.

Definition is_warn (e : Event) : bool :=
  match e with EvWarn _ _ _ => true | _ => false end.

(** Events of the retry loop proper: neither a validation nor a
    submission to the limiter. *)
Definition engine_event (e : Event) : Prop :=
  is_validate e = false /\ is_limit e = false.

Definition count (p : Event -> bool) (tr : list Event) : nat :=
  List.length (filter p tr).

(** The attempt indices of the retry notifications, in order. *)
Fixpoint warned_attempts (tr : list Event) : list nat :=
  match tr with
  | [] => []
  | EvWarn _ a _ :: rest => a :: warned_attempts rest
  | _ :: rest => warned_attempts rest
  end.

(** ** The retry engine *)

(** What other code does to the module state while a task is suspended at
    an [await]: one change per suspension, in order, and none once the
    list is used up. *)
Definition Schedule : Type := list (Store -> Store).

Definition resume (schedule : Schedule) (s : Store) : Store * Schedule :=
  match schedule with
  | [] => (s, [])
  | change :: later => (change s, later)
  end.

(** The module state once every change of the schedule has happened. *)
Definition settled (schedule : Schedule) (s : Store) : Store :=
  fold_left (fun st (change : Store -> Store) => change st) schedule s.

(** The states a task can find when it resumes. *)
Inductive reaches : Schedule -> Store -> Store -> Prop :=
| reaches_now schedule s : reaches schedule s s
| reaches_later (change : Store -> Store) schedule s s' :
    reaches schedule (change s) s' -> reaches (change :: schedule) s s'.

(** A change that leaves [config.maxRetries] as it is, and one that leaves
    the three retry settings as they are. *)
Definition keeps_maxRetries (change : Store -> Store) : Prop :=
  forall s, maxRetries (live (change s)) = maxRetries (live s).

Definition keeps_retry_settings (change : Store -> Store) : Prop :=
  forall s,
    maxRetries (live (change s)) = maxRetries (live s)
    /\ baseDelay (live (change s)) = baseDelay (live s)
    /\ maxDelay (live (change s)) = maxDelay (live s).

(** [maxRetries] is not changed while the task is suspended: whenever the
    task resumes it finds the value it started with.  The same for the
    three retry settings. *)
Definition maxRetries_unchanged (schedule : Schedule) (s : Store) : Prop :=
  forall s', reaches schedule s s' -> maxRetries (live s') = maxRetries (live s).

Definition retry_settings_unchanged (schedule : Schedule) (s : Store) : Prop :=
  forall s', reaches schedule s s' ->
    maxRetries (live s') = maxRetries (live s)
    /\ baseDelay (live s') = baseDelay (live s)
    /\ maxDelay (live s') = maxDelay (live s).

Section Engine.

(** Everything outside the module that an awaited call can touch. *)
Variable World : Type.
(** [Math.random()] *)
Variable random : World -> Q * World.
(** What happens in the world while the task is suspended in [sleep(ms)]. *)
Variable sleep : Delay -> World -> World.
(** The type of the value the operation resolves with. *)
Variable T : Type.

(** [operation: () => Promise<T>]: the primitive calls it makes, how it
    settles, and the world afterwards. *)
Definition Operation : Type := World -> list FsCall * (Js.Value + T) * World.

Record Run : Type := mkRun {
  trace : list Event;
  outcome : Outcome T;
  world : World
}.

Definition prepend (evs : list Event) (r : Run) : Run :=
  {| trace := evs ++ trace r; outcome := outcome r; world := world r |}.

(** The [for] loop of [executeWithRetry], entered at index [attempt] with
    [lastError] as caught so far and [s] the module state.  The task is
    suspended at [await operation()] and at [await sleep(delay)]; each
    time it resumes, [config] is read from the state the schedule has led
    to: by the [catch] clause and [calculateDelay] after the first, by
    the loop test after the second.  [fuel] bounds the number of loop
    tests; [None] means the bound was too small. *)
Fixpoint retryLoop (operation : Operation) (operationName : string) (fuel : nat)
    (schedule : Schedule) (s : Store) (attempt : nat) (lastError : Js.Value)
    (w : World) : option Run :=
  match fuel with
  | O => None
  | S fuel' =>
      if le_num attempt (maxRetries (live s)) then
        let '(calls, result, w1) := operation w in
        let '(s1, schedule1) := resume schedule s in
        let tried := EvAttempt attempt :: map EvFs calls in
        match result with
        | inr value => Some {| trace := tried; outcome := Resolved value; world := w1 |}
        | inl error =>
            if isFileDescriptorError error && lt_num attempt (maxRetries (live s1)) then
              let '(r, w2) := random w1 in
              let delay := calculateDelay (live s1) attempt r in
              let w3 := sleep delay w2 in
              let '(s2, schedule2) := resume schedule1 s1 in
              option_map
                (prepend (tried ++ [EvCaught attempt error;
                                    EvWarn operationName attempt delay;
                                    EvSleep delay]))
                (retryLoop operation operationName fuel' schedule2 s2
                   (S attempt) error w3)
            else
              Some {| trace := tried ++ [EvCaught attempt error];
                      outcome := Rejected error;
                      world := w1 |}
        end
      else
        Some {| trace := []; outcome := Rejected lastError; world := w |}
  end.

(** The runs of the loop as a relation: [Attempts op name sch s a e w r]
    when the loop entered at index [a] with [lastError = e], in state [s]
    and world [w] and with [sch] still to come, ends as [r]. *)
Inductive Attempts (operation : Operation) (operationName : string)
  : Schedule -> Store -> nat -> Js.Value -> World -> Run -> Prop :=
| AttemptsExhausted schedule s attempt lastError w :
    le_num attempt (maxRetries (live s)) = false ->
    Attempts operation operationName schedule s attempt lastError w
      {| trace := []; outcome := Rejected lastError; world := w |}
| AttemptsResolved schedule s attempt lastError w calls value w1 :
    le_num attempt (maxRetries (live s)) = true ->
    operation w = (calls, inr value, w1) ->
    Attempts operation operationName schedule s attempt lastError w
      {| trace := EvAttempt attempt :: map EvFs calls;
         outcome := Resolved value;
         world := w1 |}
| AttemptsThrown schedule s attempt lastError w calls error w1 s1 schedule1 :
    le_num attempt (maxRetries (live s)) = true ->
    operation w = (calls, inl error, w1) ->
    resume schedule s = (s1, schedule1) ->
    isFileDescriptorError error && lt_num attempt (maxRetries (live s1)) = false ->
    Attempts operation operationName schedule s attempt lastError w
      {| trace := (EvAttempt attempt :: map EvFs calls) ++ [EvCaught attempt error];
         outcome := Rejected error;
         world := w1 |}
| AttemptsRetried schedule s attempt lastError w calls error w1 s1 schedule1
    r w2 s2 schedule2 rest :
    le_num attempt (maxRetries (live s)) = true ->
    operation w = (calls, inl error, w1) ->
    resume schedule s = (s1, schedule1) ->
    isFileDescriptorError error && lt_num attempt (maxRetries (live s1)) = true ->
    random w1 = (r, w2) ->
    resume schedule1 s1 = (s2, schedule2) ->
    Attempts operation operationName schedule2 s2 (S attempt) error
      (sleep (calculateDelay (live s1) attempt r) w2) rest ->
    Attempts operation operationName schedule s attempt lastError w
      (prepend ((EvAttempt attempt :: map EvFs calls)
                  ++ [EvCaught attempt error;
                      EvWarn operationName attempt (calculateDelay (live s1) attempt r);
                      EvSleep (calculateDelay (live s1) attempt r)])
               rest).

(** Loop tests that suffice under a configuration that no longer changes:
    one per attempt index [0 .. maxRetries]. *)
Definition loop_bound (cfg : ThrottleConfig) : nat :=
  match maxRetries cfg with
  | Num n => S (Z.to_nat n)
  | Undef => 1
  end.

(** [executeWithRetry(operation, operationName)], with [s] the module
    state when the limiter starts the task.  Every suspension uses up one
    change of the schedule, so the loop ends within one test per change
    and the tests that the configuration left in the end allows. *)
Definition executeWithRetry (s : Store) (schedule : Schedule) (operation : Operation)
    (operationName : string) (w : World) : option Run :=
  option_map (prepend [EvLimit operationName])
    (retryLoop operation operationName
       (List.length schedule + loop_bound (live (settled schedule s)))
       schedule s 0 Js.Undefined w).

End Engine.

(** ** The operation surface *)

Section Surface.

Variable World : Type.
Variable random : World -> Q * World.
Variable sleep : Delay -> World -> World.
(** What a primitive resolves with (nothing, contents, entries, stats). *)
Variable FsResult : Type.

(** [validatePath] of [./security.js]: the canonical path inside the
    allowed root, or the error it throws. *)
Variable validatePath : string -> Js.Value + string.

(** [fs/promises]: how a call settles, and the world afterwards. *)
Variable fs : FsCall -> World -> (Js.Value + FsResult) * World.

(** What other code does to the module state while the call is suspended. *)
Variable schedule : Schedule.

Local Abbreviation Run := (Run World FsResult).
Local Abbreviation Operation := (Operation World FsResult).

(** The closure [() => fs.call(...)] *)
Definition fs_op (c : FsCall) : Operation :=
  fun w => let '(result, w') := fs c w in ([c], result, w').

(** [const validatedPath = validatePath(raw); ...]: a throw rejects the
    promise of the enclosing [async] function. *)
Definition validated (raw : string) (w : World) (k : string -> option Run)
  : option Run :=
  match validatePath raw with
  | inl e => Some {| trace := [EvValidate raw]; outcome := Rejected e; world := w |}
  | inr validatedPath => option_map (prepend [EvValidate raw]) (k validatedPath)
  end.

Definition run_op (s : Store) (op : Operation) (name : string) (w : World) :=
  executeWithRetry random sleep s schedule op name w.

Definition access (s : Store) (filePath : string) (mode : option Z) (w : World) :=
  validated filePath w (fun validatedPath =>
    run_op s (fs_op (fs_access validatedPath mode)) ("access(" ++ filePath ++ ")") w).

Definition encoding_truthy (encoding : option string) : bool :=
  match encoding with
  | Some e => negb (String.eqb e EmptyString)
  | None => false
  end.

Definition readFile (s : Store) (filePath : string) (encoding : option string)
    (w : World) :=
  validated filePath w (fun validatedPath =>
    run_op s
      (if encoding_truthy encoding
       then fs_op (fs_readFile validatedPath encoding)
       else fs_op (fs_readFile validatedPath None))
      ("readFile(" ++ filePath ++ ")") w).

Definition writeFile (s : Store) (filePath data : string)
    (encoding : option string) (w : World) :=
  validated filePath w (fun validatedPath =>
    run_op s (fs_op (fs_writeFile validatedPath data encoding))
      ("writeFile(" ++ filePath ++ ")") w).

Definition mkdir (s : Store) (dirPath : string) (options : option MkdirOptions)
    (w : World) :=
  validated dirPath w (fun validatedPath =>
    run_op s (fs_op (fs_mkdir validatedPath options)) ("mkdir(" ++ dirPath ++ ")") w).

(** [options?.withFileTypes === true] *)
Definition wants_file_types (options : option ReaddirOptions) : bool :=
  match options with
  | Some o => match rd_withFileTypes o with Some true => true | _ => false end
  | None => false
  end.

Definition readdir (s : Store) (dirPath : string) (options : option ReaddirOptions)
    (w : World) :=
  validated dirPath w (fun validatedPath =>
    run_op s
      (if wants_file_types options
       then fs_op (fs_readdir validatedPath true)
       else fs_op (fs_readdir validatedPath false))
      ("readdir(" ++ dirPath ++ ")") w).

Definition stat (s : Store) (filePath : string) (w : World) :=
  validated filePath w (fun validatedPath =>
    run_op s (fs_op (fs_stat validatedPath)) ("stat(" ++ filePath ++ ")") w).

Definition rm (s : Store) (filePath : string) (options : option RmOptions)
    (w : World) :=
  validated filePath w (fun validatedPath =>
    run_op s (fs_op (fs_rm validatedPath options)) ("rm(" ++ filePath ++ ")") w).

Definition unlink (s : Store) (filePath : string) (w : World) :=
  validated filePath w (fun validatedPath =>
    run_op s (fs_op (fs_unlink validatedPath)) ("unlink(" ++ filePath ++ ")") w).

Definition copyFile (s : Store) (src dest : string) (mode : option Z) (w : World) :=
  validated src w (fun validatedSrc =>
    validated dest w (fun validatedDest =>
      run_op s (fs_op (fs_copyFile validatedSrc validatedDest mode))
        ("copyFile(" ++ src ++ ", " ++ dest ++ ")") w)).

Definition appendFile (s : Store) (filePath data : string)
    (encoding : option string) (w : World) :=
  validated filePath w (fun validatedPath =>
    run_op s (fs_op (fs_appendFile validatedPath data encoding))
      ("appendFile(" ++ filePath ++ ")") w).

Definition rename (s : Store) (oldPath newPath : string) (w : World) :=
  validated oldPath w (fun validatedOldPath =>
    validated newPath w (fun validatedNewPath =>
      run_op s (fs_op (fs_rename validatedOldPath validatedNewPath))
        ("rename(" ++ oldPath ++ ", " ++ newPath ++ ")") w)).

Definition lstat (s : Store) (filePath : string) (w : World) :=
  validated filePath w (fun validatedPath =>
    run_op s (fs_op (fs_lstat validatedPath)) ("lstat(" ++ filePath ++ ")") w).

(** A call of one of the twelve mediated entry points. *)
Inductive Request : Type :=
| CallAccess (filePath : string) (mode : option Z)
| CallReadFile (filePath : string) (encoding : option string)
| CallWriteFile (filePath data : string) (encoding : option string)
| CallMkdir (dirPath : string) (options : option MkdirOptions)
| CallReaddir (dirPath : string) (options : option ReaddirOptions)
| CallStat (filePath : string)
| CallLstat (filePath : string)
| CallRm (filePath : string) (options : option RmOptions)
| CallUnlink (filePath : string)
| CallCopyFile (src dest : string) (mode : option Z)
| CallAppendFile (filePath data : string) (encoding : option string)
| CallRename (oldPath newPath : string).

Definition invoke (s : Store) (r : Request) (w : World) : option Run :=
  match r with
  | CallAccess p m => access s p m w
  | CallReadFile p e => readFile s p e w
  | CallWriteFile p d e => writeFile s p d e w
  | CallMkdir p o => mkdir s p o w
  | CallReaddir p o => readdir s p o w
  | CallStat p => stat s p w
  | CallLstat p => lstat s p w
  | CallRm p o => rm s p o w
  | CallUnlink p => unlink s p w
  | CallCopyFile a b m => copyFile s a b m w
  | CallAppendFile p d e => appendFile s p d e w
  | CallRename a b => rename s a b w
  end.

(** The caller-supplied paths of a request, in argument order. *)
Definition request_paths (r : Request) : list string :=
  match r with
  | CallAccess p _ | CallReadFile p _ | CallWriteFile p _ _ | CallMkdir p _
  | CallReaddir p _ | CallStat p | CallLstat p | CallRm p _ | CallUnlink p
  | CallAppendFile p _ _ => [p]
  | CallCopyFile a b _ | CallRename a b => [a; b]
  end.

Definition request_primitive (r : Request) : Primitive :=
  match r with
  | CallAccess _ _ => Paccess
  | CallReadFile _ _ => PreadFile
  | CallWriteFile _ _ _ => PwriteFile
  | CallMkdir _ _ => Pmkdir
  | CallReaddir _ _ => Preaddir
  | CallStat _ => Pstat
  | CallLstat _ => Plstat
  | CallRm _ _ => Prm
  | CallUnlink _ => Punlink
  | CallCopyFile _ _ _ => PcopyFile
  | CallAppendFile _ _ _ => PappendFile
  | CallRename _ _ => Prename
  end.

(** The contract of a mediated call on [paths] for primitive [prim],
    started in world [w]: the call settles, and either every path was
    accepted, in order, before the task went to the limiter, and the
    primitive only ever received the validated paths; or the first
    rejected path ended the call, with nothing but validations done. *)
Definition mediated (paths : list string) (prim : Primitive) (w : World)
    (result : option Run) : Prop :=
  exists run,
    result = Some run
    /\ ((exists validatedPaths name rest,
           Forall2 (fun raw vp => validatePath raw = inr vp) paths validatedPaths
           /\ trace run = (map EvValidate paths ++ EvLimit name :: rest)%list
           /\ Forall engine_event rest
           /\ (forall c, In (EvFs c) rest ->
                 call_primitive c = prim /\ call_paths c = validatedPaths))
        \/ (exists k raw e,
              nth_error paths k = Some raw
              /\ validatePath raw = inl e
              /\ (forall j raw', j < k -> nth_error paths j = Some raw' ->
                    exists vp, validatePath raw' = inr vp)
              /\ trace run = map EvValidate (firstn (S k) paths)
              /\ outcome run = Rejected e
              /\ world run = w)).

End Surface.

(** ** Path helpers *)

(** What a synchronous helper finds around it when it is called: the
    working directory of the process and the module state. *)
Record Ambient : Type := mkAmbient {
  amb_cwd : string;
  amb_store : Store
}.

Section Paths.

(** [path.join] and [path.resolve] of Node.  [path.resolve] completes a
    relative result with [process.cwd()], its first argument here. *)
Variable path_join : list string -> string.
Variable path_resolve : string -> list string -> string.

(** [joinPath(...pathSegments)]: the events of the call and its result. *)
Definition joinPath (amb : Ambient) (pathSegments : list string)
  : list Event * string :=
  ([], path_join pathSegments).

(** [resolvePath(...pathSegments)] *)
Definition resolvePath (amb : Ambient) (pathSegments : list string)
  : list Event * string :=
  ([], path_resolve (amb_cwd amb) pathSegments).

End Paths.

(** A model of the POSIX flavour of Node's [path] module, after the
    algorithm of [path.resolve] and [path.join]: segments are taken from the
    right until one is absolute, the working directory is taken last, and
    the result is normalised component by component. *)
Module NodePath.

Fixpoint split (s : string) : list string :=
  match s with
  | EmptyString => [EmptyString]
  | String c rest =>
      if Ascii.eqb c "/"%char then EmptyString :: split rest
      else match split rest with
           | [] => [String c EmptyString]
           | hd :: tl => String c hd :: tl
           end
  end.

Definition is_absolute (path : string) : bool :=
  match path with
  | String c _ => Ascii.eqb c "/"%char
  | EmptyString => false
  end.

Definition ends_with_slash (path : string) : bool :=
  match rev (split path) with
  | last :: _ :: _ => String.eqb last EmptyString
  | _ => false
  end.

(** [normalizeString]: drops empty and ["."] components and resolves
    [".."] against the components kept so far ([kept], innermost first). *)
Fixpoint normalize_components (allowAboveRoot : bool) (comps kept : list string)
  : list string :=
  match comps with
  | [] => rev kept
  | c :: rest =>
      if String.eqb c EmptyString || String.eqb c "." then
        normalize_components allowAboveRoot rest kept
      else if String.eqb c ".." then
        match kept with
        | top :: kept' =>
            if String.eqb top ".."
            then normalize_components allowAboveRoot rest (".." :: kept)
            else normalize_components allowAboveRoot rest kept'
        | [] =>
            if allowAboveRoot
            then normalize_components allowAboveRoot rest [".."]
            else normalize_components allowAboveRoot rest []
        end
      else normalize_components allowAboveRoot rest (c :: kept)
  end.

Definition normalizeString (path : string) (allowAboveRoot : bool) : string :=
  String.concat "/" (normalize_components allowAboveRoot (split path) []).

(** The loop of [resolve], over the segments from the right with the
    working directory last. *)
Fixpoint resolve_loop (paths : list string) (resolvedPath : string) : string * bool :=
  match paths with
  | [] => (resolvedPath, false)
  | path :: rest =>
      if String.eqb path EmptyString then resolve_loop rest resolvedPath
      else
        let resolvedPath' := path ++ "/" ++ resolvedPath in
        if is_absolute path then (resolvedPath', true)
        else resolve_loop rest resolvedPath'
  end.

Definition resolve (cwd : string) (segments : list string) : string :=
  let '(resolvedPath, resolvedAbsolute) := resolve_loop (rev segments ++ [cwd]) EmptyString in
  let normalized := normalizeString resolvedPath (negb resolvedAbsolute) in
  if resolvedAbsolute then "/" ++ normalized
  else if String.eqb normalized EmptyString then "." else normalized.

Definition normalize (path : string) : string :=
  if String.eqb path EmptyString then "."
  else
    let normalized := normalizeString path (negb (is_absolute path)) in
    if String.eqb normalized EmptyString then
      if is_absolute path then "/"
      else if ends_with_slash path then "./" else "."
    else
      let body := if ends_with_slash path then normalized ++ "/" else normalized in
      if is_absolute path then "/" ++ body else body.

Definition join (segments : list string) : string :=
  match filter (fun seg => negb (String.eqb seg EmptyString)) segments with
  | [] => "."
  | nonempty => normalize (String.concat "/" nonempty)
  end.

End NodePath.


(** ** Sample inputs *)

(** A history with a capacity change, an operation in flight, a refused
    capacity change, a snapshot that its holder overwrites, and a change of
    the retry settings. *)
Definition sample_history : list Action :=
  [ Configure (mkPartial (Some (Num 50)) None None None);
    Submit; Admit;
    Configure (mkPartial (Some (Num 10)) None None None);
    GetConfig;
    Mutate 3 (mkConfig (Num 1) (Num 1) (Num 1) (Num 1));
    Configure (mkPartial None (Some (Num 5)) (Some (Num 200)) (Some (Num 10000)));
    Release ].

(** The same, followed by a capacity the limiter constructor rejects. *)
Definition sample_history_refused : list Action :=
  sample_history ++ [Configure (mkPartial (Some (Num 0)) None None None)].

(** A world that only counts the calls made so far, with a constant random
    source and a sleep that changes nothing. *)
Definition sample_random (w : nat) : Q * nat := (1 # 2, w)%Q.
Definition sample_sleep (d : Delay) (w : nat) : nat := w.

Definition EMFILE (call : nat) : Js.Value :=
  Js.Object [("code", Js.Str "EMFILE"); ("errno", Js.Number (-24));
             ("call", Js.Number (Z.of_nat call))].

Definition ENOENT : Js.Value :=
  Js.Object [("code", Js.Str "ENOENT"); ("errno", Js.Number (-2))].

(** An operation that fails with [EMFILE] at every call. *)
Definition exhausted_op : Operation nat unit :=
  fun w => ([fs_stat "/srv/p"], inl (EMFILE w), S w).

(** An operation that fails with [EMFILE] at its first call and with
    [ENOENT] afterwards. *)
Definition flaky_op : Operation nat unit :=
  fun w => ([fs_stat "/srv/p"],
            inl (match w with O => EMFILE 0 | S _ => ENOENT end),
            S w).

(** The events of [flaky_op] under the defaults, up to its second failure. *)
Definition flaky_prefix : list Event :=
  [ EvLimit "stat(p)";
    EvAttempt 0; EvFs (fs_stat "/srv/p"); EvCaught 0 (EMFILE 0);
    EvWarn "stat(p)" 0 (calculateDelay DEFAULT_CONFIG 0 (1 # 2));
    EvSleep (calculateDelay DEFAULT_CONFIG 0 (1 # 2));
    EvAttempt 1; EvFs (fs_stat "/srv/p") ].

(** Other code that leaves the module alone while the first attempt is
    awaited and calls [configureThrottling({ maxRetries: 0 })] during the
    backoff that follows. *)
Definition lowered_budget : Schedule :=
  [ (fun s => s);
    (fun s => snd (configureThrottling accepts_positive s
                     (mkPartial None (Some (Num 0)) None None))) ].

(** The run of an operation that always fails with [EMFILE], under the
    defaults, when other code sets [maxRetries] to 0 during the first
    backoff: the retry is announced and waited for, then the loop test
    fails and the error of the first attempt is thrown. *)
Definition cut_short_run : Run nat unit :=
  {| trace := [ EvLimit "stat(p)";
                EvAttempt 0; EvFs (fs_stat "/srv/p"); EvCaught 0 (EMFILE 0);
                EvWarn "stat(p)" 0 (calculateDelay DEFAULT_CONFIG 0 (1 # 2));
                EvSleep (calculateDelay DEFAULT_CONFIG 0 (1 # 2)) ];
     outcome := Rejected (EMFILE 0);
     world := 1 |}.

(** Other code that only takes a snapshot. *)
Definition snapshot_taken : Schedule :=
  [ (fun s => snd (getThrottlingConfig s)) ].

(** Other code that takes a snapshot and changes the delay settings. *)
Definition unrelated_changes : Schedule :=
  [ (fun s => snd (getThrottlingConfig s));
    (fun s => snd (configureThrottling accepts_positive s
                     (mkPartial None None (Some (Num 200)) (Some (Num 10000))))) ].

(** Two processes with the same working directory and different module
    states, and one with another working directory. *)
Definition ambient_fresh : Ambient :=
  {| amb_cwd := "/srv/app"; amb_store := initial |}.
Definition ambient_used : Ambient :=
  {| amb_cwd := "/srv/app";
     amb_store := run accepts_positive initial sample_history |}.
Definition ambient_elsewhere : Ambient :=
  {| amb_cwd := "/tmp"; amb_store := initial |}.

(** ** Further observations on traces *)

Definition is_sleep (e : Event) : bool :=
  match e with EvSleep _ => true | _ => false end.

(** The primitive calls of a trace, in order. *)
Fixpoint fs_calls (tr : list Event) : list FsCall :=
  match tr with
  | [] => []
  | EvFs c :: rest => c :: fs_calls rest
  | _ :: rest => fs_calls rest
  end.

(** The delays announced by the retry notifications, with their attempt
    index, in order. *)
Fixpoint warned_delays (tr : list Event) : list (nat * Delay) :=
  match tr with
  | [] => []
  | EvWarn _ a d :: rest => (a, d) :: warned_delays rest
  | _ :: rest => warned_delays rest
  end.

(** The delays actually waited, in order. *)
Fixpoint slept_delays (tr : list Event) : list Delay :=
  match tr with
  | [] => []
  | EvSleep d :: rest => d :: slept_delays rest
  | _ :: rest => slept_delays rest
  end.

(** The milliseconds the finite waits of a list add up to. *)
Fixpoint total_delay (ds : list Delay) : Q :=
  match ds with
  | [] => 0%Q
  | Ms q :: rest => (q + total_delay rest)%Q
  | _ :: rest => total_delay rest
  end.

(** A delay that is a number of milliseconds between [lo] and [hi]. *)
Definition delay_within (lo hi : Q) (d : Delay) : Prop :=
  match d with
  | Ms q => (lo <= q)%Q /\ (q <= hi)%Q
  | _ => False
  end.

(** How the result of a primitive call reads as the outcome of a promise. *)
Definition settle {T : Type} (result : Js.Value + T) : Outcome T :=
  match result with
  | inl error => Rejected error
  | inr value => Resolved value
  end.

(** The call of [fs/promises] an entry point issues once its paths are
    validated: [readFile] forwards a truthy encoding only, [readdir]
    forwards [withFileTypes] only when it is [true]. *)
Definition underlying_call (r : Request) (validatedPaths : list string)
  : option FsCall :=
  match r, validatedPaths with
  | CallAccess _ mode, [vp] => Some (fs_access vp mode)
  | CallReadFile _ encoding, [vp] =>
      Some (fs_readFile vp (if encoding_truthy encoding then encoding else None))
  | CallWriteFile _ data encoding, [vp] => Some (fs_writeFile vp data encoding)
  | CallMkdir _ options, [vp] => Some (fs_mkdir vp options)
  | CallReaddir _ options, [vp] => Some (fs_readdir vp (wants_file_types options))
  | CallStat _, [vp] => Some (fs_stat vp)
  | CallLstat _, [vp] => Some (fs_lstat vp)
  | CallRm _ options, [vp] => Some (fs_rm vp options)
  | CallUnlink _, [vp] => Some (fs_unlink vp)
  | CallCopyFile _ _ mode, [vs; vd] => Some (fs_copyFile vs vd mode)
  | CallAppendFile _ data encoding, [vp] => Some (fs_appendFile vp data encoding)
  | CallRename _ _, [vo; vn] => Some (fs_rename vo vn)
  | _, _ => None
  end.

(** An operation that fails with [EMFILE] while fewer than [failures]
    calls have been made, and resolves with the number of the call after
    that. *)
Definition recovering_op (failures : nat) : Operation nat nat :=
  fun w => ([fs_stat "/srv/p"],
            (if Nat.ltb w failures then inl (EMFILE w) else inr w),
            S w).

(** A gate that accepts the paths under [/srv/] and maps them to
    themselves, and rejects every other path. *)
Definition sample_gate (raw : string) : Js.Value + string :=
  if String.prefix "/srv/" raw
  then inr raw
  else inl (Js.Object [("name", Js.Str "PathNotAllowedError")]).

(** A file system in which every call succeeds, and one in which every
    call fails with [ENOENT]; both count the calls. *)
Definition sample_fs_ok (c : FsCall) (w : nat) : (Js.Value + unit) * nat :=
  (inr tt, S w).
Definition sample_fs_missing (c : FsCall) (w : nat) : (Js.Value + unit) * nat :=
  (inl ENOENT, S w).

(** A history in which no [Configure] supplies [undefined] for
    [maxConcurrency]. *)
Definition defined_capacity (a : Action) : Prop :=
  match a with
  | Configure p => defined_key (p_maxConcurrency p)
  | _ => True
  end.

(** A history that reconfigures the retry settings to a negative
    [maxRetries]. *)
Definition store_without_budget : Store :=
  snd (configureThrottling accepts_positive initial
         (mkPartial None (Some (Num (-1))) None None)).

(** A capacity the limiter constructor rejects, supplied together with a
    change of [maxRetries]. *)
Definition refused_partial : PartialConfig :=
  mkPartial (Some (Num 0)) (Some (Num 9)) None None.

(** The configuration the test suite restores before each test. *)
Definition test_reset : PartialConfig :=
  mkPartial (Some (Num 100)) (Some (Num 3)) (Some (Num 100)) (Some (Num 5000)).

(** The shape of a call once its paths are accepted: the validations, one
    submission, and loop events that only ever issue the call [c0]. *)
Definition accepted_shape {World FsResult : Type} (paths : list string)
    (c0 : FsCall) (result : option (Run World FsResult)) : Prop :=
  exists run,
    result = Some run
    /\ count is_validate (trace run) = List.length paths
    /\ count is_limit (trace run) = 1
    /\ (forall c, In c (fs_calls (trace run)) -> c = c0).
(** * Properties *)

Unset Implicit Arguments.
Local Open Scope list_scope.

Lemma JsNumber_eqb_spec (a b : JsNumber) : reflect (a = b) (JsNumber_eqb a b).
Proof.
  destruct a as [|x], b as [|y]; simpl; try (constructor; congruence).
  destruct (Z.eqb_spec x y); constructor; congruence.
Qed.

Example NodePath_resolve_relative :
  NodePath.resolve "/home/app" ["data"; "../x.json"] = "/home/app/x.json".
Proof. reflexivity. Qed.

Example NodePath_resolve_absolute :
  NodePath.resolve "/home/app" ["a"; "/etc"; "passwd"] = "/etc/passwd".
Proof. reflexivity. Qed.

Example NodePath_resolve_trailing_slash :
  NodePath.resolve "/home/app" ["/foo/bar"; "/tmp/file/"] = "/tmp/file".
Proof. reflexivity. Qed.

Example NodePath_resolve_documented :
  NodePath.resolve "/home/myself/node"
    ["wwwroot"; "static_files/png/"; "../gif/image.gif"]
  = "/home/myself/node/wwwroot/static_files/gif/image.gif".
Proof. reflexivity. Qed.

Example NodePath_join_documented :
  NodePath.join ["/foo"; "bar"; "baz/asdf"; "quux"; ".."] = "/foo/bar/baz/asdf".
Proof. reflexivity. Qed.

Example NodePath_join_sample :
  NodePath.join ["/projects/"; "demo"; ".."; "x"; "f.txt"] = "/projects/x/f.txt".
Proof. reflexivity. Qed.


(** ** The store *)

Lemma upd_same h l o : upd h l o l = o.
Proof. unfold upd. now rewrite Nat.eqb_refl. Qed.

Lemma upd_other h l o l' : l' <> l -> upd h l o l' = h l'.
Proof.
  intro Hne. unfold upd. destruct (Nat.eqb_spec l' l); [contradiction | reflexivity].
Qed.

Create HintDb store.
#[local] Hint Resolve upd_same upd_other : store.

Lemma Forall_lt_weaken (n : nat) (ls : list Loc) :
  Forall (fun l => l < n) ls -> Forall (fun l => l < S n) ls.
Proof. intro H. eapply Forall_impl; [| exact H]. simpl. intros; lia. Qed.

Lemma fresh_not_exported (n : nat) (ls : list Loc) :
  Forall (fun l => l < n) ls -> ~ In n ls.
Proof.
  intros H Hin. rewrite Forall_forall in H. specialize (H _ Hin). simpl in H. lia.
Qed.

Section ConfigurationFacts.

Variable validConcurrency : Z -> bool.

Local Abbreviation configure := (configureThrottling validConcurrency).

Local Ltac store_goal :=
  simpl; auto with store;
  try (intros; congruence);
  try (unfold live, deref; simpl; apply upd_same).

Lemma configure_cases (s : Store) (p : PartialConfig) :
  ConfigureCase validConcurrency s p (configure s p).
Proof.
  unfold configureThrottling, read_key.
  destruct (p_maxConcurrency p) as [[|n]|] eqn:Hk.
  - apply CaseMerged; store_goal.
  - destruct (JsNumber_eqb_spec (Num n) (maxConcurrency (live s))) as [Heq|Hne]; simpl.
    + apply CaseMerged; store_goal.
    + destruct (activeCount (fsLimit s)) as [|a] eqn:Ha;
        destruct (pendingCount (fsLimit s)) as [|q] eqn:Hq; simpl.
      * unfold pLimit. destruct (validConcurrency n) eqn:Hv.
        -- eapply CaseSwapped with (n := n); eauto; store_goal.
        -- eapply CaseRefused; eauto.
      * rewrite <- Hq at 1. rewrite <- Ha.
        eapply CaseInFlight; eauto. right. lia.
      * rewrite <- Ha at 1. rewrite <- Hq.
        eapply CaseInFlight; eauto. left. lia.
      * rewrite <- Ha at 1. rewrite <- Hq at 1.
        eapply CaseInFlight; eauto. left. lia.
  - apply CaseMerged; store_goal.
Qed.

End ConfigurationFacts.

Section ConfigurationClaims.

Variable validConcurrency : Z -> bool.

Local Abbreviation configure := (configureThrottling validConcurrency).
Local Abbreviation step := (step validConcurrency).
Local Abbreviation run := (run validConcurrency).
Local Abbreviation admissible_history := (admissible_history validConcurrency).

Lemma observe_live (s : Store) : observe s = live s.
Proof. unfold observe, getThrottlingConfig, deref; simpl. apply upd_same. Qed.

Lemma wf_initial : wf initial.
Proof. unfold wf; simpl. repeat split; [lia | constructor | tauto]. Qed.

Lemma wf_configure (s : Store) (p : PartialConfig) :
  wf s -> wf (snd (configure s p)).
Proof.
  intros (Hc & Hex & Hnin).
  destruct (configure_cases validConcurrency s p); simpl; unfold wf; auto.
  all: repeat match goal with H : _ = _ |- _ => rewrite H end.
  all: repeat split;
    [lia | now apply Forall_lt_weaken | now apply fresh_not_exported].
Qed.

Lemma wf_getThrottlingConfig (s : Store) :
  wf s -> wf (snd (getThrottlingConfig s)).
Proof.
  intros (Hc & Hex & Hnin). unfold wf; simpl. repeat split.
  - lia.
  - constructor; [lia | now apply Forall_lt_weaken].
  - intros [Heq | Hin]; [lia | contradiction].
Qed.

Lemma live_write_exported (s : Store) (l : Loc) (o : ThrottleConfig) :
  wf s -> In l (exported s) -> live (write s l o) = live s.
Proof.
  intros (_ & _ & Hnin) Hin. unfold live, deref; simpl.
  apply upd_other. intro Heq. apply Hnin. now rewrite Heq.
Qed.

Lemma existsb_eqb_In (l : Loc) (ls : list Loc) :
  existsb (Nat.eqb l) ls = true -> In l ls.
Proof.
  intro H. apply existsb_exists in H as (x & Hin & Hx).
  apply Nat.eqb_eq in Hx. now subst.
Qed.

Lemma wf_step (s : Store) (a : Action) : wf s -> wf (step s a).
Proof.
  intro H. destruct a as [p | | l o | | |]; simpl.
  - now apply wf_configure.
  - now apply wf_getThrottlingConfig.
  - destruct (existsb (Nat.eqb l) (exported s)); exact H.
  - exact H.
  - exact H.
  - exact H.
Qed.

Lemma wf_run (acts : list Action) (s : Store) : wf s -> wf (run s acts).
Proof.
  revert s. induction acts as [|a rest IH]; intros s H; simpl; auto.
  apply IH. now apply wf_step.
Qed.

(** Actions other than [Configure] leave the live configuration and the
    capacity of the limiter as they are. *)
Lemma step_frame (s : Store) (a : Action) :
  wf s ->
  (forall p, a <> Configure p) ->
  live (step s a) = live s
  /\ concurrency (fsLimit (step s a)) = concurrency (fsLimit s).
Proof.
  intros Hwf Hnc. destruct a as [p | | l o | | |]; simpl.
  - now contradiction (Hnc p).
  - split; auto. unfold live, deref; simpl. apply upd_other.
    destruct Hwf as (Hc & _). lia.
  - destruct (existsb (Nat.eqb l) (exported s)) eqn:He; auto.
    split; auto. apply live_write_exported; auto using existsb_eqb_In.
  - auto.
  - split; auto. unfold limiter_admit.
    destruct (pendingCount (fsLimit s)); auto.
    destruct (Z.of_nat (activeCount (fsLimit s)) <? concurrency (fsLimit s))%Z; auto.
  - auto.
Qed.

Lemma spread_invariant (c : ThrottleConfig) (p : PartialConfig) :
  config_invariant c -> keeps_invariant c p -> config_invariant (spread c p).
Proof.
  unfold config_invariant, keeps_invariant, spread, in_range; simpl.
  destruct c as [mc mr b m]; simpl.
  destruct p as [[[|pmc]|] [[|pmr]|] [[|pb]|] [[|pm]|]]; simpl;
    destruct mc, mr, b, m; simpl; intuition lia.
Qed.

Lemma step_invariant (s : Store) (a : Action) :
  wf s ->
  config_invariant (live s) ->
  match a with Configure p => keeps_invariant (live s) p | _ => True end ->
  config_invariant (live (step s a)).
Proof.
  intros Hwf Hinv Hadm. pose proof (step_frame s a Hwf) as Hfr.
  destruct a as [p | | l o | | |].
  2-6: (destruct Hfr as [-> _]; [intros; discriminate | exact Hinv]).
  simpl. destruct (configure_cases validConcurrency s p); simpl; auto.
  all: match goal with H : live _ = _ |- _ => rewrite H end.
  all: now apply spread_invariant.
Qed.

Lemma step_consistent (s : Store) (a : Action) :
  wf s -> consistent s -> defined_action a -> consistent (step s a).
Proof.
  unfold consistent. intros Hwf Hcons Hdef.
  pose proof (step_frame s a Hwf) as Hfr.
  destruct a as [p | | l o | | |].
  2-6: (destruct Hfr as [-> ->]; [intros; discriminate | exact Hcons]).
  simpl. destruct (configure_cases validConcurrency s p) as [ | | n s' Hk | s' Hk Hlim];
    simpl; auto.
  - match goal with H : live _ = _ |- _ => rewrite H end.
    match goal with H : fsLimit _ = _ |- _ => rewrite H end.
    simpl. now rewrite Hk.
  - match goal with H : live _ = _ |- _ => rewrite H end.
    rewrite Hlim. simpl.
    destruct Hdef as (Hd & _). unfold defined_key in Hd.
    destruct (p_maxConcurrency p) as [[|n]|]; simpl; auto.
    + congruence.
    + rewrite Hcons. symmetry. now apply Hk.
Qed.

(** C4. [configureThrottling] throws the in-flight error exactly when the
    partial configuration supplies a defined [maxConcurrency], a number,
    different from the current one while an operation is active or
    pending; a key holding [undefined] is not checked and raises no
    error.  When it throws, the store, hence the live configuration and
    the limiter, is the one before the call; omitting the key or
    supplying the current value never raises it. *)
Theorem configureThrottling_conflict_iff (s : Store) (p : PartialConfig) :
  let r := configure s p in
  (is_in_flight_error (fst r) = true <->
     exists n,
       p_maxConcurrency p = Some (Num n)
       /\ Num n <> maxConcurrency (live s)
       /\ (0 < getActiveOperations s \/ 0 < getPendingOperations s))
  /\ (is_in_flight_error (fst r) = true ->
        snd r = s /\ observe (snd r) = observe s /\ fsLimit (snd r) = fsLimit s)
  /\ (p_maxConcurrency p = None \/ p_maxConcurrency p = Some (maxConcurrency (live s)) ->
        is_in_flight_error (fst r) = false).
Proof.
  unfold getActiveOperations, getPendingOperations.
  destruct (configure_cases validConcurrency s p) as
    [n Hk Hne Hfl | n Hk Hne Ha Hp Hv | n s' Hk Hne Ha Hp Hv | s' Hk]; simpl.
  - repeat split; auto.
    + intros _. now exists n.
    + intros [Hnone | Hcur]; congruence.
  - repeat split; try discriminate; auto.
    intros (m & _ & _ & Hfl). lia.
  - repeat split; try discriminate; auto.
    intros (m & _ & _ & Hfl). lia.
  - repeat split; try discriminate; auto.
    intros (m & Hm & Hne & _). now specialize (Hk m Hm).
Qed.

(** C6. Partial-merge law: after a successful [configureThrottling], what
    [getThrottlingConfig()] shows holds, for each key, the supplied value
    when the key was supplied and the prior value when it was not. *)
Theorem configureThrottling_partial_merge (s s' : Store) (p : PartialConfig) :
  configure s p = (inr tt, s') ->
  key_law (p_maxConcurrency p) (maxConcurrency (observe s)) (maxConcurrency (observe s'))
  /\ key_law (p_maxRetries p) (maxRetries (observe s)) (maxRetries (observe s'))
  /\ key_law (p_baseDelay p) (baseDelay (observe s)) (baseDelay (observe s'))
  /\ key_law (p_maxDelay p) (maxDelay (observe s)) (maxDelay (observe s')).
Proof.
  intro Hok. rewrite !observe_live.
  pose proof (configure_cases validConcurrency s p) as Hc. rewrite Hok in Hc.
  assert (Hlive : live s' = spread (live s) p) by (inversion Hc; assumption).
  rewrite Hlive. unfold spread, key_law, spread_key; simpl.
  destruct p as [[?|] [?|] [?|] [?|]]; simpl; auto.
Qed.

(** C7, as amended.  From the defaults, after any history in which every
    [configureThrottling] call supplies only numbers within the ranges of
    the data model and leaves the merged [baseDelay] at most the merged
    [maxDelay], the live configuration satisfies the data-model
    invariant. *)
Theorem config_invariant_of_admissible_history (acts : list Action) :
  admissible_history initial acts ->
  config_invariant (live (run initial acts)).
Proof.
  assert (Hgen : forall (l : list Action) (s : Store),
             wf s -> config_invariant (live s) ->
             admissible_history s l -> config_invariant (live (run s l))).
  { induction l as [|a rest IH]; intros s Hwf Hinv Hadm; simpl in *; auto.
    destruct Hadm as [Ha Hrest]. apply IH; auto using wf_step, step_invariant. }
  apply Hgen; [apply wf_initial | vm_compute; repeat split; discriminate].
Qed.

Lemma getThrottlingConfig_fresh_copy (s : Store) (o : ThrottleConfig) :
  wf s ->
  let '(l, s1) := getThrottlingConfig s in
  l <> config s
  /\ deref s1 l = live s
  /\ live (write s1 l o) = live s.
Proof.
  intros (Hc & _). simpl. unfold live, deref; simpl. repeat split.
  - lia.
  - apply upd_same.
  - rewrite !upd_other by lia. reflexivity.
Qed.

(** C8. In every state the module can reach, the object
    [getThrottlingConfig()] returns is a fresh copy of the live
    configuration: it holds the live values, and after any write to its
    fields a further [getThrottlingConfig()] still shows the values that
    were live before. *)
Theorem getThrottlingConfig_returns_copy (acts : list Action) (o : ThrottleConfig) :
  let s := run initial acts in
  let '(l, s1) := getThrottlingConfig s in
  deref s1 l = live s
  /\ l <> config s
  /\ observe (write s1 l o) = observe s
  /\ live (write s1 l o) = live s.
Proof.
  intros s.
  pose proof (getThrottlingConfig_fresh_copy s o (wf_run acts initial wf_initial)) as H.
  destruct (getThrottlingConfig s) as [l s1].
  destruct H as (Hne & Hcopy & Hlive).
  rewrite !observe_live. auto.
Qed.

(** C10. From module initialisation, after any history in which every
    [configureThrottling] call supplies its keys with defined values, the
    capacity of the live limiter is the [maxConcurrency] of the live
    configuration. *)
Theorem limiter_capacity_matches_config (acts : list Action) :
  Forall defined_action acts ->
  consistent (run initial acts).
Proof.
  assert (Hgen : forall (l : list Action) (s : Store),
             wf s -> consistent s -> Forall defined_action l -> consistent (run s l)).
  { induction l as [|a rest IH]; intros s Hwf Hcons Hall; simpl; auto.
    inversion Hall; subst. apply IH; auto using wf_step, step_consistent. }
  apply Hgen; [apply wf_initial | reflexivity].
Qed.

End ConfigurationClaims.

(** C4, as stated, fails for a key that holds [undefined]: with an
    operation pending, the merge changes the live [maxConcurrency] from
    100 to [undefined], a different value, and no error is raised. *)
Lemma configureThrottling_undefined_in_flight :
  let s := run accepts_positive initial [Submit] in
  let p := mkPartial (Some Undef) None None None in
  let r := configureThrottling accepts_positive s p in
  0 < getPendingOperations s
  /\ maxConcurrency (live s) = Num 100
  /\ spread_key (maxConcurrency (live s)) (p_maxConcurrency p) <> maxConcurrency (live s)
  /\ is_in_flight_error (fst r) = false
  /\ fst r = inr tt
  /\ maxConcurrency (live (snd r)) = Undef.
Proof.
  cbv zeta. split; [vm_compute; lia |]. split; [reflexivity |].
  split; [discriminate |]. split; [reflexivity |]. split; reflexivity.
Qed.

(** The defaults do not survive an unchecked [baseDelay]: the counterexample
    to C7 as stated. *)
Lemma config_invariant_broken_by_configure :
  ~ (forall (validConcurrency : Z -> bool) (acts : list Action),
       config_invariant (live (run validConcurrency initial acts))).
Proof.
  intro H.
  specialize (H accepts_positive
                [Configure (mkPartial None None (Some (Num 10000)) None)]).
  vm_compute in H. destruct H as (_ & _ & _ & _ & H). now apply H.
Qed.

Lemma configureThrottling_partial_merge_witness :
  let p := mkPartial None (Some (Num 5)) None None in
  let s' := snd (configureThrottling accepts_positive initial p) in
  configureThrottling accepts_positive initial p = (inr tt, s')
  /\ key_law (p_maxConcurrency p) (Num 100) (maxConcurrency (observe s'))
  /\ key_law (p_maxRetries p) (Num 3) (maxRetries (observe s'))
  /\ key_law (p_baseDelay p) (Num 100) (baseDelay (observe s'))
  /\ key_law (p_maxDelay p) (Num 5000) (maxDelay (observe s')).
Proof.
  intros p s'. split; [reflexivity |].
  exact (configureThrottling_partial_merge accepts_positive initial s' p eq_refl).
Defined.

Lemma config_invariant_of_admissible_history_witness :
  admissible_history accepts_positive initial sample_history
  /\ config_invariant (live (run accepts_positive initial sample_history)).
Proof.
  assert (H : admissible_history accepts_positive initial sample_history).
  { cbn. repeat split; try lia; try discriminate. }
  split; [exact H |].
  exact (config_invariant_of_admissible_history accepts_positive sample_history H).
Defined.

Lemma limiter_capacity_matches_config_witness :
  Forall defined_action sample_history_refused
  /\ consistent (run accepts_positive initial sample_history_refused).
Proof.
  assert (H : Forall defined_action sample_history_refused).
  { repeat constructor; discriminate. }
  split; [exact H |].
  exact (limiter_capacity_matches_config accepts_positive sample_history_refused H).
Defined.

(** ** Backoff *)

(** *** Rounding to a double *)

Section Rounding.

Local Open Scope Q_scope.


Lemma exp2_pos k : 0 < exp2 k.
Proof. apply Qpower_0_lt. reflexivity. Qed.

Lemma exp2_add a b : exp2 (a + b) == exp2 a * exp2 b.
Proof. apply Qpower_plus. discriminate. Qed.

Lemma exp2_le a b : (a <= b)%Z -> exp2 a <= exp2 b.
Proof. intros H. apply Qpower_le_compat_l; [exact H | discriminate]. Qed.

Lemma exp2_lt a b : (a < b)%Z -> exp2 a < exp2 b.
Proof. intros H. apply Qpower_lt_compat_l; [exact H | reflexivity]. Qed.

Lemma exp2_lt_inv a b : exp2 a < exp2 b -> (a < b)%Z.
Proof. intros H. apply (Qpower_lt_compat_l_inv (2 # 1)); [exact H | reflexivity]. Qed.

Lemma exp2_Z k : (0 <= k)%Z -> exp2 k == inject_Z (2 ^ k).
Proof. intros H. symmetry. apply (Zpower_Qpower 2 k H). Qed.

Lemma exp2_sub a b : exp2 (a - b) * exp2 b == exp2 a.
Proof.
  rewrite <- exp2_add. replace (a - b + b)%Z with a by ring. reflexivity.
Qed.

(** [ilog2 q] is the binary exponent of a positive [q]. *)
Lemma ilog2_spec q : 0 < q -> exp2 (ilog2 q) <= q /\ q < exp2 (ilog2 q + 1).
Proof.
  intros Hq. destruct q as [n d].
  assert (Hn : (0 < n)%Z) by (unfold Qlt in Hq; simpl in Hq; lia).
  unfold ilog2. cbn [Qnum Qden].
  set (a := Z.log2 n). set (b := Z.log2 (Zpos d)).
  destruct (Z.log2_spec n Hn) as [Ha1 Ha2]. fold a in Ha1, Ha2.
  destruct (Z.log2_spec (Zpos d) eq_refl) as [Hb1 Hb2]. fold b in Hb1, Hb2.
  assert (Ha0 : (0 <= a)%Z) by apply Z.log2_nonneg.
  assert (Hb0 : (0 <= b)%Z) by apply Z.log2_nonneg.
  assert (Hlow : exp2 (a - b - 1) <= n # d).
  { apply (Qmult_le_r _ _ (exp2 (b + 1))); [apply exp2_pos|].
    rewrite <- exp2_add. replace (a - b - 1 + (b + 1))%Z with a by ring.
    rewrite !exp2_Z by lia.
    unfold Qle, Qmult, inject_Z; cbn [Qnum Qden].
    rewrite Z.mul_1_r, Pos.mul_1_r.
    replace (Z.succ b) with (b + 1)%Z in Hb2 by lia.
    replace (Z.succ a) with (a + 1)%Z in Ha2 by lia.
    assert (0 < 2 ^ a)%Z by (apply Z.pow_pos_nonneg; lia).
    nia. }
  assert (Hhigh : n # d < exp2 (a - b + 1)).
  { apply (Qmult_lt_r _ _ (exp2 b)); [apply exp2_pos|].
    rewrite <- exp2_add. replace (a - b + 1 + b)%Z with (a + 1)%Z by ring.
    rewrite !exp2_Z by lia.
    unfold Qlt, Qmult, inject_Z; cbn [Qnum Qden].
    rewrite Z.mul_1_r, Pos.mul_1_r.
    replace (Z.succ b) with (b + 1)%Z in Hb2 by lia.
    replace (Z.succ a) with (a + 1)%Z in Ha2 by lia.
    assert (0 < 2 ^ b)%Z by (apply Z.pow_pos_nonneg; lia).
    nia. }
  destruct (Qle_bool (exp2 (a - b)) (n # d)) eqn:Htest.
  - split; [apply Qle_bool_iff; exact Htest | exact Hhigh].
  - split; [exact Hlow|].
    replace (a - b - 1 + 1)%Z with (a - b)%Z by ring.
    apply Qnot_le_lt. intros Hle. apply Qle_bool_iff in Hle. congruence.
Qed.

Lemma ilog2_unique q k : exp2 k <= q -> q < exp2 (k + 1) -> ilog2 q = k.
Proof.
  intros H1 H2.
  assert (Hq : 0 < q) by (eapply Qlt_le_trans; [apply exp2_pos | exact H1]).
  destruct (ilog2_spec q Hq) as [H3 H4].
  assert (ilog2 q < k + 1)%Z by (apply exp2_lt_inv; eapply Qle_lt_trans; eauto).
  assert (k < ilog2 q + 1)%Z by (apply exp2_lt_inv; eapply Qle_lt_trans; eauto).
  lia.
Qed.

Lemma ilog2_mono x y : 0 < x -> x <= y -> (ilog2 x <= ilog2 y)%Z.
Proof.
  intros Hx Hxy.
  assert (Hy : 0 < y) by (eapply Qlt_le_trans; eauto).
  destruct (ilog2_spec x Hx) as [H1 _]. destruct (ilog2_spec y Hy) as [_ H2].
  assert (ilog2 x < ilog2 y + 1)%Z.
  { apply exp2_lt_inv. eapply Qle_lt_trans; [exact H1|].
    eapply Qle_lt_trans; eauto. }
  lia.
Qed.

(** Rounding to an integer. *)
Lemma round_half_even_cases q :
  let f := Qfloor q in
  (round_half_even q = f /\ q - inject_Z f <= 1 # 2)
  \/ (round_half_even q = (f + 1)%Z /\ 1 # 2 <= q - inject_Z f).
Proof.
  unfold round_half_even. cbv zeta.
  destruct (Qcompare_spec (q - inject_Z (Qfloor q)) (1 # 2)) as [H|H|H].
  - destruct (Z.even (Qfloor q)); [left | right]; (split; [reflexivity|]);
      rewrite H; apply Qle_refl.
  - left. split; [reflexivity | apply Qlt_le_weak; exact H].
  - right. split; [reflexivity | apply Qlt_le_weak; exact H].
Qed.

Lemma round_half_even_Z z : round_half_even (inject_Z z) = z.
Proof.
  unfold round_half_even. rewrite Qfloor_Z.
  destruct (Qcompare_spec (inject_Z z - inject_Z z) (1 # 2)) as [H|H|H].
  - exfalso. assert (E : inject_Z z - inject_Z z == 0) by ring.
    rewrite E in H. discriminate H.
  - reflexivity.
  - exfalso. assert (E : inject_Z z - inject_Z z == 0) by ring.
    rewrite E in H. discriminate H.
Qed.

Lemma Qfloor_eq_frac x y :
  x <= y -> Qfloor x = Qfloor y ->
  x - inject_Z (Qfloor x) <= y - inject_Z (Qfloor y).
Proof.
  intros Hxy E. rewrite E. unfold Qminus. apply Qplus_le_compat; [exact Hxy | apply Qle_refl].
Qed.

Lemma round_half_even_mono x y : x <= y -> (round_half_even x <= round_half_even y)%Z.
Proof.
  intros Hxy.
  pose proof (Qfloor_resp_le x y Hxy) as Hf.
  destruct (Z.eq_dec (Qfloor x) (Qfloor y)) as [E | NE].
  - pose proof (Qfloor_eq_frac x y Hxy E) as Hfrac.
    unfold round_half_even. rewrite <- E.
    rewrite <- E in Hfrac.
    destruct (Qcompare_spec (x - inject_Z (Qfloor x)) (1 # 2)) as [Hx|Hx|Hx];
      destruct (Qcompare_spec (y - inject_Z (Qfloor x)) (1 # 2)) as [Hy|Hy|Hy];
      try (destruct (Z.even (Qfloor x))); try lia; exfalso; lra.
  - assert (round_half_even x <= Qfloor x + 1)%Z.
    { destruct (round_half_even_cases x) as [[-> _] | [-> _]]; lia. }
    assert (Qfloor y <= round_half_even y)%Z.
    { destruct (round_half_even_cases y) as [[-> _] | [-> _]]; lia. }
    lia.
Qed.

Lemma round_half_even_proper x y : x == y -> round_half_even x = round_half_even y.
Proof.
  intros E. apply Z.le_antisymm; apply round_half_even_mono; rewrite E; apply Qle_refl.
Qed.

(** Rounding on a fixed grid of multiples of [u]. *)
Lemma round_to_mono u x y : 0 < u -> x <= y -> round_to u x <= round_to u y.
Proof.
  intros Hu Hxy. unfold round_to.
  apply Qmult_le_compat_r; [|apply Qlt_le_weak; exact Hu].
  rewrite <- Zle_Qle. apply round_half_even_mono.
  unfold Qdiv. apply Qmult_le_compat_r; [exact Hxy|].
  apply Qlt_le_weak, Qinv_lt_0_compat, Hu.
Qed.

Lemma round_to_grid u z : 0 < u -> round_to u (inject_Z z * u) == inject_Z z * u.
Proof.
  intros Hu. unfold round_to.
  rewrite (round_half_even_proper (inject_Z z * u / u) (inject_Z z)).
  - rewrite round_half_even_Z. reflexivity.
  - apply Qdiv_mult_l. intros E. rewrite E in Hu. discriminate Hu.
Qed.

Lemma round_to_proper u x y : x == y -> round_to u x == round_to u y.
Proof.
  intros E. unfold round_to.
  rewrite (round_half_even_proper (x / u) (y / u)); [reflexivity|].
  rewrite E. reflexivity.
Qed.

Lemma round_to_on_grid u z x : 0 < u -> x == inject_Z z * u -> round_to u x == x.
Proof.
  intros Hu E. rewrite (round_to_proper u x _ E), E. apply round_to_grid, Hu.
Qed.

(** A power of two at or above the unit is on the grid. *)
Lemma exp2_on_grid k e : (k <= e)%Z -> exp2 e == inject_Z (2 ^ (e - k)) * exp2 k.
Proof.
  intros H. rewrite <- exp2_Z by lia. apply Qeq_sym, exp2_sub.
Qed.

Lemma ulp_exponent_pos q : 0 < q -> ulp_exponent q = Z.max (ilog2 q - 52) (-1074).
Proof.
  intros Hq. unfold ulp_exponent.
  assert (E : ilog2 (Qabs q) = ilog2 q).
  { destruct (ilog2_spec q Hq) as [H1 H2].
    apply ilog2_unique; rewrite Qabs_pos by (apply Qlt_le_weak; exact Hq); assumption. }
  rewrite E. reflexivity.
Qed.

Lemma round64_pos q : 0 < q -> round64 q = round_to (exp2 (ulp_exponent q)) q.
Proof.
  intros Hq. unfold round64.
  destruct (Qeq_bool q 0) eqn:E; [|reflexivity].
  apply Qeq_bool_iff in E. rewrite E in Hq. discriminate Hq.
Qed.

Lemma round64_zero q : q == 0 -> round64 q = 0.
Proof.
  intros E. unfold round64. apply Qeq_bool_iff in E. rewrite E. reflexivity.
Qed.

Lemma round_to_nonneg u q : 0 < u -> 0 <= q -> 0 <= round_to u q.
Proof.
  intros Hu Hq.
  assert (E : round_to u 0 == 0).
  { rewrite (round_to_on_grid u 0 0 Hu); [reflexivity | ring]. }
  rewrite <- E. apply round_to_mono; assumption.
Qed.

Lemma round64_nonneg q : 0 <= q -> 0 <= round64 q.
Proof.
  intros Hq. unfold round64. destruct (Qeq_bool q 0); [apply Qle_refl|].
  apply round_to_nonneg; [apply exp2_pos | exact Hq].
Qed.

(** Rounding is monotone on the non-negative numbers: within a binade by
    the grid, across binades by the power of two between them. *)
Lemma round64_mono x y : 0 <= x -> x <= y -> round64 x <= round64 y.
Proof.
  intros Hx Hxy.
  destruct (Qeq_bool x 0) eqn:Ex.
  - apply Qeq_bool_iff in Ex. rewrite (round64_zero x Ex).
    apply round64_nonneg. rewrite <- Ex. exact Hxy.
  - apply Qeq_bool_neq in Ex.
    assert (Hx' : 0 < x).
    { apply Qle_lteq in Hx. destruct Hx as [H | H]; [exact H|].
      exfalso. apply Ex. symmetry. exact H. }
    assert (Hy' : 0 < y) by (eapply Qlt_le_trans; eauto).
    rewrite (round64_pos x Hx'), (round64_pos y Hy').
    pose proof (ilog2_mono x y Hx' Hxy) as Hlog.
    destruct (ilog2_spec x Hx') as [_ Hxhi].
    destruct (ilog2_spec y Hy') as [Hylo _].
    rewrite (ulp_exponent_pos x Hx'), (ulp_exponent_pos y Hy').
    set (kx := Z.max (ilog2 x - 52) (-1074)).
    set (ky := Z.max (ilog2 y - 52) (-1074)).
    destruct (Z.eq_dec kx ky) as [E | NE].
    + rewrite E. apply round_to_mono; [apply exp2_pos | exact Hxy].
    + assert (Hk : (kx < ky)%Z) by (unfold kx, ky in *; lia).
      set (p := Z.max (ilog2 x + 1) kx).
      apply Qle_trans with (exp2 p).
      * rewrite <- (round_to_on_grid (exp2 kx) (2 ^ (p - kx)) (exp2 p)).
        -- apply round_to_mono; [apply exp2_pos|].
           apply Qlt_le_weak. eapply Qlt_le_trans; [exact Hxhi|].
           apply exp2_le. unfold p. lia.
        -- apply exp2_pos.
        -- apply exp2_on_grid. unfold p. lia.
      * apply Qle_trans with (exp2 (ilog2 y)).
        -- apply exp2_le. unfold p, kx, ky in *. lia.
        -- rewrite <- (round_to_on_grid (exp2 ky) (2 ^ (ilog2 y - ky)) (exp2 (ilog2 y))).
           ++ apply round_to_mono; [apply exp2_pos | exact Hylo].
           ++ apply exp2_pos.
           ++ apply exp2_on_grid. unfold kx, ky in *. lia.
Qed.

(** An integer below [2^53] is a double. *)
Lemma round64_integer z : (0 <= z < 2 ^ 53)%Z -> round64 (inject_Z z) == inject_Z z.
Proof.
  intros [Hz0 Hz].
  destruct (Z.eq_dec z 0) as [-> | Hnz]; [reflexivity|].
  assert (Hpos : 0 < inject_Z z) by (change (inject_Z 0 < inject_Z z); rewrite <- Zlt_Qlt; lia).
  rewrite (round64_pos _ Hpos), (ulp_exponent_pos _ Hpos).
  destruct (ilog2_spec _ Hpos) as [Hlo _].
  assert (Hlog : (ilog2 (inject_Z z) < 53)%Z).
  { apply exp2_lt_inv. eapply Qle_lt_trans; [exact Hlo|].
    rewrite (exp2_Z 53) by lia. rewrite <- Zlt_Qlt. exact Hz. }
  set (k := Z.max (ilog2 (inject_Z z) - 52) (-1074)).
  assert (Hk : (k <= 0)%Z) by (unfold k; lia).
  apply (round_to_on_grid (exp2 k) (z * 2 ^ (- k))); [apply exp2_pos|].
  rewrite inject_Z_mult, <- Qmult_assoc.
  rewrite <- (exp2_Z (- k)) by lia.
  rewrite <- exp2_add. replace (- k + k)%Z with 0%Z by ring.
  change (exp2 0) with 1. ring.
Qed.

(** A number between two integers below [2^53] rounds between them. *)
Lemma round64_between lo hi q :
  (0 <= lo)%Z -> (hi < 2 ^ 53)%Z ->
  inject_Z lo <= q -> q <= inject_Z hi ->
  inject_Z lo <= round64 q /\ round64 q <= inject_Z hi.
Proof.
  intros Hlo Hhi H1 H2.
  assert (Hq : 0 <= q).
  { eapply Qle_trans; [|exact H1]. change (inject_Z 0 <= inject_Z lo). rewrite <- Zle_Qle. exact Hlo. }
  assert (Hle : (lo <= hi)%Z) by (rewrite Zle_Qle; eapply Qle_trans; eauto).
  split.
  - rewrite <- (round64_integer lo) by lia.
    apply round64_mono; [|exact H1]. change (inject_Z 0 <= inject_Z lo). rewrite <- Zle_Qle. exact Hlo.
  - rewrite <- (round64_integer hi) by lia.
    apply round64_mono; assumption.
Qed.

Lemma round64_proper x y : 0 <= x -> x == y -> round64 x == round64 y.
Proof.
  intros Hx E.
  assert (Hy : 0 <= y) by (rewrite <- E; exact Hx).
  apply Qle_antisym; apply round64_mono; try assumption; rewrite E; apply Qle_refl.
Qed.

(** An integer below [2^53] times a power of two is a double, overflow
    aside. *)
Lemma round64_scaled z a :
  (0 <= z < 2 ^ 53)%Z -> (0 <= a)%Z ->
  round64 (inject_Z z * exp2 a) == inject_Z z * exp2 a.
Proof.
  intros [Hz0 Hz] Ha.
  destruct (Z.eq_dec z 0) as [-> | Hnz].
  - rewrite round64_zero; ring.
  - assert (Hzq : 0 < inject_Z z)
      by (change (inject_Z 0 < inject_Z z); rewrite <- Zlt_Qlt; lia).
    assert (Hpos : 0 < inject_Z z * exp2 a)
      by (apply Qmult_lt_0_compat; [exact Hzq | apply exp2_pos]).
    rewrite (round64_pos _ Hpos), (ulp_exponent_pos _ Hpos).
    destruct (ilog2_spec _ Hpos) as [Hlo _].
    assert (Hlog : (ilog2 (inject_Z z * exp2 a) < 53 + a)%Z).
    { apply exp2_lt_inv. eapply Qle_lt_trans; [exact Hlo|].
      rewrite exp2_add. apply Qmult_lt_compat_r; [apply exp2_pos|].
      rewrite (exp2_Z 53) by lia. rewrite <- Zlt_Qlt. exact Hz. }
    set (k := Z.max (ilog2 (inject_Z z * exp2 a) - 52) (-1074)).
    assert (Hk : (k <= a)%Z) by (unfold k; lia).
    apply (round_to_on_grid (exp2 k) (z * 2 ^ (a - k))); [apply exp2_pos|].
    rewrite inject_Z_mult, <- Qmult_assoc.
    rewrite <- (exp2_Z (a - k)) by lia.
    rewrite exp2_sub. reflexivity.
Qed.

(** Below the half-way point the integer below is the nearest. *)
Lemma round_half_even_floor z q :
  inject_Z z <= q -> q < inject_Z z + (1 # 2) -> round_half_even q = z.
Proof.
  intros H1 H2.
  assert (Hf : Qfloor q = z).
  { pose proof (Qfloor_le q) as Hq1. pose proof (Qlt_floor q) as Hq2.
    assert (Qfloor q < z + 1)%Z.
    { rewrite Zlt_Qlt. eapply Qle_lt_trans; [exact Hq1|].
      rewrite inject_Z_plus. eapply Qlt_le_trans; [exact H2|].
      apply Qplus_le_r. discriminate. }
    assert (z < Qfloor q + 1)%Z.
    { rewrite Zlt_Qlt. eapply Qle_lt_trans; [exact H1 | exact Hq2]. }
    lia. }
  unfold round_half_even. rewrite Hf.
  destruct (Qcompare_spec (q - inject_Z z) (1 # 2)) as [H|H|H];
    [exfalso; lra | reflexivity | exfalso; lra].
Qed.

(** The product of an integer [b] below [2^53] and a double below one
    rounds to a double below [b]. *)
Lemma round64_below_integer (b : Z) (r : Q) :
  (0 < b < 2 ^ 53)%Z -> 0 <= r -> r <= 1 - exp2 (-53) ->
  round64 (r * inject_Z b) < inject_Z b.
Proof.
  intros [Hb0 Hb] Hr0 Hr1.
  set (c := exp2 (-53)) in *.
  assert (Hc0 : 0 < c) by apply exp2_pos.
  assert (Hc : inject_Z (2 ^ 53) * c == 1).
  { unfold c. rewrite <- (exp2_Z 53) by lia. rewrite <- exp2_add. reflexivity. }
  assert (Hchalf : c <= 1 # 2) by (apply (exp2_le (-53) (-1)); lia).
  assert (Hbq0 : 1 <= inject_Z b)
    by (change 1 with (inject_Z 1); rewrite <- Zle_Qle; lia).
  set (bc := inject_Z b * c).
  assert (Hbc1 : bc < 1).
  { rewrite <- Hc. unfold bc. apply Qmult_lt_compat_r; [exact Hc0|].
    rewrite <- Zlt_Qlt. exact Hb. }
  assert (Hbc0 : 0 < bc) by (unfold bc; apply Qmult_lt_0_compat; lra).
  assert (Hbchalf : bc <= inject_Z b * (1 # 2)).
  { unfold bc. apply Qmult_le_l; [lra | exact Hchalf]. }
  set (t := inject_Z b * (1 - c)).
  assert (Ht : t == inject_Z b - bc) by (unfold t, bc; ring).
  assert (Hrt : r * inject_Z b <= t).
  { unfold t. rewrite (Qmult_comm (inject_Z b)).
    apply Qmult_le_compat_r; [exact Hr1 | lra]. }
  apply Qle_lt_trans with (round64 t).
  { apply round64_mono; [apply Qmult_le_0_compat; lra | exact Hrt]. }
  assert (Hpos : 0 < t) by lra.
  rewrite (round64_pos t Hpos), (ulp_exponent_pos t Hpos).
  destruct (ilog2_spec t Hpos) as [Hlo Hhi].
  set (e := ilog2 t) in *.
  assert (He1 : (-1 <= e)%Z).
  { assert (H : (-1 < e + 1)%Z); [|lia].
    apply exp2_lt_inv. eapply Qle_lt_trans; [|exact Hhi].
    change (exp2 (-1)) with (1 # 2). lra. }
  assert (He2 : (e < 53)%Z).
  { apply exp2_lt_inv. eapply Qle_lt_trans; [exact Hlo|].
    rewrite (exp2_Z 53) by lia.
    apply Qlt_trans with (inject_Z b); [lra | rewrite <- Zlt_Qlt; exact Hb]. }
  replace (Z.max (e - 52) (-1074)) with (e - 52)%Z by lia.
  assert (Hup : inject_Z b <= exp2 (e + 1)).
  { rewrite (exp2_Z (e + 1)) by lia.
    destruct (Z_le_gt_dec b (2 ^ (e + 1))) as [Hle | Hgt].
    - rewrite <- Zle_Qle. exact Hle.
    - exfalso. rewrite (exp2_Z (e + 1)) in Hhi by lia.
      assert (H : inject_Z (2 ^ (e + 1) + 1) <= inject_Z b)
        by (rewrite <- Zle_Qle; lia).
      rewrite inject_Z_plus in H. change (inject_Z 1) with 1 in H. lra. }
  set (u := exp2 (e - 52)).
  assert (Hu0 : 0 < u) by apply exp2_pos.
  set (pc := exp2 e * c).
  assert (Hu : u == 2 * pc).
  { unfold u, pc, c. change 2 with (exp2 1).
    rewrite <- !exp2_add. replace (1 + (e + -53))%Z with (e - 52)%Z by ring.
    reflexivity. }
  assert (Hpc1 : pc < bc).
  { unfold pc, bc. apply Qmult_lt_compat_r; [exact Hc0 | lra]. }
  assert (Hpc2 : bc <= 2 * pc).
  { unfold pc, bc. rewrite Qmult_assoc. apply Qmult_le_compat_r; [|lra].
    change 2 with (exp2 1). rewrite <- exp2_add.
    replace (1 + e)%Z with (e + 1)%Z by ring. exact Hup. }
  set (B := (b * 2 ^ (52 - e))%Z).
  assert (HB : inject_Z b == inject_Z B * u).
  { unfold B, u. rewrite inject_Z_mult, <- Qmult_assoc.
    rewrite <- (exp2_Z (52 - e)) by lia.
    rewrite <- exp2_add. replace (52 - e + (e - 52))%Z with 0%Z by ring.
    change (exp2 0) with 1. ring. }
  assert (HB1 : inject_Z (B - 1) * u == inject_Z b - u).
  { unfold Z.sub. rewrite inject_Z_plus, inject_Z_opp, HB.
    change (inject_Z 1) with 1. ring. }
  assert (Hround : round_half_even (t / u) = (B - 1)%Z).
  { apply round_half_even_floor.
    - apply Qle_shift_div_l; [exact Hu0|]. rewrite HB1. lra.
    - apply Qlt_shift_div_r; [exact Hu0|].
      rewrite Qmult_plus_distr_l, HB1. lra. }
  unfold round_to. fold u. rewrite Hround, HB1. lra.
Qed.

End Rounding.

(** *** Arithmetic on doubles *)

Section Doubles.

Local Open Scope Q_scope.

Lemma to_double_cases q :
  0 <= q ->
  (to_double q = Ms (round64 q) /\ round64 q < exp2 1024)
  \/ (to_double q = Infinite false /\ exp2 1024 <= round64 q).
Proof.
  intros Hq. unfold to_double. cbv zeta.
  assert (Hneg : is_negative q = false).
  { unfold is_negative. apply Qle_bool_iff in Hq. rewrite Hq. reflexivity. }
  assert (Habs : Qabs (round64 q) == round64 q)
    by (apply Qabs_pos, round64_nonneg, Hq).
  destruct (Qle_bool (exp2 1024) (Qabs (round64 q))) eqn:E.
  - right. rewrite Hneg. split; [reflexivity|].
    apply Qle_bool_iff in E. rewrite <- Habs. exact E.
  - left. split; [reflexivity|]. apply Qnot_le_lt. intro H.
    rewrite <- Habs in H. apply Qle_bool_iff in H. congruence.
Qed.

Lemma exp2_1024_large z : (z < 2 ^ 53)%Z -> inject_Z z < exp2 1024.
Proof.
  intros Hz. apply Qlt_trans with (exp2 53); [| apply exp2_lt; lia].
  rewrite (exp2_Z 53) by lia. rewrite <- Zlt_Qlt. exact Hz.
Qed.

(** What rounds to no more than an integer below [2^53] does not
    overflow. *)
Lemma to_double_small q hi :
  0 <= q -> q <= inject_Z hi -> (hi < 2 ^ 53)%Z ->
  to_double q = Ms (round64 q) /\ 0 <= round64 q /\ round64 q <= inject_Z hi.
Proof.
  intros Hq Hhi Hrange.
  assert (H0 : (0 <= hi)%Z).
  { rewrite Zle_Qle. eapply Qle_trans; [exact Hq | exact Hhi]. }
  assert (Hle : round64 q <= inject_Z hi).
  { rewrite <- (round64_integer hi) by lia. apply round64_mono; assumption. }
  split; [| split; [apply round64_nonneg; exact Hq | exact Hle]].
  destruct (to_double_cases q Hq) as [[E _] | [_ Hover]]; [exact E|].
  exfalso. pose proof (exp2_1024_large hi Hrange). lra.
Qed.

Lemma to_double_integer z :
  (0 <= z < 2 ^ 53)%Z -> exists q, to_double (inject_Z z) = Ms q /\ q == inject_Z z.
Proof.
  intros Hz.
  assert (Hq : 0 <= inject_Z z)
    by (change (inject_Z 0 <= inject_Z z); rewrite <- Zle_Qle; lia).
  destruct (to_double_small (inject_Z z) z Hq (Qle_refl _)) as (E & _); [lia|].
  exists (round64 (inject_Z z)). split; [exact E | apply round64_integer; exact Hz].
Qed.

Lemma Qmin_eq x x' y y' : x == x' -> y == y' -> Qmin x y == Qmin x' y'.
Proof. intros Hx Hy. rewrite Hx, Hy. reflexivity. Qed.

(** The value [calculateDelay] returns for integer delay settings below
    [2^53]: the double next to [baseDelay * 2^attempt + jitter], capped by
    [maxDelay], with [jitter] the double next to [random * baseDelay]. *)
Lemma calculateDelay_value (cfg : ThrottleConfig) (a : nat) (r : Q) (b m : Z) :
  baseDelay cfg = Num b -> maxDelay cfg = Num m ->
  (0 < b < 2 ^ 53)%Z -> (0 <= m < 2 ^ 53)%Z ->
  0 <= r -> r <= 1 ->
  exists jitter d,
    delay_mul (Ms r) (to_number (baseDelay cfg)) = Ms jitter
    /\ jitter == round64 (r * inject_Z b)
    /\ 0 <= jitter /\ jitter <= inject_Z b
    /\ calculateDelay cfg a r = Ms d
    /\ d == Qmin (round64 (inject_Z b * exp2 (Z.of_nat a) + jitter)) (inject_Z m).
Proof.
  intros Hb Hm Hbr Hmr Hr0 Hr1.
  unfold calculateDelay. rewrite Hb, Hm. unfold to_number.
  destruct (to_double_integer b) as (b' & Hb' & Eb); [lia|]. rewrite Hb'.
  destruct (to_double_integer m) as (m' & Hm' & Em); [lia|]. rewrite Hm'.
  assert (Hbq : 0 < inject_Z b)
    by (change (inject_Z 0 < inject_Z b); rewrite <- Zlt_Qlt; lia).
  assert (Hmq : 0 <= inject_Z m)
    by (change (inject_Z 0 <= inject_Z m); rewrite <- Zle_Qle; lia).
  assert (Hb'0 : 0 < b') by (rewrite Eb; exact Hbq).
  (* the jitter *)
  change (delay_mul (Ms r) (Ms b')) with (to_double (r * b')).
  assert (Hj0 : 0 <= r * b') by (apply Qmult_le_0_compat; lra).
  assert (Hj1 : r * b' <= inject_Z b).
  { rewrite <- Eb. rewrite <- (Qmult_1_l b') at 2.
    apply Qmult_le_compat_r; lra. }
  destruct (to_double_small (r * b') b Hj0 Hj1) as (Ej & Hjlo & Hjhi); [lia|].
  rewrite Ej. set (j := round64 (r * b')) in *.
  assert (Hjeq : j == round64 (r * inject_Z b)).
  { unfold j. apply round64_proper; [exact Hj0 | rewrite Eb; reflexivity]. }
  set (E := inject_Z b * exp2 (Z.of_nat a)).
  assert (HE0 : 0 < E) by (apply Qmult_lt_0_compat; [exact Hbq | apply exp2_pos]).
  assert (HEr : round64 E == E) by (apply round64_scaled; lia).
  (* once the sum is beyond [maxDelay], the result is [maxDelay] *)
  assert (Hcap : inject_Z m <= round64 (E + j) ->
                 m' == Qmin (round64 (E + j)) (inject_Z m)).
  { intros Hle. rewrite Q.min_r by exact Hle. exact Em. }
  assert (Hbig : exp2 1024 <= E -> inject_Z m <= round64 (E + j)).
  { intros Hover. apply Qle_trans with (round64 E).
    - rewrite HEr. pose proof (exp2_1024_large m (proj2 Hmr)). lra.
    - apply round64_mono; lra. }
  exists j.
  enough (Hd : exists d,
             delay_min (delay_add (delay_mul (Ms b') (pow2 a)) (Ms j)) (Ms m') = Ms d
             /\ d == Qmin (round64 (E + j)) (inject_Z m)).
  { destruct Hd as (d & Hd1 & Hd2). exists d. auto 10. }
  unfold pow2. destruct (a <=? 1023)%nat eqn:Ha.
  - change (delay_mul (Ms b') (Ms (exp2 (Z.of_nat a))))
      with (to_double (b' * exp2 (Z.of_nat a))).
    assert (HE' : b' * exp2 (Z.of_nat a) == E) by (unfold E; rewrite Eb; reflexivity).
    assert (HE'0 : 0 <= b' * exp2 (Z.of_nat a)) by (rewrite HE'; lra).
    assert (HE'r : round64 (b' * exp2 (Z.of_nat a)) == E).
    { rewrite (round64_proper _ E HE'0 HE'). exact HEr. }
    destruct (to_double_cases _ HE'0) as [[-> Hfin] | [-> Hover]].
    + set (E' := round64 (b' * exp2 (Z.of_nat a))) in *.
      change (delay_add (Ms E') (Ms j)) with (to_double (E' + j)).
      assert (Hsum0 : 0 <= E' + j) by lra.
      assert (Hsum : round64 (E' + j) == round64 (E + j)).
      { apply round64_proper; [exact Hsum0 | rewrite HE'r; reflexivity]. }
      destruct (to_double_cases _ Hsum0) as [[-> _] | [-> Hover]].
      * exists (Qmin (round64 (E' + j)) m'). split; [reflexivity|].
        apply Qmin_eq; assumption.
      * exists m'. split; [reflexivity|]. apply Hcap.
        rewrite <- Hsum. pose proof (exp2_1024_large m (proj2 Hmr)). lra.
    + exists m'. split; [reflexivity|]. apply Hcap, Hbig. lra.
  - assert (Hz : is_zero b' = false).
    { unfold is_zero. destruct (Qeq_bool b' 0) eqn:Hq; [|reflexivity].
      apply Qeq_bool_iff in Hq. lra. }
    assert (Hn : is_negative b' = false).
    { unfold is_negative. assert (H : 0 <= b') by lra.
      apply Qle_bool_iff in H. rewrite H. reflexivity. }
    change (delay_mul (Ms b') (Infinite false))
      with (if is_zero b' then NaN else Infinite (xorb (is_negative b') false)).
    rewrite Hz, Hn.
    exists m'. split; [reflexivity|]. apply Hcap, Hbig.
    apply Nat.leb_gt in Ha.
    apply Qle_trans with (exp2 (Z.of_nat a)); [apply exp2_le; lia|].
    unfold E. rewrite <- (Qmult_1_l (exp2 (Z.of_nat a))) at 1.
    apply Qmult_le_compat_r; [| apply Qlt_le_weak, exp2_pos].
    change 1 with (inject_Z 1). rewrite <- Zle_Qle. lia.
Qed.

End Doubles.

(** *** Agreement with binary64

    The operations of the embedding against those of the kernel's
    floating-point numbers, on products and sums that are not doubles,
    in the subnormal range, at a tie and at the overflow threshold. *)

Example delay_mul_agrees :
  same_number
    (delay_mul (of_binary64 0x1.ccccccccccccdp-1) (of_binary64 3))
    (of_binary64 (0x1.ccccccccccccdp-1 * 3)) = true
  /\ same_number
       (delay_mul (of_binary64 0x1.fffffffffffffp-1) (of_binary64 100))
       (of_binary64 (0x1.fffffffffffffp-1 * 100)) = true
  /\ same_number
       (delay_mul (of_binary64 0x1p-1074) (of_binary64 0x1.8p-1))
       (of_binary64 (0x1p-1074 * 0x1.8p-1)) = true
  /\ same_number
       (delay_mul (of_binary64 0x1p-1074) (of_binary64 0x1p-1))
       (of_binary64 (0x1p-1074 * 0x1p-1)) = true
  /\ same_number
       (delay_mul (of_binary64 0x1.8p-1060) (of_binary64 0x1.0000001p-10))
       (of_binary64 (0x1.8p-1060 * 0x1.0000001p-10)) = true
  /\ same_number
       (delay_mul (of_binary64 0x1p1000) (of_binary64 0x1p24))
       (of_binary64 (0x1p1000 * 0x1p24)) = true
  /\ same_number
       (delay_mul (of_binary64 (-0x1.6666666666666p-1)) (of_binary64 0x1.3333333333333p-2))
       (of_binary64 (-0x1.6666666666666p-1 * 0x1.3333333333333p-2)) = true
  /\ same_number
       (delay_mul (of_binary64 (-0x1p-3)) (of_binary64 infinity))
       (of_binary64 (-0x1p-3 * infinity)) = true
  /\ same_number
       (delay_mul (of_binary64 0) (of_binary64 infinity))
       (of_binary64 (0 * infinity)) = true.
Proof. vm_compute. repeat split. Qed.

Example delay_add_agrees :
  same_number
    (delay_add (of_binary64 3200) (of_binary64 0x1.8ffffffffffffp6))
    (of_binary64 (3200 + 0x1.8ffffffffffffp6)) = true
  /\ same_number
       (delay_add (of_binary64 27021597764222976) (of_binary64 0x1.599999999999ap1))
       (of_binary64 (27021597764222976 + 0x1.599999999999ap1)) = true
  /\ same_number
       (delay_add (of_binary64 0x1.999999999999ap-4) (of_binary64 0x1.999999999999ap-3))
       (of_binary64 (0x1.999999999999ap-4 + 0x1.999999999999ap-3)) = true
  /\ same_number
       (delay_add (of_binary64 0x1.fffffffffffffp1023) (of_binary64 0x1p970))
       (of_binary64 (0x1.fffffffffffffp1023 + 0x1p970)) = true
  /\ same_number
       (delay_add (of_binary64 0x1.fffffffffffffp1023) (of_binary64 0x1p969))
       (of_binary64 (0x1.fffffffffffffp1023 + 0x1p969)) = true
  /\ same_number
       (delay_add (of_binary64 9007199254740992) (of_binary64 1))
       (of_binary64 (9007199254740992 + 1)) = true
  /\ same_number
       (delay_add (of_binary64 9007199254740994) (of_binary64 1))
       (of_binary64 (9007199254740994 + 1)) = true
  /\ same_number
       (delay_add (of_binary64 infinity) (of_binary64 neg_infinity))
       (of_binary64 (infinity + neg_infinity)) = true.
Proof. vm_compute. repeat split. Qed.

(** [calculateDelay] against the same computation on binary64 values, for
    the defaults and for settings beyond [2^53]. *)
Example calculateDelay_agrees :
  same_number
    (calculateDelay DEFAULT_CONFIG 5 (9007199254740991 # 9007199254740992))
    (of_binary64 (3200 + 0x1.fffffffffffffp-1 * 100)) = true
  /\ same_number
       (calculateDelay (mkConfig (Num 100) (Num 3) (Num 3) (Num (10 ^ 17))) 53
          (8106479329266893 # 9007199254740992))
       (of_binary64 (3 * 0x1p53 + 0x1.ccccccccccccdp-1 * 3)) = true
  /\ same_number
       (calculateDelay (mkConfig (Num 100) (Num 3) (Num 7) (Num (10 ^ 17))) 51
          (6004799503160661 # 18014398509481984))
       (of_binary64 (7 * 0x1p51 + 0x1.5555555555555p-2 * 7)) = true.
Proof. vm_compute. repeat split. Qed.

(** *** The computed delay *)

(** The range of the computed delay for integer delay settings with
    [0 < baseDelay <= maxDelay < 2^53]. *)
Lemma calculateDelay_range (cfg : ThrottleConfig) (a : nat) (r : Q) (b m : Z) :
  baseDelay cfg = Num b ->
  maxDelay cfg = Num m ->
  (0 < b <= m)%Z -> (m < 2 ^ 53)%Z ->
  (0 <= r)%Q -> (r <= 1)%Q ->
  let exponential := inject_Z (b * 2 ^ Z.of_nat a) in
  exists jitter d : Q,
    delay_mul (Ms r) (to_number (baseDelay cfg)) = Ms jitter
    /\ (jitter == round64 (r * inject_Z b))%Q
    /\ (0 <= jitter)%Q /\ (jitter <= inject_Z b)%Q
    /\ calculateDelay cfg a r = Ms d
    /\ (d == Qmin (round64 (exponential + jitter)) (inject_Z m))%Q
    /\ (Qmin exponential (inject_Z m) <= d)%Q
    /\ (d <= Qmin (exponential + inject_Z b) (inject_Z m))%Q
    /\ (d <= inject_Z m)%Q.
Proof.
  intros Hb Hm [Hb0 Hbm] Hm53 Hr0 Hr1 exponential.
  destruct (calculateDelay_value cfg a r b m Hb Hm) as (j & d & Hj & Ej & Hj0 & Hj1 & Hd & Ed);
    try lia; try assumption.
  assert (HE : (exponential == inject_Z b * exp2 (Z.of_nat a))%Q).
  { unfold exponential. rewrite inject_Z_mult, exp2_Z by lia. reflexivity. }
  assert (Hd' : (d == Qmin (round64 (exponential + j)) (inject_Z m))%Q).
  { rewrite Ed. apply Qmin_eq; [| reflexivity].
    assert (Hbq : (0 <= inject_Z b)%Q)
      by (change (inject_Z 0 <= inject_Z b)%Q; rewrite <- Zle_Qle; lia).
    apply round64_proper.
    - pose proof (exp2_pos (Z.of_nat a)).
      assert (0 <= inject_Z b * exp2 (Z.of_nat a))%Q
        by (apply Qmult_le_0_compat; lra).
      lra.
    - rewrite HE. reflexivity. }
  assert (Hpow : (0 < 2 ^ Z.of_nat a)%Z) by (apply Z.pow_pos_nonneg; lia).
  assert (HE0 : (0 <= exponential)%Q).
  { unfold exponential. change (inject_Z 0 <= inject_Z (b * 2 ^ Z.of_nat a))%Q.
    rewrite <- Zle_Qle. nia. }
  assert (Hlow : (exponential <= round64 (exponential + j))%Q).
  { assert (Hfix : (round64 exponential == exponential)%Q).
    { rewrite (round64_proper _ _ HE0 HE), HE. apply round64_scaled; lia. }
    rewrite <- Hfix at 1. apply round64_mono; lra. }
  assert (HU : (exponential + inject_Z b == inject_Z (b * 2 ^ Z.of_nat a + b))%Q).
  { unfold exponential. rewrite inject_Z_plus. reflexivity. }
  exists j, d.
  split; [exact Hj |]. split; [exact Ej |]. split; [exact Hj0 |].
  split; [exact Hj1 |]. split; [exact Hd |]. split; [exact Hd' |].
  split; [| split].
  - rewrite Hd'. apply Q.min_le_compat_r. exact Hlow.
  - rewrite Hd'.
    destruct (Z_le_gt_dec (b * 2 ^ Z.of_nat a + b) m) as [Hfit | Hcap].
    + apply Q.min_le_compat_r. rewrite HU.
      rewrite <- (round64_integer (b * 2 ^ Z.of_nat a + b)) by nia.
      apply round64_mono; [lra | rewrite <- HU; lra].
    + rewrite (Q.min_r (exponential + inject_Z b)).
      * apply Q.le_min_r.
      * rewrite HU, <- Zle_Qle. lia.
  - rewrite Hd'. apply Q.le_min_r.
Qed.


Example calculateDelay_default_first :
  same_number (calculateDelay DEFAULT_CONFIG 0 (1 # 2)) (Ms (inject_Z 150)) = true.
Proof. vm_compute. reflexivity. Qed.

(** With the largest double below one as jitter draw the sum rounds up to
    [baseDelay * 2^attempt + baseDelay]. *)
Example calculateDelay_rounds_up :
  same_number
    (calculateDelay DEFAULT_CONFIG 5 (9007199254740991 # 9007199254740992))
    (Ms (inject_Z 3300)) = true.
Proof. vm_compute. reflexivity. Qed.

(** [0 * Infinity] *)
Example calculateDelay_zero_base_overflow :
  calculateDelay (mkConfig (Num 100) (Num 3) (Num 0) (Num 5000)) 1024 (1 # 2) = NaN.
Proof. vm_compute. reflexivity. Qed.

Example calculateDelay_undefined_setting :
  calculateDelay (mkConfig (Num 100) (Num 3) Undef (Num 5000)) 0 (1 # 2) = NaN.
Proof. reflexivity. Qed.

(** [baseDelay = 3], [maxDelay = 10^17], attempt 53 and the double nearest
    to [0.9] as jitter draw: the sum [3 * 2^53 + 2.7] is not a double and
    rounds to [3 * 2^53 + 4]. *)
Example calculateDelay_large_settings :
  same_number
    (calculateDelay (mkConfig (Num 100) (Num 3) (Num 3) (Num (10 ^ 17))) 53
       (8106479329266893 # 9007199254740992))
    (Ms (inject_Z 27021597764222980)) = true.
Proof. vm_compute. reflexivity. Qed.

(** C5, as stated, fails in double arithmetic for large settings: with
    [0 < baseDelay <= maxDelay] and a jitter draw in [0, 1), the delay
    computed for attempt 53 exceeds [baseDelay * 2^53 + baseDelay], which
    is below [maxDelay]. *)
Lemma calculateDelay_exceeds_bounds :
  let cfg := mkConfig (Num 100) (Num 3) (Num 3) (Num (10 ^ 17)) in
  let r := (8106479329266893 # 9007199254740992)%Q in
  baseDelay cfg = Num 3 /\ maxDelay cfg = Num (10 ^ 17)
  /\ (0 < 3 <= 10 ^ 17)%Z /\ (0 <= r)%Q /\ (r < 1)%Q
  /\ exists d,
       calculateDelay cfg 53 r = Ms d
       /\ ~ (d <= Qmin (inject_Z (3 * 2 ^ Z.of_nat 53) + inject_Z 3) (inject_Z (10 ^ 17)))%Q.
Proof.
  cbv zeta. split; [reflexivity |]. split; [reflexivity |].
  split; [split; [reflexivity | discriminate] |].
  split; [discriminate |]. split; [reflexivity |].
  exists (inject_Z 27021597764222980). split.
  - vm_compute. reflexivity.
  - vm_compute. intro H. apply H. reflexivity.
Qed.

(** C5.  For integer delay settings with [0 < baseDelay <= maxDelay < 2^53]
    and [Math.random()] a double in [0, 1), hence at most [1 - 2^-53], the
    delay computed for attempt [a] is, in double arithmetic,
    [min(baseDelay * 2^a + jitter, maxDelay)] with
    [jitter = random * baseDelay]: the jitter is the double nearest to the
    product and lies in [0, baseDelay); the delay is the double nearest to
    the sum, capped by [maxDelay], and lies between [baseDelay * 2^a] and
    [baseDelay * 2^a + baseDelay], both clamped to [maxDelay]. *)
Theorem calculateDelay_bounds (cfg : ThrottleConfig) (a : nat) (r : Q) (b m : Z) :
  baseDelay cfg = Num b ->
  maxDelay cfg = Num m ->
  (0 < b <= m)%Z -> (m < 2 ^ 53)%Z ->
  (0 <= r)%Q -> (r <= 1 - exp2 (-53))%Q ->
  let exponential := inject_Z (b * 2 ^ Z.of_nat a) in
  exists jitter d : Q,
    delay_mul (Ms r) (to_number (baseDelay cfg)) = Ms jitter
    /\ (jitter == round64 (r * inject_Z b))%Q
    /\ (0 <= jitter)%Q /\ (jitter < inject_Z b)%Q
    /\ calculateDelay cfg a r = Ms d
    /\ (d == Qmin (round64 (exponential + jitter)) (inject_Z m))%Q
    /\ (Qmin exponential (inject_Z m) <= d)%Q
    /\ (d <= Qmin (exponential + inject_Z b) (inject_Z m))%Q
    /\ (d <= inject_Z m)%Q.
Proof.
  intros Hb Hm Hbm Hm53 Hr0 Hr1 exponential.
  assert (Hc : (0 < exp2 (-53))%Q) by apply exp2_pos.
  assert (Hr1' : (r <= 1)%Q) by lra.
  destruct (calculateDelay_range cfg a r b m Hb Hm Hbm Hm53 Hr0 Hr1')
    as (j & d & Hj & Ej & Hj0 & _ & Hd & Hrest).
  exists j, d.
  split; [exact Hj |]. split; [exact Ej |]. split; [exact Hj0 |].
  split; [| split; [exact Hd | exact Hrest]].
  rewrite Ej. apply round64_below_integer; [lia | assumption | assumption].
Qed.

Lemma calculateDelay_bounds_witness :
  exists jitter d : Q,
    delay_mul (Ms (1 # 2)) (to_number (baseDelay DEFAULT_CONFIG)) = Ms jitter
    /\ (jitter == round64 ((1 # 2) * inject_Z 100))%Q
    /\ (0 <= jitter)%Q /\ (jitter < inject_Z 100)%Q
    /\ calculateDelay DEFAULT_CONFIG 2 (1 # 2) = Ms d
    /\ (d == Qmin (round64 (inject_Z (100 * 2 ^ Z.of_nat 2) + jitter)) (inject_Z 5000))%Q
    /\ (Qmin (inject_Z (100 * 2 ^ Z.of_nat 2)) (inject_Z 5000) <= d)%Q
    /\ (d <= Qmin (inject_Z (100 * 2 ^ Z.of_nat 2) + inject_Z 100) (inject_Z 5000))%Q
    /\ (d <= inject_Z 5000)%Q.
Proof.
  apply (calculateDelay_bounds DEFAULT_CONFIG 2 (1 # 2) 100 5000 eq_refl eq_refl).
  - lia.
  - reflexivity.
  - discriminate.
  - vm_compute. discriminate.
Defined.
(** ** Error classification *)

Lemma isFileDescriptorError_spec (error : Js.Value) :
  isFileDescriptorError error = true <-> descriptor_exhaustion error.
Proof.
  unfold isFileDescriptorError, descriptor_exhaustion.
  destruct error as [| | b | n | str | fprops | props]; simpl.
  1-2: split; [discriminate | intros (q & Hq & _); discriminate].
  1-3: rewrite ?andb_false_r; simpl;
       split; [discriminate | intros (q & Hq & _); discriminate].
  - split; [discriminate | intros (q & Hq & _); discriminate].
  - unfold Js.has_property, Js.get; simpl.
    destruct (Js.lookup "code" props) as [v|] eqn:Hl; simpl.
    + split.
      * intro H. exists props. split; [reflexivity |].
        destruct v; simpl in H; try discriminate.
        rewrite orb_false_r in H. apply orb_prop in H.
        destruct H as [H | H]; apply String.eqb_eq in H; subst; auto.
      * intros (q & Hq & Hc). injection Hq as <-. rewrite Hl in Hc.
        destruct Hc as [Hc | Hc]; injection Hc as ->; reflexivity.
    + split; [discriminate |].
      intros (q & Hq & Hc). injection Hq as <-. rewrite Hl in Hc.
      destruct Hc; discriminate.
Qed.

Lemma lt_num_spec (a : nat) (m : JsNumber) :
  lt_num a m = true <-> exists n, m = Num n /\ (Z.of_nat a < n)%Z.
Proof.
  destruct m as [|n]; simpl.
  - split; [discriminate | intros (n & Hn & _); discriminate].
  - rewrite Z.ltb_lt. split.
    + intro H. now exists n.
    + intros (k & Hk & Hlt). now injection Hk as ->.
Qed.

Lemma lt_num_le_num_succ (a : nat) (m : JsNumber) :
  lt_num a m = true -> le_num (S a) m = true.
Proof.
  destruct m as [|n]; simpl; [discriminate |].
  rewrite Z.ltb_lt, Z.leb_le. lia.
Qed.

(** ** Lists of events *)

Lemma count_app (p : Event -> bool) (l1 l2 : list Event) :
  count p (l1 ++ l2) = count p l1 + count p l2.
Proof. unfold count. now rewrite filter_app, length_app. Qed.

Lemma count_fs (p : Event -> bool) (calls : list FsCall) :
  (forall c, p (EvFs c) = false) -> count p (map EvFs calls) = 0.
Proof.
  intro Hp. unfold count. induction calls as [|c rest IH]; simpl; auto.
  now rewrite Hp.
Qed.

Lemma warned_attempts_app (l1 l2 : list Event) :
  warned_attempts (l1 ++ l2) = warned_attempts l1 ++ warned_attempts l2.
Proof.
  induction l1 as [|e rest IH]; simpl; auto.
  destruct e; simpl; auto. now rewrite IH.
Qed.

Lemma warned_attempts_fs (calls : list FsCall) :
  warned_attempts (map EvFs calls) = [].
Proof. induction calls; simpl; auto. Qed.

(** Where a marked element can sit in [front ++ y :: back] when [front] has
    no marked element. *)
Lemma split_after_unmarked (front : list Event) (y : Event) (back : list Event)
    (pre : list Event) (x : Event) (post : list Event) :
  Forall (fun e => is_caught e = false) front ->
  is_caught x = true ->
  pre ++ x :: post = front ++ y :: back ->
  (pre = front /\ x = y /\ post = back)
  \/ (exists mid, pre = front ++ y :: mid /\ back = mid ++ x :: post).
Proof.
  intros Hfront Hx. revert pre.
  induction front as [|f front IH]; intros pre Heq; simpl in *.
  - destruct pre as [|p pre]; simpl in Heq; inversion Heq; subst.
    + now left.
    + right. now exists pre.
  - inversion Hfront as [|? ? Hf Hrest]; subst.
    destruct pre as [|p pre]; simpl in Heq; inversion Heq; subst.
    + congruence.
    + match goal with H : pre ++ _ = _ |- _ =>
        destruct (IH Hrest pre H) as [(Hp & Hy & Hb) | (mid & Hp & Hb)]
      end; subst.
      * now left.
      * right. now exists mid.
Qed.

Lemma tried_unmarked (a : nat) (calls : list FsCall) :
  Forall (fun e => is_caught e = false) (EvAttempt a :: map EvFs calls).
Proof.
  constructor; [reflexivity |].
  induction calls; simpl; constructor; auto.
Qed.

(** ** Schedules *)

Lemma resume_cases {schedule : Schedule} {s s1 : Store} {schedule1 : Schedule} :
  resume schedule s = (s1, schedule1) ->
  (schedule = [] /\ s1 = s /\ schedule1 = [])
  \/ (exists change, schedule = change :: schedule1 /\ s1 = change s).
Proof.
  destruct schedule as [|change later]; simpl; intro H; injection H as <- <-.
  - now left.
  - right. now exists change.
Qed.

Lemma resume_settled {schedule : Schedule} {s s1 : Store} {schedule1 : Schedule} :
  resume schedule s = (s1, schedule1) -> settled schedule1 s1 = settled schedule s.
Proof.
  intro H. destruct (resume_cases H) as [(-> & -> & ->) | (change & -> & ->)];
    reflexivity.
Qed.

Lemma resume_length {schedule : Schedule} {s s1 : Store} {schedule1 : Schedule} :
  resume schedule s = (s1, schedule1) ->
  List.length schedule1 = pred (List.length schedule).
Proof.
  intro H. destruct (resume_cases H) as [(-> & -> & ->) | (change & -> & ->)];
    reflexivity.
Qed.

Lemma resume_reaches {schedule : Schedule} {s s1 : Store} {schedule1 : Schedule}
    {s' : Store} :
  resume schedule s = (s1, schedule1) -> reaches schedule1 s1 s' -> reaches schedule s s'.
Proof.
  intros H Hr. destruct (resume_cases H) as [(-> & -> & ->) | (change & -> & ->)].
  - exact Hr.
  - now apply reaches_later.
Qed.

(** While every change keeps [maxRetries], a resumed task reads the value
    it read before. *)
Lemma reaches_maxRetries {schedule : Schedule} {s s' : Store} :
  Forall keeps_maxRetries schedule ->
  reaches schedule s s' ->
  maxRetries (live s') = maxRetries (live s).
Proof.
  intros Hall Hr. induction Hr as [schedule s | change schedule s s' Hr IH].
  - reflexivity.
  - inversion Hall as [|? ? Hchange Hrest]; subst.
    rewrite (IH Hrest). apply Hchange.
Qed.

Lemma reaches_retry_settings {schedule : Schedule} {s s' : Store} :
  Forall keeps_retry_settings schedule ->
  reaches schedule s s' ->
  maxRetries (live s') = maxRetries (live s)
  /\ baseDelay (live s') = baseDelay (live s)
  /\ maxDelay (live s') = maxDelay (live s).
Proof.
  intros Hall Hr. induction Hr as [schedule s | change schedule s s' Hr IH].
  - auto.
  - inversion Hall as [|? ? Hchange Hrest]; subst.
    destruct (IH Hrest) as (-> & -> & ->). apply Hchange.
Qed.

(** Changes that keep a setting leave it unchanged from every state. *)
Lemma unchanged_of_keeps (schedule : Schedule) (s : Store) :
  Forall keeps_maxRetries schedule -> maxRetries_unchanged schedule s.
Proof. intros Hall s' Hr. exact (reaches_maxRetries Hall Hr). Qed.

Lemma settings_unchanged_of_keeps (schedule : Schedule) (s : Store) :
  Forall keeps_retry_settings schedule -> retry_settings_unchanged schedule s.
Proof. intros Hall s' Hr. exact (reaches_retry_settings Hall Hr). Qed.

Lemma settings_unchanged_maxRetries (schedule : Schedule) (s : Store) :
  retry_settings_unchanged schedule s -> maxRetries_unchanged schedule s.
Proof. intros H s' Hr. apply (H s' Hr). Qed.

Lemma resume_maxRetries {schedule : Schedule} {s s1 : Store} {schedule1 : Schedule} :
  maxRetries_unchanged schedule s ->
  resume schedule s = (s1, schedule1) ->
  maxRetries (live s1) = maxRetries (live s).
Proof.
  intros Hun H. apply Hun.
  eapply resume_reaches; [exact H | apply reaches_now].
Qed.

Lemma resume_unchanged {schedule : Schedule} {s s1 : Store} {schedule1 : Schedule} :
  maxRetries_unchanged schedule s ->
  resume schedule s = (s1, schedule1) ->
  maxRetries_unchanged schedule1 s1.
Proof.
  intros Hun H s' Hr.
  rewrite (resume_maxRetries Hun H).
  apply Hun. exact (resume_reaches H Hr).
Qed.

(** ** The retry loop *)

Section EngineFacts.

Variable World : Type.
Variable random : World -> Q * World.
Variable sleep : Delay -> World -> World.
Variable T : Type.
Variable operation : Operation World T.
Variable operationName : string.

Local Abbreviation loop := (retryLoop random sleep operation operationName).
Local Abbreviation Runs := (Attempts random sleep operation operationName).

(** The function computes runs of the relation. *)
Lemma retryLoop_sound {fuel : nat} {schedule : Schedule} {s : Store} {attempt : nat}
    {lastError : Js.Value} {w : World} {r : Run World T} :
  loop fuel schedule s attempt lastError w = Some r ->
  Runs schedule s attempt lastError w r.
Proof.
  revert schedule s attempt lastError w r.
  induction fuel as [|fuel IH]; intros schedule s attempt lastError w r H; simpl in H.
  - discriminate.
  - destruct (le_num attempt (maxRetries (live s))) eqn:Hle.
    + destruct (operation w) as [[calls result] w1] eqn:Hop.
      destruct (resume schedule s) as [s1 schedule1] eqn:Hres1.
      destruct result as [error | value].
      * destruct (isFileDescriptorError error && lt_num attempt (maxRetries (live s1)))
          eqn:Hretry.
        -- destruct (random w1) as [q w2] eqn:Hrnd.
           destruct (resume schedule1 s1) as [s2 schedule2] eqn:Hres2.
           destruct (loop fuel schedule2 s2 (S attempt) error
                       (sleep (calculateDelay (live s1) attempt q) w2))
             as [rest|] eqn:Hrest; simpl in H; [| discriminate].
           injection H as <-.
           eapply AttemptsRetried; eauto.
        -- injection H as <-. eapply AttemptsThrown; eauto.
      * injection H as <-. eapply AttemptsResolved; eauto.
    + injection H as <-. now apply AttemptsExhausted.
Qed.

(** The loop ends within one test per change still to come and one per
    index the final configuration leaves to try. *)
Lemma retryLoop_total (fuel : nat) (schedule : Schedule) (s : Store) (attempt : nat)
    (lastError : Js.Value) (w : World) :
  List.length schedule + 1 <= fuel ->
  (forall n, maxRetries (live (settled schedule s)) = Num n ->
     (Z.of_nat (List.length schedule) + (n - Z.of_nat attempt + 1) <= Z.of_nat fuel)%Z) ->
  exists r, loop fuel schedule s attempt lastError w = Some r.
Proof.
  revert schedule s attempt lastError w.
  induction fuel as [|fuel IH]; intros schedule s attempt lastError w Hpos Hfuel; [lia |].
  simpl.
  destruct (le_num attempt (maxRetries (live s))) eqn:Hle; [| eauto].
  destruct (operation w) as [[calls result] w1].
  destruct (resume schedule s) as [s1 schedule1] eqn:Hres1.
  destruct result as [error | value]; [| eauto].
  destruct (isFileDescriptorError error && lt_num attempt (maxRetries (live s1)))
    eqn:Hretry; [| eauto].
  destruct (random w1) as [q w2].
  destruct (resume schedule1 s1) as [s2 schedule2] eqn:Hres2.
  apply andb_prop in Hretry as [_ Hlt].
  apply lt_num_spec in Hlt as (n & Hn & Hlt).
  pose proof (resume_settled Hres1) as Hset1.
  pose proof (resume_settled Hres2) as Hset2.
  pose proof (resume_length Hres1) as Hlen1.
  pose proof (resume_length Hres2) as Hlen2.
  destruct (IH schedule2 s2 (S attempt) error
              (sleep (calculateDelay (live s1) attempt q) w2)) as [rest Hrest].
  - destruct (resume_cases Hres1) as [(-> & -> & ->) | (change & -> & ->)].
    + simpl in Hres2. injection Hres2 as <- <-. simpl List.length in *.
      specialize (Hfuel n Hn). lia.
    + simpl List.length in *. lia.
  - intros k Hk. rewrite Hset2, Hset1 in Hk.
    destruct (resume_cases Hres1) as [(-> & -> & ->) | (change & -> & ->)].
    + simpl in Hres2. injection Hres2 as <- <-. simpl List.length in *.
      specialize (Hfuel k Hk). lia.
    + specialize (Hfuel k Hk). simpl List.length in *. lia.
  - rewrite Hrest. simpl. eauto.
Qed.

Lemma loop_bound_enough (schedule : Schedule) (s : Store) (lastError : Js.Value)
    (w : World) :
  exists r,
    loop (List.length schedule + loop_bound (live (settled schedule s)))
      schedule s 0 lastError w = Some r.
Proof.
  apply retryLoop_total; unfold loop_bound.
  - destruct (maxRetries (live (settled schedule s))); lia.
  - intros n Hn. rewrite Hn. lia.
Qed.

Lemma fuel_positive (schedule : Schedule) (s : Store) :
  exists k, List.length schedule + loop_bound (live (settled schedule s)) = S k.
Proof.
  unfold loop_bound. destruct (maxRetries (live (settled schedule s)));
    rewrite Nat.add_succ_r; eauto.
Qed.

(** A run entered at an index within [maxRetries] starts with an attempt;
    one entered beyond it makes none. *)
Lemma attempts_head {schedule : Schedule} {s : Store} {attempt : nat}
    {lastError : Js.Value} {w : World} {r : Run World T} :
  Runs schedule s attempt lastError w r ->
  le_num attempt (maxRetries (live s)) = true ->
  exists rest, trace r = EvAttempt attempt :: rest.
Proof.
  intros H Hle. destruct H; simpl; eauto; congruence.
Qed.

Lemma attempts_exhausted {schedule : Schedule} {s : Store} {attempt : nat}
    {lastError : Js.Value} {w : World} {r : Run World T} :
  Runs schedule s attempt lastError w r ->
  le_num attempt (maxRetries (live s)) = false ->
  r = {| trace := []; outcome := Rejected lastError; world := w |}.
Proof.
  intros H Hle. destruct H; auto; congruence.
Qed.

(** Every event of a run belongs to the loop, and every primitive call in
    it is one the operation makes. *)
Lemma attempts_events {schedule : Schedule} {s : Store} {attempt : nat}
    {lastError : Js.Value} {w : World} {r : Run World T} :
  Runs schedule s attempt lastError w r ->
  Forall engine_event (trace r)
  /\ (forall c, In (EvFs c) (trace r) -> exists w', In c (fst (fst (operation w')))).
Proof.
  assert (Hfs : forall w0 calls res w1, operation w0 = (calls, res, w1) ->
            Forall engine_event (map EvFs calls)
            /\ (forall c, In (EvFs c) (map EvFs calls) ->
                  exists w', In c (fst (fst (operation w'))))).
  { intros w0 calls res w1 Hop. split.
    - apply Forall_forall. intros e He. apply in_map_iff in He as (c & <- & _).
      split; reflexivity.
    - intros c Hc. apply in_map_iff in Hc as (c' & Hc' & Hin).
      injection Hc' as ->. exists w0. now rewrite Hop. }
  induction 1 as [sch s0 a le w0 Hle
                 | sch s0 a le w0 calls v w1 Hle Hop
                 | sch s0 a le w0 calls e w1 s1 sch1 Hle Hop Hres1 Hno
                 | sch s0 a le w0 calls e w1 s1 sch1 q w2 s2 sch2 rest
                     Hle Hop Hres1 Hre Hrnd Hres2 Hrest IH]; simpl.
  - split; [constructor | contradiction].
  - destruct (Hfs _ _ _ _ Hop) as [Hall Hin]. split.
    + constructor; [split; reflexivity | exact Hall].
    + intros c [Hc | Hc]; [discriminate | now apply Hin].
  - destruct (Hfs _ _ _ _ Hop) as [Hall Hin]. split.
    + constructor; [split; reflexivity |].
      apply Forall_app. split; [exact Hall |].
      constructor; [split; reflexivity | constructor].
    + intros c [Hc | Hc]; [discriminate |].
      apply in_app_or in Hc as [Hc | [Hc | []]]; [now apply Hin | discriminate].
  - destruct (Hfs _ _ _ _ Hop) as [Hall Hin]. destruct IH as [IHall IHin]. split.
    + constructor; [split; reflexivity |].
      rewrite <- app_assoc. apply Forall_app. split; [exact Hall |].
      repeat (constructor; [split; reflexivity |]). exact IHall.
    + intros c [Hc | Hc]; [discriminate |].
      rewrite <- app_assoc in Hc.
      apply in_app_or in Hc as [Hc | [Hc | [Hc | [Hc | Hc]]]];
        try discriminate; [now apply Hin | now apply IHin].
Qed.

Lemma count_cons (p : Event -> bool) (e : Event) (l : list Event) :
  count p (e :: l) = (if p e then 1 else 0) + count p l.
Proof. unfold count; simpl. now destruct (p e). Qed.

Lemma count_tried (p : Event -> bool) (a : nat) (calls : list FsCall) :
  (forall c, p (EvFs c) = false) ->
  count p (EvAttempt a :: map EvFs calls) = if p (EvAttempt a) then 1 else 0.
Proof. intro Hp. rewrite count_cons, count_fs by exact Hp. lia. Qed.

(** What follows a caught error in a run entered at index [first].  The
    [catch] clause decides on the state [s1] the task finds when
    [operation()] has settled; after the backoff the loop test decides on
    the state [s2] it finds then. *)
Lemma attempts_caught {schedule : Schedule} {s : Store} {first : nat}
    {lastError : Js.Value} {w : World} {r : Run World T} :
  Runs schedule s first lastError w r ->
  forall pre a e post,
    trace r = pre ++ EvCaught a e :: post ->
    first <= a
    /\ count is_warn pre = a - first
    /\ count is_attempt pre = S (a - first)
    /\ exists s1,
         reaches schedule s s1
         /\ (isFileDescriptorError e && lt_num a (maxRetries (live s1)) = false ->
             post = [] /\ outcome r = Rejected e)
         /\ (isFileDescriptorError e && lt_num a (maxRetries (live s1)) = true ->
             exists delay s2 post',
               reaches schedule s s2
               /\ post = EvWarn operationName a delay :: EvSleep delay :: post'
               /\ (le_num (S a) (maxRetries (live s2)) = true ->
                   exists post'', post' = EvAttempt (S a) :: post'')
               /\ (le_num (S a) (maxRetries (live s2)) = false ->
                   post' = [] /\ outcome r = Rejected e)).
Proof.
  induction 1 as [sch s0 a0 le w0 Hle
                 | sch s0 a0 le w0 calls v w1 Hle Hop
                 | sch s0 a0 le w0 calls e0 w1 s1 sch1 Hle Hop Hres1 Hno
                 | sch s0 a0 le w0 calls e0 w1 s1 sch1 q w2 s2 sch2 rest
                     Hle Hop Hres1 Hre Hrnd Hres2 Hrest IH];
    intros pre a e post Heq; simpl in Heq.
  - destruct pre; discriminate.
  - exfalso.
    assert (Hin : In (EvCaught a e) (EvAttempt a0 :: map EvFs calls))
      by (rewrite Heq; apply in_elt).
    pose proof (tried_unmarked a0 calls) as Hun.
    rewrite Forall_forall in Hun. specialize (Hun _ Hin). discriminate.
  - symmetry in Heq.
    apply (split_after_unmarked (EvAttempt a0 :: map EvFs calls) (EvCaught a0 e0) [])
      in Heq; auto using tried_unmarked.
    destruct Heq as [(Hpre & Hx & Hpost) | (mid & _ & Hback)].
    + injection Hx as Ha He. subst pre post a e.
      rewrite !count_tried by reflexivity. simpl.
      split; [lia |]. split; [lia |]. split; [lia |].
      exists s1. split; [eapply resume_reaches; [exact Hres1 | apply reaches_now] |].
      split; [auto | congruence].
    + destruct mid; discriminate.
  - unfold prepend in Heq; simpl in Heq.
    rewrite <- app_assoc in Heq. symmetry in Heq.
    apply (split_after_unmarked (EvAttempt a0 :: map EvFs calls) (EvCaught a0 e0)
             (EvWarn operationName a0 (calculateDelay (live s1) a0 q)
                :: EvSleep (calculateDelay (live s1) a0 q) :: trace rest))
      in Heq; auto using tried_unmarked.
    destruct Heq as [(Hpre & Hx & Hpost) | (mid & Hpre & Hback)].
    + injection Hx as Ha He. subst pre post a e.
      rewrite !count_tried by reflexivity. simpl.
      split; [lia |]. split; [lia |]. split; [lia |].
      exists s1. split; [eapply resume_reaches; [exact Hres1 | apply reaches_now] |].
      split; [congruence |]. intros _.
      exists (calculateDelay (live s1) a0 q), s2, (trace rest).
      split.
      { eapply resume_reaches; [exact Hres1 |].
        eapply resume_reaches; [exact Hres2 | apply reaches_now]. }
      split; [reflexivity |]. split.
      * intro Hnext. exact (attempts_head Hrest Hnext).
      * intro Hnext. rewrite (attempts_exhausted Hrest Hnext). simpl. auto.
    + destruct mid as [|m1 [|m2 mid]]; simpl in Hback;
        try (injection Hback as Hc; discriminate);
        try (injection Hback as _ Hc; discriminate).
      injection Hback as Hm1 Hm2 Hback. subst pre m1 m2.
      destruct (IH _ _ _ _ Hback) as (Hge & Hw & Ha & s1' & Hreach & Hno' & Hyes).
      rewrite !count_app, !count_tried, !count_cons by reflexivity. simpl.
      rewrite Hw, Ha.
      split; [lia |]. split; [lia |]. split; [lia |].
      assert (Hlift : forall s', reaches sch2 s2 s' -> reaches sch s0 s').
      { intros s' Hs'. eapply resume_reaches; [exact Hres1 |].
        eapply resume_reaches; [exact Hres2 | exact Hs']. }
      exists s1'. split; [auto |]. split; [exact Hno' |].
      intro Hb. destruct (Hyes Hb) as (delay & s2' & post' & Hr2 & Hp & H1 & H2).
      exists delay, s2', post'. auto.
Qed.

(** The same while no change touches [maxRetries]: the decisions are those
    of the value read when the task started. *)
Lemma attempts_caught_steady {schedule : Schedule} {s : Store} {first : nat}
    {lastError : Js.Value} {w : World} {r : Run World T} :
  Runs schedule s first lastError w r ->
  maxRetries_unchanged schedule s ->
  forall pre a e post,
    trace r = pre ++ EvCaught a e :: post ->
    (isFileDescriptorError e && lt_num a (maxRetries (live s)) = true ->
     exists delay post',
       post = EvWarn operationName a delay :: EvSleep delay :: EvAttempt (S a) :: post')
    /\ (isFileDescriptorError e && lt_num a (maxRetries (live s)) = false ->
        post = [] /\ outcome r = Rejected e).
Proof.
  intros Hr Hsteady pre a e post Heq.
  destruct (attempts_caught Hr pre a e post Heq)
    as (_ & _ & _ & s1 & Hreach & Hno & Hyes).
  rewrite (Hsteady _ Hreach) in Hno, Hyes.
  split; [| exact Hno].
  intro Hb. destruct (Hyes Hb) as (delay & s2 & post' & Hr2 & Hp & Hnext & _).
  rewrite (Hsteady _ Hr2) in Hnext.
  apply andb_prop in Hb as [_ Hlt].
  destruct (Hnext (lt_num_le_num_succ _ _ Hlt)) as [post'' ->].
  exists delay, post''. exact Hp.
Qed.

(** A run in which every attempt made fails with descriptor exhaustion,
    while no change touches [maxRetries = n]: entered at [first <= n], it
    makes the attempts [first .. n], warns at each but the last, and
    throws what the last one threw. *)
Lemma attempts_all_fail {schedule : Schedule} {s : Store} {first : nat}
    {lastError : Js.Value} {w : World} {r : Run World T} (n : nat) :
  Runs schedule s first lastError w r ->
  maxRetries_unchanged schedule s ->
  maxRetries (live s) = Num (Z.of_nat n) ->
  first <= n ->
  (forall v, outcome r <> Resolved v) ->
  (forall a e, In (EvCaught a e) (trace r) -> isFileDescriptorError e = true) ->
  exists pre e,
    count is_attempt (trace r) = S (n - first)
    /\ count is_warn (trace r) = n - first
    /\ warned_attempts (trace r) = seq first (n - first)
    /\ trace r = pre ++ [EvCaught n e]
    /\ outcome r = Rejected e.
Proof.
  induction 1 as [sch s0 a0 le w0 Hle
                 | sch s0 a0 le w0 calls v w1 Hle Hop
                 | sch s0 a0 le w0 calls e0 w1 s1 sch1 Hle Hop Hres1 Hno
                 | sch s0 a0 le w0 calls e0 w1 s1 sch1 q w2 s2 sch2 rest
                     Hle Hop Hres1 Hre Hrnd Hres2 Hrest IH];
    intros Hsteady Hn Hfirst Hfailed Hfd; simpl in *.
  - rewrite Hn in Hle. simpl in Hle. apply Z.leb_gt in Hle. lia.
  - now contradiction (Hfailed v).
  - assert (He0 : isFileDescriptorError e0 = true).
    { apply (Hfd a0). right. apply in_or_app. right. now left. }
    rewrite He0, (resume_maxRetries Hsteady Hres1), Hn in Hno.
    simpl in Hno. apply Z.ltb_ge in Hno.
    assert (a0 = n) by lia. subst a0.
    exists (EvAttempt n :: map EvFs calls), e0.
    rewrite Nat.sub_diag.
    rewrite !count_cons, !count_app, !count_fs by reflexivity.
    rewrite warned_attempts_app, warned_attempts_fs. simpl. auto.
  - apply andb_prop in Hre as [_ Hlt].
    pose proof (resume_maxRetries Hsteady Hres1) as Hmr1.
    pose proof (resume_unchanged Hsteady Hres1) as Hsteady1.
    pose proof (resume_maxRetries Hsteady1 Hres2) as Hmr2.
    pose proof (resume_unchanged Hsteady1 Hres2) as Hsteady2.
    rewrite Hmr1, Hn in Hlt. simpl in Hlt. apply Z.ltb_lt in Hlt.
    destruct IH as (pre & e & Hatt & Hwarn & Hwa & Htr & Hout).
    + exact Hsteady2.
    + now rewrite Hmr2, Hmr1.
    + lia.
    + exact Hfailed.
    + intros a e Hin. apply (Hfd a). right.
      rewrite <- app_assoc. apply in_or_app. right. simpl. auto.
    + exists ((EvAttempt a0 :: map EvFs calls)
                ++ [EvCaught a0 e0;
                    EvWarn operationName a0 (calculateDelay (live s1) a0 q);
                    EvSleep (calculateDelay (live s1) a0 q)] ++ pre), e.
      rewrite !count_cons, !count_app, !count_fs by reflexivity.
      rewrite !warned_attempts_app, warned_attempts_fs. simpl.
      rewrite ?count_cons. simpl.
      rewrite Hatt, Hwarn, Hwa, Htr, Hout.
      replace (n - a0) with (S (n - S a0)) by lia.
      repeat split; auto.
      rewrite <- !app_assoc. reflexivity.
Qed.

End EngineFacts.

(** ** The retry engine *)

Section EngineClaims.

Variable World : Type.
Variable random : World -> Q * World.
Variable sleep : Delay -> World -> World.
Variable T : Type.

Local Abbreviation execute := (executeWithRetry random sleep).

Lemma executeWithRetry_inv (s : Store) (schedule : Schedule)
    (operation : Operation World T) (name : string) (w : World) (run : Run World T) :
  execute s schedule operation name w = Some run ->
  exists r,
    Attempts random sleep operation name schedule s 0 Js.Undefined w r
    /\ trace run = EvLimit name :: trace r
    /\ outcome run = outcome r
    /\ world run = world r.
Proof.
  unfold executeWithRetry. intro H.
  destruct (retryLoop random sleep operation name
              (List.length schedule + loop_bound (live (settled schedule s)))
              schedule s 0 Js.Undefined w) as [r|] eqn:Hr; simpl in H; [| discriminate].
  injection H as <-. exists r. split; [| now simpl].
  eapply retryLoop_sound; eauto.
Qed.

(** [executeWithRetry] always settles. *)
Lemma executeWithRetry_total (s : Store) (schedule : Schedule)
    (operation : Operation World T) (name : string) (w : World) :
  exists run, execute s schedule operation name w = Some run.
Proof.
  unfold executeWithRetry.
  destruct (loop_bound_enough World random sleep T operation name schedule s
              Js.Undefined w) as [r Hr].
  rewrite Hr. simpl. eauto.
Qed.

(** C2.  In a run of [executeWithRetry], take any failed attempt: index
    [a], error [e].
    - If [e] is not an object whose [code] is ["ENFILE"] or ["EMFILE"],
      nothing follows it: the run ends rejected with [e], having made
      [a + 1] attempts and emitted [a] notifications -- one attempt and no
      notification when the first attempt fails so, whatever [maxRetries]
      is and whatever happens to it meanwhile.
    - If [maxRetries] is not changed while the call is suspended, the
      failed attempt is followed by a retry (the warning, the sleep and
      the next attempt) exactly when [e] is such an object and
      [a < maxRetries]; otherwise nothing follows it, as above. *)
Theorem retry_iff_descriptor_exhaustion (s : Store) (schedule : Schedule)
    (operation : Operation World T) (name : string) (w : World) (run : Run World T)
    (pre : list Event) (a : nat) (e : Js.Value) (post : list Event) :
  execute s schedule operation name w = Some run ->
  trace run = pre ++ EvCaught a e :: post ->
  let retryable :=
    descriptor_exhaustion e
    /\ exists n, maxRetries (live s) = Num n /\ (Z.of_nat a < n)%Z in
  let propagated :=
    post = []
    /\ outcome run = Rejected e
    /\ count is_attempt (trace run) = S a
    /\ count is_warn (trace run) = a in
  (~ descriptor_exhaustion e -> propagated)
  /\ (maxRetries_unchanged schedule s ->
      ((exists delay post',
          post = EvWarn name a delay :: EvSleep delay :: EvAttempt (S a) :: post')
       <-> retryable)
      /\ (~ retryable -> propagated)).
Proof.
  intros Hrun Htrace retryable propagated.
  destruct (executeWithRetry_inv s schedule operation name w run Hrun)
    as (r & Hr & Htr & Hout & _).
  rewrite Htrace in Htr.
  destruct pre as [|p pre]; simpl in Htr; [discriminate |].
  injection Htr as -> Htr. symmetry in Htr.
  destruct (attempts_caught World random sleep T operation name Hr pre a e post Htr)
    as (_ & Hw & Ha & s1 & Hreach & Hno & _).
  rewrite Nat.sub_0_r in Hw, Ha.
  assert (Hends : post = [] -> outcome r = Rejected e -> propagated).
  { intros -> Hrej. unfold propagated. rewrite Htrace, Hout.
    rewrite !count_app. simpl. rewrite !count_cons. simpl.
    unfold count at 2 4; simpl. rewrite Hw, Ha.
    repeat split; auto; lia. }
  split.
  - intro Hnot.
    assert (Hfd : isFileDescriptorError e = false).
    { destruct (isFileDescriptorError e) eqn:Hb; [| reflexivity].
      apply isFileDescriptorError_spec in Hb. contradiction. }
    rewrite Hfd in Hno. destruct (Hno eq_refl) as [Hpost Hrej]. now apply Hends.
  - intro Hsteady.
    destruct (attempts_caught_steady World random sleep T operation name Hr Hsteady
                pre a e post Htr) as [Hyes Hno'].
    assert (Hiff : isFileDescriptorError e && lt_num a (maxRetries (live s)) = true
                   <-> retryable).
    { unfold retryable.
      rewrite andb_true_iff, isFileDescriptorError_spec, lt_num_spec. tauto. }
    destruct (isFileDescriptorError e && lt_num a (maxRetries (live s))) eqn:Hb.
    + split.
      * split; [intros _; now apply Hiff | intros _; now apply Hyes].
      * intro Hnot. exfalso. apply Hnot. now apply Hiff.
    + destruct (Hno' eq_refl) as [Hpost Hrej]. split.
      * split.
        -- intros (delay & post' & Hp). rewrite Hpost in Hp. discriminate.
        -- intro Hret. apply Hiff in Hret. discriminate.
      * intros _. now apply Hends.
Qed.

(** C3.  When [maxRetries] is the number [n >= 0] and is not changed while
    the call is suspended, a call of which every attempt made fails with a
    descriptor-exhaustion error makes [n + 1] attempts, emits [n]
    notifications, for the attempts [0 .. n - 1], and rejects with the
    error caught at attempt [n], the last event of the run. *)
Theorem retries_exhausted (s : Store) (schedule : Schedule)
    (operation : Operation World T) (name : string) (w : World) (run : Run World T)
    (n : Z) :
  execute s schedule operation name w = Some run ->
  maxRetries (live s) = Num n ->
  (0 <= n)%Z ->
  maxRetries_unchanged schedule s ->
  (forall v, outcome run <> Resolved v) ->
  (forall a e, In (EvCaught a e) (trace run) -> descriptor_exhaustion e) ->
  exists pre e,
    count is_attempt (trace run) = S (Z.to_nat n)
    /\ count is_warn (trace run) = Z.to_nat n
    /\ warned_attempts (trace run) = seq 0 (Z.to_nat n)
    /\ trace run = pre ++ [EvCaught (Z.to_nat n) e]
    /\ outcome run = Rejected e.
Proof.
  intros Hrun Hn Hpos Hsteady Hfailed Hfd.
  destruct (executeWithRetry_inv s schedule operation name w run Hrun)
    as (r & Hr & Htr & Hout & _).
  destruct (attempts_all_fail World random sleep T operation name (Z.to_nat n)
              Hr Hsteady) as (pre & e & Hatt & Hwarn & Hwa & Hpre & Hrej).
  - rewrite Z2Nat.id by exact Hpos. exact Hn.
  - lia.
  - intros v Hv. apply (Hfailed v). now rewrite Hout.
  - intros a e Hin. apply isFileDescriptorError_spec, (Hfd a).
    rewrite Htr. now right.
  - rewrite Nat.sub_0_r in Hatt, Hwarn, Hwa.
    exists (EvLimit name :: pre), e.
    rewrite Htr, Hout. rewrite !count_cons. simpl.
    rewrite Hatt, Hwarn, Hwa, Hpre, Hrej. auto.
Qed.

End EngineClaims.

Lemma getThrottlingConfig_live (s : Store) :
  live (snd (getThrottlingConfig s)) = live s.
Proof.
  unfold getThrottlingConfig, live, deref; simpl. unfold upd.
  destruct (Nat.eqb (config s) (next s)); reflexivity.
Qed.

Lemma keeps_maxRetries_unrelated_changes : Forall keeps_maxRetries unrelated_changes.
Proof.
  unfold unrelated_changes.
  constructor; [| constructor; [| constructor]]; intro s.
  - now rewrite getThrottlingConfig_live.
  - destruct (configure_cases accepts_positive s
                (mkPartial None None (Some (Num 200)) (Some (Num 10000))))
      as [n Hn | n Hn | n s' Hn | s' _ _ Hl]; try discriminate.
    simpl. rewrite Hl. reflexivity.
Qed.

Example executeWithRetry_cut_short :
  executeWithRetry sample_random sample_sleep initial lowered_budget exhausted_op
    "stat(p)" 0 = Some cut_short_run.
Proof. vm_compute. reflexivity. Qed.

(** C2, as stated, fails when [maxRetries] changes during a backoff: the
    first attempt fails with descriptor exhaustion at index 0, below the
    [maxRetries = 3] in force; it is neither retried (no attempt follows)
    nor propagated without a notification (one is emitted). *)
Lemma retry_announced_but_not_made :
  executeWithRetry sample_random sample_sleep initial lowered_budget exhausted_op
    "stat(p)" 0 = Some cut_short_run
  /\ (exists pre post,
        trace cut_short_run = pre ++ EvCaught 0 (EMFILE 0) :: post
        /\ count is_attempt post = 0
        /\ count is_warn post = 1)
  /\ descriptor_exhaustion (EMFILE 0)
  /\ maxRetries (live initial) = Num 3
  /\ maxRetries (live (settled lowered_budget initial)) = Num 0.
Proof.
  split; [exact executeWithRetry_cut_short |].
  split.
  - exists [EvLimit "stat(p)"; EvAttempt 0; EvFs (fs_stat "/srv/p")],
      [EvWarn "stat(p)" 0 (calculateDelay DEFAULT_CONFIG 0 (1 # 2));
       EvSleep (calculateDelay DEFAULT_CONFIG 0 (1 # 2))].
    split; [reflexivity |]. split; reflexivity.
  - split; [| split; reflexivity].
    eexists. split; [reflexivity |]. right. reflexivity.
Qed.

(** C3, as stated, fails for the same reason: every attempt made fails
    with descriptor exhaustion, yet one attempt is made and one
    notification emitted, which is [n + 1] and [n] for no [n]. *)
Lemma attempts_cut_short_by_reconfiguration :
  exists run,
    executeWithRetry sample_random sample_sleep initial lowered_budget exhausted_op
      "stat(p)" 0 = Some run
    /\ (forall v, outcome run <> Resolved v)
    /\ (forall a e, In (EvCaught a e) (trace run) -> descriptor_exhaustion e)
    /\ maxRetries (live initial) = Num 3
    /\ count is_attempt (trace run) = 1
    /\ count is_warn (trace run) = 1
    /\ (forall n, ~ (count is_attempt (trace run) = S n /\ count is_warn (trace run) = n)).
Proof.
  exists cut_short_run.
  split; [exact executeWithRetry_cut_short |].
  split; [intros v Hv; discriminate |].
  split.
  - intros a e Hin. simpl in Hin.
    repeat (destruct Hin as [Hin | Hin]; [try discriminate |]); [| contradiction].
    injection Hin as <- <-.
    eexists. split; [reflexivity |]. right. reflexivity.
  - split; [reflexivity |]. split; [reflexivity |]. split; [reflexivity |].
    intros n [H1 H2]. change (count is_attempt (trace cut_short_run)) with 1 in H1.
    change (count is_warn (trace cut_short_run)) with 1 in H2. lia.
Qed.

Lemma retry_iff_descriptor_exhaustion_witness :
  let run := {| trace := flaky_prefix ++ [EvCaught 1 ENOENT];
                outcome := Rejected ENOENT;
                world := 2 |} in
  let retryable :=
    descriptor_exhaustion ENOENT
    /\ exists n, maxRetries (live initial) = Num n /\ (Z.of_nat 1 < n)%Z in
  let propagated :=
    @nil Event = []
    /\ outcome run = Rejected ENOENT
    /\ count is_attempt (trace run) = 2
    /\ count is_warn (trace run) = 1 in
  executeWithRetry sample_random sample_sleep initial unrelated_changes flaky_op
    "stat(p)" 0 = Some run
  /\ (~ descriptor_exhaustion ENOENT -> propagated)
  /\ ((exists delay post',
         [] = EvWarn "stat(p)" 1 delay :: EvSleep delay :: EvAttempt 2 :: post')
      <-> retryable)
  /\ (~ retryable -> propagated).
Proof.
  intros run retryable propagated.
  assert (Hrun : executeWithRetry sample_random sample_sleep initial unrelated_changes
                   flaky_op "stat(p)" 0 = Some run) by (vm_compute; reflexivity).
  split; [exact Hrun |].
  destruct (retry_iff_descriptor_exhaustion nat sample_random sample_sleep unit
              initial unrelated_changes flaky_op "stat(p)" 0 run flaky_prefix 1 ENOENT []
              Hrun eq_refl) as [Hany Hsteady].
  split; [exact Hany |].
  exact (Hsteady (unchanged_of_keeps unrelated_changes initial
                    keeps_maxRetries_unrelated_changes)).
Defined.

Lemma retries_exhausted_witness :
  exists run pre e,
    executeWithRetry sample_random sample_sleep initial unrelated_changes
      (recovering_op 10) "stat(p)" 0 = Some run
    /\ count is_attempt (trace run) = 4
    /\ count is_warn (trace run) = 3
    /\ warned_attempts (trace run) = [0; 1; 2]
    /\ trace run = pre ++ [EvCaught 3 e]
    /\ outcome run = Rejected e.
Proof.
  destruct (executeWithRetry_total nat sample_random sample_sleep nat
              initial unrelated_changes (recovering_op 10) "stat(p)" 0) as [run Hrun].
  exists run.
  destruct (retries_exhausted nat sample_random sample_sleep nat
              initial unrelated_changes (recovering_op 10) "stat(p)" 0 run 3 Hrun eq_refl)
    as (pre & e & H).
  - discriminate.
  - exact (unchanged_of_keeps unrelated_changes initial
             keeps_maxRetries_unrelated_changes).
  - intros v Hv. vm_compute in Hrun. injection Hrun as <-. discriminate.
  - intros a e Hin. vm_compute in Hrun. injection Hrun as <-. simpl in Hin.
    repeat (destruct Hin as [Hin | Hin];
            [first [ discriminate Hin
                   | injection Hin as <- <-;
                     eexists; split; [reflexivity |]; right; reflexivity ] |]).
    contradiction.
  - exists pre, e. split; [exact Hrun | exact H].
Defined.
(** ** The operation surface *)

Section SurfaceClaims.

Variable World : Type.
Variable random : World -> Q * World.
Variable sleep : Delay -> World -> World.
Variable FsResult : Type.
Variable validatePath : string -> Js.Value + string.
Variable fs : FsCall -> World -> (Js.Value + FsResult) * World.
Variable schedule : Schedule.

Local Abbreviation submit := (run_op random sleep (FsResult := FsResult) schedule).
Local Abbreviation gate := (validated (FsResult := FsResult) validatePath).
Local Abbreviation contract := (mediated (FsResult := FsResult) validatePath).
Local Abbreviation call := (fs_op fs).

(** A task handed to [executeWithRetry] settles; its trace is the
    submission followed by loop events, and the primitive calls in it are
    calls of the operation. *)
Lemma run_op_shape (s : Store) (op : Operation World FsResult) (name : string)
    (w : World) (P : FsCall -> Prop) :
  (forall w' c, In c (fst (fst (op w'))) -> P c) ->
  exists run rest,
    submit s op name w = Some run
    /\ trace run = EvLimit name :: rest
    /\ Forall engine_event rest
    /\ (forall c, In (EvFs c) rest -> P c).
Proof.
  intro Hop. unfold run_op.
  destruct (executeWithRetry_total World random sleep FsResult s schedule op name w)
    as [run Hrun].
  destruct (executeWithRetry_inv World random sleep FsResult s schedule op name w run Hrun)
    as (r & Hr & Htr & _).
  destruct (attempts_events World random sleep FsResult op name Hr) as [Hall Hin].
  exists run, (trace r). repeat split; auto.
  intros c Hc. destruct (Hin c Hc) as [w' Hw']. eauto.
Qed.

Lemma fs_op_calls (c0 : FsCall) (w' : World) (c : FsCall) :
  In c (fst (fst (call c0 w'))) -> c = c0.
Proof.
  unfold fs_op. destruct (fs c0 w') as [res w1]; simpl.
  intros [H | []]. now symmetry.
Qed.

(** The entry points with one path. *)
Lemma mediated_one (s : Store) (raw name : string) (prim : Primitive) (w : World)
    (op : string -> Operation World FsResult) :
  (forall vp w' c, In c (fst (fst (op vp w'))) ->
     call_primitive c = prim /\ call_paths c = [vp]) ->
  contract [raw] prim w (gate raw w (fun vp => submit s (op vp) name w)).
Proof.
  intro Hop. unfold mediated, validated.
  destruct (validatePath raw) as [e | vp] eqn:Hv.
  - eexists. split; [reflexivity |]. right.
    exists 0, raw, e. simpl. repeat split; auto. intros j raw' Hj. lia.
  - destruct (run_op_shape s (op vp) name w _ (Hop vp))
      as (run & rest & Hrun & Htr & Hall & Hin).
    rewrite Hrun. simpl. eexists. split; [reflexivity |]. left.
    exists [vp], name, rest. simpl. rewrite Htr.
    repeat split; auto; apply Hin; auto.
Qed.

(** The entry points with two paths. *)
Lemma mediated_two (s : Store) (raw1 raw2 name : string) (prim : Primitive) (w : World)
    (op : string -> string -> Operation World FsResult) :
  (forall vp1 vp2 w' c, In c (fst (fst (op vp1 vp2 w'))) ->
     call_primitive c = prim /\ call_paths c = [vp1; vp2]) ->
  contract [raw1; raw2] prim w
    (gate raw1 w (fun vp1 =>
       gate raw2 w (fun vp2 => submit s (op vp1 vp2) name w))).
Proof.
  intro Hop. unfold mediated, validated.
  destruct (validatePath raw1) as [e1 | vp1] eqn:Hv1.
  - eexists. split; [reflexivity |]. right.
    exists 0, raw1, e1. simpl. repeat split; auto. intros j raw' Hj. lia.
  - destruct (validatePath raw2) as [e2 | vp2] eqn:Hv2.
    + simpl. eexists. split; [reflexivity |]. right.
      exists 1, raw2, e2. simpl. repeat split; auto.
      intros j raw' Hj Hnth. assert (j = 0) by lia. subst j.
      simpl in Hnth. injection Hnth as <-. eauto.
    + destruct (run_op_shape s (op vp1 vp2) name w _ (Hop vp1 vp2))
        as (run & rest & Hrun & Htr & Hall & Hin).
      rewrite Hrun. simpl. eexists. split; [reflexivity |]. left.
      exists [vp1; vp2], name, rest. simpl. rewrite Htr.
      repeat split; auto; apply Hin; auto.
Qed.

Local Ltac primitive_calls :=
  let vp := fresh "vp" in
  let vp' := fresh "vp" in
  let w' := fresh "w" in
  let c := fresh "c" in
  let Hc := fresh "Hc" in
  first [ intros vp vp' w' c Hc | intros vp w' c Hc ];
  repeat match type of Hc with
         | context [if ?b then _ else _] => destruct b
         end;
  apply fs_op_calls in Hc; subst c; split; reflexivity.

(** C1. Every mediated entry point settles, whatever other code does to
    the module state while it is suspended, and in its trace either
    - every caller-supplied path was accepted by [validatePath], in
      argument order, before the task was handed to the limiter; everything
      after the submission is an event of the retry loop, and every call of
      the underlying primitive is of the primitive asked for, on exactly
      the validated paths; or
    - some path was rejected: the one at position [k], every earlier one
      having been accepted; the trace holds the [k + 1] validations and
      nothing else (no submission to the limiter, no attempt, no primitive
      call), the call is rejected with the error [validatePath] threw, and
      the world is untouched. *)
Theorem entry_points_validate_first (s : Store) (r : Request) (w : World) :
  exists run,
    invoke random sleep validatePath fs schedule s r w = Some run
    /\ ((exists validatedPaths name rest,
           Forall2 (fun raw vp => validatePath raw = inr vp)
             (request_paths r) validatedPaths
           /\ trace run = map EvValidate (request_paths r) ++ EvLimit name :: rest
           /\ Forall engine_event rest
           /\ (forall c, In (EvFs c) rest ->
                 call_primitive c = request_primitive r
                 /\ call_paths c = validatedPaths))
        \/ (exists k raw e,
              nth_error (request_paths r) k = Some raw
              /\ validatePath raw = inl e
              /\ (forall j raw', j < k -> nth_error (request_paths r) j = Some raw' ->
                    exists vp, validatePath raw' = inr vp)
              /\ trace run = map EvValidate (firstn (S k) (request_paths r))
              /\ outcome run = Rejected e
              /\ world run = w)).
Proof.
  change (contract (request_paths r) (request_primitive r) w
            (invoke random sleep validatePath fs schedule s r w)).
  destruct r as [p m | p enc | p d enc | p o | p o | p | p | p o | p | a b m
                | p d enc | a b]; simpl.
  - apply (mediated_one s p _ Paccess w (fun vp => call (fs_access vp m))).
    primitive_calls.
  - apply (mediated_one s p _ PreadFile w
             (fun vp => if encoding_truthy enc
                        then call (fs_readFile vp enc)
                        else call (fs_readFile vp None))).
    primitive_calls.
  - apply (mediated_one s p _ PwriteFile w (fun vp => call (fs_writeFile vp d enc))).
    primitive_calls.
  - apply (mediated_one s p _ Pmkdir w (fun vp => call (fs_mkdir vp o))).
    primitive_calls.
  - apply (mediated_one s p _ Preaddir w
             (fun vp => if wants_file_types o
                        then call (fs_readdir vp true)
                        else call (fs_readdir vp false))).
    primitive_calls.
  - apply (mediated_one s p _ Pstat w (fun vp => call (fs_stat vp))).
    primitive_calls.
  - apply (mediated_one s p _ Plstat w (fun vp => call (fs_lstat vp))).
    primitive_calls.
  - apply (mediated_one s p _ Prm w (fun vp => call (fs_rm vp o))).
    primitive_calls.
  - apply (mediated_one s p _ Punlink w (fun vp => call (fs_unlink vp))).
    primitive_calls.
  - apply (mediated_two s a b _ PcopyFile w
             (fun vp1 vp2 => call (fs_copyFile vp1 vp2 m))).
    primitive_calls.
  - apply (mediated_one s p _ PappendFile w (fun vp => call (fs_appendFile vp d enc))).
    primitive_calls.
  - apply (mediated_two s a b _ Prename w (fun vp1 vp2 => call (fs_rename vp1 vp2))).
    primitive_calls.
Qed.

End SurfaceClaims.

(** ** Path helpers *)

(** In the model of [path.resolve], an absolute segment makes the working
    directory irrelevant. *)
Lemma resolve_loop_absolute (paths : list string) (cwd1 cwd2 acc : string) :
  (exists seg, In seg paths /\ NodePath.is_absolute seg = true) ->
  NodePath.resolve_loop (paths ++ [cwd1]) acc = NodePath.resolve_loop (paths ++ [cwd2]) acc.
Proof.
  revert acc. induction paths as [|p rest IH]; intros acc (seg & Hin & Habs).
  - contradiction.
  - simpl. destruct (String.eqb p EmptyString) eqn:Hp.
    + apply String.eqb_eq in Hp. subst p.
      destruct Hin as [<- | Hin]; [discriminate |].
      apply IH. eauto.
    + destruct (NodePath.is_absolute p) eqn:Hpa; [reflexivity |].
      destruct Hin as [<- | Hin]; [congruence |].
      apply IH. eauto.
Qed.

Lemma NodePath_resolve_absolute_segment (cwd1 cwd2 : string) (segments : list string) :
  (exists seg, In seg segments /\ NodePath.is_absolute seg = true) ->
  NodePath.resolve cwd1 segments = NodePath.resolve cwd2 segments.
Proof.
  intros (seg & Hin & Habs). unfold NodePath.resolve.
  rewrite (resolve_loop_absolute (rev segments) cwd1 cwd2); [reflexivity |].
  exists seg. split; [now apply in_rev in Hin | exact Habs].
Qed.

(** C9, as amended.  Whatever [path.join] and [path.resolve] compute:
    [joinPath] returns the same for the same segments in any two
    surroundings; [resolvePath] returns the same for the same segments in
    any two surroundings with the same working directory; and neither
    produces an event: no validation, no submission to the limiter, no
    attempt.  With Node's [path.resolve], the working directory matters to
    [resolvePath] only when no segment is absolute. *)
Theorem path_helpers_pure (path_join : list string -> string)
    (path_resolve : string -> list string -> string)
    (amb1 amb2 : Ambient) (pathSegments : list string) :
  joinPath path_join amb1 pathSegments = joinPath path_join amb2 pathSegments
  /\ fst (joinPath path_join amb1 pathSegments) = []
  /\ fst (resolvePath path_resolve amb1 pathSegments) = []
  /\ (amb_cwd amb1 = amb_cwd amb2 ->
      resolvePath path_resolve amb1 pathSegments
      = resolvePath path_resolve amb2 pathSegments)
  /\ ((exists seg, In seg pathSegments /\ NodePath.is_absolute seg = true) ->
      resolvePath NodePath.resolve amb1 pathSegments
      = resolvePath NodePath.resolve amb2 pathSegments).
Proof.
  unfold joinPath, resolvePath; simpl. repeat split.
  - intros ->. reflexivity.
  - intro Habs. f_equal. now apply NodePath_resolve_absolute_segment.
Qed.

(** The counterexample to C9 as stated: the same segment resolves
    differently in two working directories. *)
Lemma resolvePath_depends_on_cwd :
  ~ (forall (amb1 amb2 : Ambient) (pathSegments : list string),
       snd (resolvePath NodePath.resolve amb1 pathSegments)
       = snd (resolvePath NodePath.resolve amb2 pathSegments)).
Proof.
  intro H. specialize (H ambient_fresh ambient_elsewhere ["data"; "x.json"]).
  vm_compute in H. discriminate.
Qed.

Example resolvePath_two_directories :
  snd (resolvePath NodePath.resolve ambient_fresh ["data"; "x.json"]) = "/srv/app/data/x.json"%string
  /\ snd (resolvePath NodePath.resolve ambient_elsewhere ["data"; "x.json"]) = "/tmp/data/x.json"%string.
Proof. split; reflexivity. Qed.

Lemma path_helpers_pure_witness :
  joinPath NodePath.join ambient_fresh ["/var/lib"; "x.json"]
  = joinPath NodePath.join ambient_used ["/var/lib"; "x.json"]
  /\ fst (joinPath NodePath.join ambient_fresh ["/var/lib"; "x.json"]) = []
  /\ fst (resolvePath NodePath.resolve ambient_fresh ["/var/lib"; "x.json"]) = []
  /\ resolvePath NodePath.resolve ambient_fresh ["/var/lib"; "x.json"]
     = resolvePath NodePath.resolve ambient_used ["/var/lib"; "x.json"]
  /\ resolvePath NodePath.resolve ambient_fresh ["/var/lib"; "x.json"]
     = resolvePath NodePath.resolve ambient_elsewhere ["/var/lib"; "x.json"].
Proof.
  destruct (path_helpers_pure NodePath.join NodePath.resolve
              ambient_fresh ambient_used ["/var/lib"; "x.json"])
    as (Hjoin & Hj & Hr & Hcwd & _).
  destruct (path_helpers_pure NodePath.join NodePath.resolve
              ambient_fresh ambient_elsewhere ["/var/lib"; "x.json"])
    as (_ & _ & _ & _ & Habs).
  split; [exact Hjoin |]. split; [exact Hj |]. split; [exact Hr |].
  split; [exact (Hcwd eq_refl) |].
  apply Habs. exists "/var/lib"%string. split; [now left | reflexivity].
Defined.

(** ** Worked cases *)

(** A key that holds [undefined] passes the guard like an omitted key, and
    the spread then stores [undefined]: the limiter keeps its capacity
    while the live [maxConcurrency] is lost.  This is the case the
    hypothesis of C10 excludes. *)
Example configureThrottling_undefined_key :
  let s := run accepts_positive initial [Submit] in
  let r := configureThrottling accepts_positive s (mkPartial (Some Undef) None None None) in
  fst r = inr tt
  /\ maxConcurrency (live (snd r)) = Undef
  /\ fsLimit (snd r) = fsLimit s
  /\ ~ consistent (snd r).
Proof. vm_compute. repeat split; discriminate. Qed.

(** A capacity change is refused while a task is queued, and accepted once
    the limiter is idle. *)
Example configureThrottling_in_flight :
  let p := mkPartial (Some (Num 10)) None None None in
  fst (configureThrottling accepts_positive (run accepts_positive initial [Submit]) p)
  = inl (InFlightError 0 1)
  /\ fst (configureThrottling accepts_positive
            (run accepts_positive initial [Submit; Admit; Release]) p)
     = inr tt.
Proof. split; reflexivity. Qed.

(** A rejected destination stops [copyFile] after the two validations. *)
Example copyFile_rejected_destination :
  let gate (raw : string) : Js.Value + string :=
    if String.eqb raw "/etc/passwd"
    then inl (Js.Object [("name", Js.Str "PathNotAllowedError")])
    else inr raw in
  let fsys (c : FsCall) (w : nat) : (Js.Value + unit) * nat := (inr tt, S w) in
  copyFile sample_random sample_sleep gate fsys lowered_budget initial
    "/srv/app/a" "/etc/passwd" None 0
  = Some {| trace := [EvValidate "/srv/app/a"; EvValidate "/etc/passwd"];
            outcome := Rejected (Js.Object [("name", Js.Str "PathNotAllowedError")]);
            world := 0 |}.
Proof. reflexivity. Qed.

(** An accepted [rename] under the defaults: two validations, the
    submission, one attempt on the validated paths. *)
Example rename_accepted :
  let gate (raw : string) : Js.Value + string := inr ("/srv" ++ raw)%string in
  let fsys (c : FsCall) (w : nat) : (Js.Value + unit) * nat := (inr tt, S w) in
  rename sample_random sample_sleep gate fsys lowered_budget initial "/a" "/b" 0
  = Some {| trace := [EvValidate "/a"; EvValidate "/b";
                      EvLimit "rename(/a, /b)";
                      EvAttempt 0; EvFs (fs_rename "/srv/a" "/srv/b")];
            outcome := Resolved tt;
            world := 1 |}.
Proof. reflexivity. Qed.

(** * Further properties *)

(** ** Traces *)

Lemma warned_delays_app (l1 l2 : list Event) :
  warned_delays (l1 ++ l2) = warned_delays l1 ++ warned_delays l2.
Proof.
  induction l1 as [|e rest IH]; simpl; auto.
  destruct e; simpl; auto. now rewrite IH.
Qed.

Lemma slept_delays_app (l1 l2 : list Event) :
  slept_delays (l1 ++ l2) = slept_delays l1 ++ slept_delays l2.
Proof.
  induction l1 as [|e rest IH]; simpl; auto.
  destruct e; simpl; auto. now rewrite IH.
Qed.

Lemma fs_calls_app (l1 l2 : list Event) :
  fs_calls (l1 ++ l2) = fs_calls l1 ++ fs_calls l2.
Proof.
  induction l1 as [|e rest IH]; simpl; auto.
  destruct e; simpl; auto. now rewrite IH.
Qed.

Lemma fs_calls_fs (calls : list FsCall) : fs_calls (map EvFs calls) = calls.
Proof. induction calls as [|c rest IH]; simpl; auto. now rewrite IH. Qed.

Lemma fs_calls_validate (paths : list string) :
  fs_calls (map EvValidate paths) = [].
Proof. induction paths; simpl; auto. Qed.

Lemma warned_delays_fs (calls : list FsCall) : warned_delays (map EvFs calls) = [].
Proof. induction calls; simpl; auto. Qed.

Lemma slept_delays_fs (calls : list FsCall) : slept_delays (map EvFs calls) = [].
Proof. induction calls; simpl; auto. Qed.

Lemma fs_calls_In (tr : list Event) (c : FsCall) :
  In c (fs_calls tr) <-> In (EvFs c) tr.
Proof.
  induction tr as [|e rest IH]; simpl; [tauto |].
  destruct e; simpl; rewrite IH; split; intros H;
    try (now right); try (destruct H as [H | H]; [discriminate | exact H]).
  - destruct H as [-> | H]; auto.
  - destruct H as [H | H]; [injection H as ->; now left | now right].
Qed.

Lemma count_validate_map (paths : list string) :
  count is_validate (map EvValidate paths) = List.length paths.
Proof.
  unfold count. induction paths as [|p rest IH]; simpl; auto.
Qed.

Lemma count_engine (p : Event -> bool) (tr : list Event) :
  (forall e, engine_event e -> p e = false) ->
  Forall engine_event tr -> count p tr = 0.
Proof.
  intros Hp Hall. unfold count.
  induction Hall as [|e rest He Hrest IH]; simpl; auto.
  now rewrite (Hp e He).
Qed.

(** ** More on the retry loop *)

Section EngineExtras.

Variable World : Type.
Variable random : World -> Q * World.
Variable sleep : Delay -> World -> World.
Variable T : Type.
Variable operation : Operation World T.
Variable operationName : string.

Local Abbreviation Runs := (Attempts random sleep operation operationName).

Local Ltac trace_norm :=
  repeat first
    [ progress simpl
    | progress rewrite ?count_cons, ?count_app, ?warned_attempts_app,
        ?warned_delays_app, ?slept_delays_app, ?fs_calls_app,
        ?warned_attempts_fs, ?warned_delays_fs, ?slept_delays_fs, ?fs_calls_fs
    | progress (rewrite ?count_fs by reflexivity) ].

(** The bookkeeping of any run of the loop entered at index [first],
    whatever the schedule. *)
Lemma attempts_shape {schedule : Schedule} {s : Store} {first : nat}
    {lastError : Js.Value} {w : World} {r : Run World T} :
  Runs schedule s first lastError w r ->
  warned_attempts (trace r) = seq first (count is_warn (trace r))
  /\ count is_sleep (trace r) = count is_warn (trace r)
  /\ slept_delays (trace r) = map snd (warned_delays (trace r))
  /\ count is_warn (trace r) <= count is_attempt (trace r)
  /\ count is_attempt (trace r) <= S (count is_warn (trace r))
  /\ (le_num first (maxRetries (live s)) = false ->
      trace r = [] /\ outcome r = Rejected lastError /\ world r = w).
Proof.
  induction 1 as [sch s0 a0 le w0 Hle
                 | sch s0 a0 le w0 calls v w1 Hle Hop
                 | sch s0 a0 le w0 calls e0 w1 s1 sch1 Hle Hop Hres1 Hno
                 | sch s0 a0 le w0 calls e0 w1 s1 sch1 q w2 s2 sch2 rest
                     Hle Hop Hres1 Hre Hrnd Hres2 Hrest IH];
    simpl trace; simpl outcome; simpl world.
  - repeat split; auto.
  - trace_norm. repeat split; auto; congruence.
  - trace_norm. repeat split; auto; congruence.
  - destruct IH as (Hwa & Hsl & Hsd & Hlo & Hhi & _).
    trace_norm.
    rewrite Hwa, Hsl, Hsd.
    repeat split; auto; try lia; congruence.
Qed.

(** While no change touches [maxRetries], a run entered within the budget
    makes one attempt more than it emits notifications, and stays within
    the budget. *)
Lemma attempts_shape_steady {schedule : Schedule} {s : Store} {first : nat}
    {lastError : Js.Value} {w : World} {r : Run World T} :
  Runs schedule s first lastError w r ->
  maxRetries_unchanged schedule s ->
  le_num first (maxRetries (live s)) = true ->
  count is_attempt (trace r) = S (count is_warn (trace r))
  /\ le_num (first + count is_warn (trace r)) (maxRetries (live s)) = true.
Proof.
  induction 1 as [sch s0 a0 le w0 Hle
                 | sch s0 a0 le w0 calls v w1 Hle Hop
                 | sch s0 a0 le w0 calls e0 w1 s1 sch1 Hle Hop Hres1 Hno
                 | sch s0 a0 le w0 calls e0 w1 s1 sch1 q w2 s2 sch2 rest
                     Hle Hop Hres1 Hre Hrnd Hres2 Hrest IH];
    intros Hsteady Hin; simpl trace.
  - congruence.
  - trace_norm. rewrite Nat.add_0_r. auto.
  - trace_norm. rewrite Nat.add_0_r. auto.
  - apply andb_prop in Hre as [_ Hlt].
    pose proof (resume_maxRetries Hsteady Hres1) as Hmr1.
    pose proof (resume_unchanged Hsteady Hres1) as Hsteady1.
    pose proof (resume_maxRetries Hsteady1 Hres2) as Hmr2.
    pose proof (resume_unchanged Hsteady1 Hres2) as Hsteady2.
    rewrite Hmr1 in Hlt.
    destruct (IH Hsteady2) as [Hatt Hbound].
    { rewrite Hmr2, Hmr1. now apply lt_num_le_num_succ. }
    rewrite Hmr2, Hmr1 in Hbound.
    trace_norm. rewrite Hatt, <- Nat.add_succ_comm. auto.
Qed.

(** The outcome of a run is that of the last call of the operation, and
    no attempt follows that call; while no change touches [maxRetries],
    the run also ends with that attempt and leaves the world as that call
    left it. *)
Lemma attempts_last_call {schedule : Schedule} {s : Store} {first : nat}
    {lastError : Js.Value} {w : World} {r : Run World T} :
  Runs schedule s first lastError w r ->
  le_num first (maxRetries (live s)) = true ->
  exists pre a w' calls result w1 tail,
    operation w' = (calls, result, w1)
    /\ outcome r = settle result
    /\ trace r = pre ++ EvAttempt a :: map EvFs calls ++ tail
    /\ count is_attempt tail = 0
    /\ (maxRetries_unchanged schedule s ->
        world r = w1
        /\ tail = match result with
                  | inl e => [EvCaught a e]
                  | inr _ => []
                  end).
Proof.
  induction 1 as [sch s0 a0 le w0 Hle
                 | sch s0 a0 le w0 calls v w1 Hle Hop
                 | sch s0 a0 le w0 calls e0 w1 s1 sch1 Hle Hop Hres1 Hno
                 | sch s0 a0 le w0 calls e0 w1 s1 sch1 q w2 s2 sch2 rest
                     Hle Hop Hres1 Hre Hrnd Hres2 Hrest IH];
    intro Hin; simpl.
  - congruence.
  - exists [], a0, w0, calls, (inr v), w1, []. rewrite app_nil_r. auto 10.
  - exists [], a0, w0, calls, (inl e0), w1, [EvCaught a0 e0]. auto 10.
  - apply andb_prop in Hre as [_ Hlt].
    destruct (le_num (S a0) (maxRetries (live s2))) eqn:Hnext.
    + destruct (IH eq_refl)
        as (pre & a & w' & calls' & result & w1' & tail & Hop' & Hout & Htr & Hcount & Hst).
      exists (EvAttempt a0 :: map EvFs calls
                ++ [EvCaught a0 e0;
                    EvWarn operationName a0 (calculateDelay (live s1) a0 q);
                    EvSleep (calculateDelay (live s1) a0 q)] ++ pre),
        a, w', calls', result, w1', tail.
      split; [exact Hop' |]. split; [exact Hout |]. split.
      { rewrite Htr. simpl. rewrite <- !app_assoc. reflexivity. }
      split; [exact Hcount |].
      intro Hsteady. apply Hst.
      exact (resume_unchanged (resume_unchanged Hsteady Hres1) Hres2).
    + rewrite (attempts_exhausted World random sleep T operation operationName
                 Hrest Hnext). simpl.
      exists [], a0, w0, calls, (inl e0), w1,
        [EvCaught a0 e0;
         EvWarn operationName a0 (calculateDelay (live s1) a0 q);
         EvSleep (calculateDelay (live s1) a0 q)].
      split; [exact Hop |]. split; [reflexivity |]. split.
      { rewrite app_nil_r. reflexivity. }
      split; [reflexivity |].
      intro Hsteady. exfalso.
      pose proof (resume_unchanged Hsteady Hres1) as Hsteady1.
      rewrite (resume_maxRetries Hsteady1 Hres2) in Hnext.
      rewrite (lt_num_le_num_succ _ _ Hlt) in Hnext. discriminate.
Qed.

(** Every announced delay is what [calculateDelay] gives for its attempt,
    some value of [Math.random()] and a configuration the task found when
    it resumed. *)
Lemma attempts_delays {schedule : Schedule} {s : Store} {first : nat}
    {lastError : Js.Value} {w : World} {r : Run World T} :
  Runs schedule s first lastError w r ->
  Forall (fun ad => exists s' w',
            reaches schedule s s'
            /\ snd ad = calculateDelay (live s') (fst ad) (fst (random w')))
    (warned_delays (trace r)).
Proof.
  induction 1 as [sch s0 a0 le w0 Hle
                 | sch s0 a0 le w0 calls v w1 Hle Hop
                 | sch s0 a0 le w0 calls e0 w1 s1 sch1 Hle Hop Hres1 Hno
                 | sch s0 a0 le w0 calls e0 w1 s1 sch1 q w2 s2 sch2 rest
                     Hle Hop Hres1 Hre Hrnd Hres2 Hrest IH];
    simpl trace.
  - constructor.
  - trace_norm. constructor.
  - trace_norm. constructor.
  - trace_norm. constructor.
    + simpl. exists s1, w1. split.
      * eapply resume_reaches; [exact Hres1 | apply reaches_now].
      * now rewrite Hrnd.
    + eapply Forall_impl; [| exact IH].
      intros ad (s' & w' & Hreach & Hd). exists s', w'. split; [| exact Hd].
      eapply resume_reaches; [exact Hres1 |].
      eapply resume_reaches; [exact Hres2 | exact Hreach].
Qed.

Section Recovery.

Variable calls_made : World -> nat.
Variable failures : nat.
Variable n : Z.
Hypothesis within_budget : (Z.of_nat failures <= n)%Z.
Hypothesis operation_counts :
  forall w calls result w1,
    operation w = (calls, result, w1) -> calls_made w1 = S (calls_made w).
Hypothesis random_keeps : forall w, calls_made (snd (random w)) = calls_made w.
Hypothesis sleep_keeps : forall d w, calls_made (sleep d w) = calls_made w.
Hypothesis fails_first :
  forall w, calls_made w < failures ->
    exists calls e w1, operation w = (calls, inl e, w1) /\ descriptor_exhaustion e.
Hypothesis then_resolves :
  forall w, calls_made w = failures ->
    exists calls v w1, operation w = (calls, inr v, w1).

(** A run that enters at the index of the call about to be made, while no
    change touches [maxRetries = n], rides out the failures left. *)
Lemma attempts_recover {schedule : Schedule} {s : Store} {first : nat}
    {lastError : Js.Value} {w : World} {r : Run World T} :
  Runs schedule s first lastError w r ->
  maxRetries_unchanged schedule s ->
  maxRetries (live s) = Num n ->
  calls_made w = first ->
  first <= failures ->
  exists v,
    outcome r = Resolved v
    /\ count is_attempt (trace r) = S (failures - first)
    /\ count is_warn (trace r) = failures - first
    /\ warned_attempts (trace r) = seq first (failures - first).
Proof.
  induction 1 as [sch s0 a0 le w0 Hle
                 | sch s0 a0 le w0 calls v w1 Hle Hop
                 | sch s0 a0 le w0 calls e0 w1 s1 sch1 Hle Hop Hres1 Hno
                 | sch s0 a0 le w0 calls e0 w1 s1 sch1 q w2 s2 sch2 rest
                     Hle Hop Hres1 Hre Hrnd Hres2 Hrest IH];
    intros Hsteady Hn Hw Hfirst; simpl trace; simpl outcome.
  - rewrite Hn in Hle. simpl in Hle. apply Z.leb_gt in Hle. lia.
  - assert (Ea : a0 = failures).
    { destruct (Nat.eq_dec a0 failures) as [E | NE]; [exact E |].
      destruct (fails_first w0) as (c & e & w' & Hop' & _); [lia |]. congruence. }
    exists v. rewrite Ea, Nat.sub_diag. trace_norm. auto.
  - exfalso.
    assert (Hlt : a0 < failures).
    { destruct (Nat.eq_dec a0 failures) as [E | NE]; [| lia].
      destruct (then_resolves w0) as (c & v & w' & Hop'); [lia |]. congruence. }
    destruct (fails_first w0) as (c & e & w' & Hop' & Hfd); [lia |].
    rewrite Hop in Hop'. injection Hop' as _ <- _.
    apply isFileDescriptorError_spec in Hfd.
    rewrite Hfd, (resume_maxRetries Hsteady Hres1), Hn in Hno.
    simpl in Hno. apply Z.ltb_ge in Hno. lia.
  - assert (Hlt : a0 < failures).
    { destruct (Nat.eq_dec a0 failures) as [E | NE]; [| lia].
      destruct (then_resolves w0) as (c & v & w' & Hop'); [lia |]. congruence. }
    pose proof (resume_maxRetries Hsteady Hres1) as Hmr1.
    pose proof (resume_unchanged Hsteady Hres1) as Hsteady1.
    pose proof (resume_maxRetries Hsteady1 Hres2) as Hmr2.
    pose proof (resume_unchanged Hsteady1 Hres2) as Hsteady2.
    destruct (IH Hsteady2) as (v & Hout & Hatt & Hwarn & Hwa).
    + now rewrite Hmr2, Hmr1.
    + rewrite sleep_keeps. replace w2 with (snd (random w1)) by now rewrite Hrnd.
      rewrite random_keeps. now rewrite (operation_counts _ _ _ _ Hop), Hw.
    + lia.
    + exists v. trace_norm. rewrite Hatt, Hwarn, Hwa.
      replace (failures - a0) with (S (failures - S a0)) by lia.
      auto.
Qed.

End Recovery.

End EngineExtras.
(** ** More on backoff *)

Lemma total_delay_bound (lo hi : Q) (ds : list Delay) :
  Forall (delay_within lo hi) ds ->
  (total_delay ds <= inject_Z (Z.of_nat (List.length ds)) * hi)%Q.
Proof.
  induction 1 as [|d rest Hd Hrest IH]; simpl List.length.
  - simpl. rewrite Qmult_0_l. apply Qle_refl.
  - destruct d as [| negative | q]; try contradiction. destruct Hd as [_ Hq].
    rewrite Nat2Z.inj_succ. unfold Z.succ. rewrite inject_Z_plus.
    rewrite Qmult_plus_distr_l, Qmult_1_l, Qplus_comm.
    simpl total_delay. now apply Qplus_le_compat.
Qed.

Lemma slept_delays_length (tr : list Event) :
  List.length (slept_delays tr) = count is_sleep tr.
Proof.
  unfold count. induction tr as [|e rest IH]; simpl; auto.
  destruct e; simpl; auto.
Qed.

Lemma exponential_nonneg (b : Z) (a : nat) :
  (0 < b)%Z -> (0 < inject_Z b * exp2 (Z.of_nat a))%Q.
Proof.
  intro Hb. apply Qmult_lt_0_compat; [| apply exp2_pos].
  change (inject_Z 0 < inject_Z b)%Q. now rewrite <- Zlt_Qlt.
Qed.

Lemma exponential_integer (b : Z) (a : nat) :
  (inject_Z b * exp2 (Z.of_nat a) == inject_Z (b * 2 ^ Z.of_nat a))%Q.
Proof. rewrite inject_Z_mult, exp2_Z by lia. reflexivity. Qed.

(** X6.  Once [baseDelay * 2^a] has reached [maxDelay], the delay is
    exactly [maxDelay], whatever the jitter: for integer delay settings
    below [2^53] with [baseDelay] positive, a [Math.random()] value in
    [0, 1] and [maxDelay <= baseDelay * 2^a]. *)
Theorem calculateDelay_saturates (cfg : ThrottleConfig) (a : nat) (r : Q) (b m : Z) :
  baseDelay cfg = Num b ->
  maxDelay cfg = Num m ->
  (0 < b < 2 ^ 53)%Z -> (0 <= m < 2 ^ 53)%Z ->
  (0 <= r)%Q -> (r <= 1)%Q ->
  (m <= b * 2 ^ Z.of_nat a)%Z ->
  exists d, calculateDelay cfg a r = Ms d /\ (d == inject_Z m)%Q.
Proof.
  intros Hb Hm Hbr Hmr Hr0 Hr1 Hcap.
  destruct (calculateDelay_value cfg a r b m Hb Hm Hbr Hmr Hr0 Hr1)
    as (j & d & _ & _ & Hj0 & _ & Hd & Ed).
  exists d. split; [exact Hd |].
  rewrite Ed. apply Q.min_r.
  pose proof (exponential_nonneg b a (proj1 Hbr)) as HE0.
  apply Qle_trans with (round64 (inject_Z b * exp2 (Z.of_nat a))).
  - rewrite round64_scaled by lia.
    rewrite exponential_integer, <- Zle_Qle. exact Hcap.
  - apply round64_mono; lra.
Qed.

(** X7.  For the same jitter draw, a later attempt never waits less than
    an earlier one: for integer delay settings below [2^53] with
    [baseDelay] positive and a [Math.random()] value in [0, 1]. *)
Theorem calculateDelay_monotone (cfg : ThrottleConfig) (a a' : nat) (r : Q) (b m : Z) :
  baseDelay cfg = Num b ->
  maxDelay cfg = Num m ->
  (0 < b < 2 ^ 53)%Z -> (0 <= m < 2 ^ 53)%Z ->
  (0 <= r)%Q -> (r <= 1)%Q ->
  a <= a' ->
  exists d d',
    calculateDelay cfg a r = Ms d
    /\ calculateDelay cfg a' r = Ms d'
    /\ (d <= d')%Q.
Proof.
  intros Hb Hm Hbr Hmr Hr0 Hr1 Ha.
  destruct (calculateDelay_value cfg a r b m Hb Hm Hbr Hmr Hr0 Hr1)
    as (j & d & _ & Ej & Hj0 & _ & Hd & Ed).
  destruct (calculateDelay_value cfg a' r b m Hb Hm Hbr Hmr Hr0 Hr1)
    as (j' & d' & _ & Ej' & Hj0' & _ & Hd' & Ed').
  exists d, d'. split; [exact Hd |]. split; [exact Hd' |].
  rewrite Ed, Ed'. apply Q.min_le_compat_r.
  pose proof (exponential_nonneg b a (proj1 Hbr)) as HE0.
  apply round64_mono; [lra |].
  assert (Hjj : (j == j')%Q) by (rewrite Ej, Ej'; reflexivity).
  assert (Hexp : (inject_Z b * exp2 (Z.of_nat a) <= inject_Z b * exp2 (Z.of_nat a'))%Q).
  { apply Qmult_le_l.
    - change (inject_Z 0 < inject_Z b)%Q. rewrite <- Zlt_Qlt. lia.
    - apply exp2_le. lia. }
  lra.
Qed.
(** ** More on [executeWithRetry] *)

Section EngineExtraClaims.

Variable World : Type.
Variable random : World -> Q * World.
Variable sleep : Delay -> World -> World.
Variable T : Type.
Variable s : Store.
Variable schedule : Schedule.
Variable operation : Operation World T.
Variable name : string.

Local Abbreviation execute := (executeWithRetry random sleep s schedule operation name).

(** X1.  Transient exhaustion is ridden out.  Let the operation fail with a
    descriptor-exhaustion error at its first [failures] calls and resolve at
    the next one, with [failures <= maxRetries] (the calls are counted by
    [calls_made], which nothing else changes), and let [maxRetries] not be
    changed while the call is suspended.  Then the call resolves, after
    [failures + 1] attempts and [failures] notifications, for the attempts
    [0 .. failures - 1]. *)
Theorem recovers_after_transient_failures (calls_made : World -> nat)
    (failures : nat) (n : Z) (w : World) :
  maxRetries (live s) = Num n ->
  maxRetries_unchanged schedule s ->
  (Z.of_nat failures <= n)%Z ->
  calls_made w = 0 ->
  (forall w0 calls result w1,
      operation w0 = (calls, result, w1) -> calls_made w1 = S (calls_made w0)) ->
  (forall w0, calls_made (snd (random w0)) = calls_made w0) ->
  (forall d w0, calls_made (sleep d w0) = calls_made w0) ->
  (forall w0, calls_made w0 < failures ->
     exists calls e w1, operation w0 = (calls, inl e, w1) /\ descriptor_exhaustion e) ->
  (forall w0, calls_made w0 = failures ->
     exists calls v w1, operation w0 = (calls, inr v, w1)) ->
  exists run v,
    execute w = Some run
    /\ outcome run = Resolved v
    /\ count is_attempt (trace run) = S failures
    /\ count is_warn (trace run) = failures
    /\ warned_attempts (trace run) = seq 0 failures.
Proof.
  intros Hn Hsteady Hbudget Hw Hcount Hrnd Hsleep Hfail Hres.
  destruct (executeWithRetry_total World random sleep T s schedule operation name w)
    as [run Hrun].
  destruct (executeWithRetry_inv World random sleep T s schedule operation name w run Hrun)
    as (r & Hr & Htr & Hout & _).
  destruct (attempts_recover World random sleep T operation name calls_made failures n
              Hbudget Hcount Hrnd Hsleep Hfail Hres Hr Hsteady Hn Hw)
    as (v & Hres' & Hatt & Hwarn & Hwa); [lia |].
  rewrite Nat.sub_0_r in Hatt, Hwarn, Hwa.
  exists run, v. split; [exact Hrun |]. rewrite Htr, Hout.
  rewrite !count_cons. simpl. auto.
Qed.


(** X3.  With [maxRetries] undefined or negative when the task starts, the
    loop body never runs: the operation is not called at all, and the call
    rejects with [undefined], the initial [lastError]. *)
Theorem no_attempt_without_budget (w : World) :
  (maxRetries (live s) = Undef
   \/ exists n, maxRetries (live s) = Num n /\ (n < 0)%Z) ->
  execute w
  = Some {| trace := [EvLimit name]; outcome := Rejected Js.Undefined; world := w |}.
Proof.
  intro H. unfold executeWithRetry.
  destruct (fuel_positive schedule s) as [k ->]. simpl.
  destruct H as [Hu | (n & Hn & Hneg)].
  - rewrite Hu. reflexivity.
  - rewrite Hn. simpl.
    assert (Hle : (0 <=? n)%Z = false) by (apply Z.leb_gt; lia).
    rewrite Hle. reflexivity.
Qed.

(** X4.  With [maxRetries] a number [n >= 0] when the task starts, a call
    settles exactly as the last call of its operation did: it resolves
    with the value that call resolved with or rejects with the error that
    call threw, unchanged, and no attempt follows that call.  If
    [maxRetries] is not changed while the call is suspended, that attempt
    also ends the trace, and the world is left as that call left it. *)
Theorem settles_as_last_attempt (w : World) (run : Run World T) (n : Z) :
  execute w = Some run ->
  maxRetries (live s) = Num n ->
  (0 <= n)%Z ->
  exists pre a w' calls result w1 tail,
    operation w' = (calls, result, w1)
    /\ outcome run = settle result
    /\ trace run = pre ++ EvAttempt a :: map EvFs calls ++ tail
    /\ count is_attempt tail = 0
    /\ (maxRetries_unchanged schedule s ->
        world run = w1
        /\ tail = match result with
                  | inl e => [EvCaught a e]
                  | inr _ => []
                  end).
Proof.
  intros Hrun Hn Hpos.
  destruct (executeWithRetry_inv World random sleep T s schedule operation name w run Hrun)
    as (r & Hr & Htr & Hout & Hworld).
  assert (Hle : le_num 0 (maxRetries (live s)) = true)
    by (rewrite Hn; simpl; apply Z.leb_le; lia).
  destruct (attempts_last_call World random sleep T operation name Hr Hle)
    as (pre & a & w' & calls & result & w1 & tail & Hop & Hres & Hpre & Hcount & Hst).
  exists (EvLimit name :: pre), a, w', calls, result, w1, tail.
  rewrite Hworld, Hout, Htr, Hpre. auto.
Qed.

(** X5.  With integer delay settings [0 < baseDelay <= maxDelay < 2^53],
    [maxRetries] a number [n >= 0], none of the three changed while the
    call is suspended, and [Math.random()] in [0, 1]: the wait announced
    for attempt [a] is at least [min(baseDelay * 2^a, maxDelay)], every
    wait lies between [baseDelay] and [maxDelay], and all the waits of one
    call add up to at most [n * maxDelay]. *)
Theorem waits_are_bounded (w : World) (run : Run World T) (n b m : Z) :
  execute w = Some run ->
  maxRetries (live s) = Num n -> (0 <= n)%Z ->
  baseDelay (live s) = Num b ->
  maxDelay (live s) = Num m ->
  (0 < b <= m)%Z -> (m < 2 ^ 53)%Z ->
  retry_settings_unchanged schedule s ->
  (forall w0, (0 <= fst (random w0))%Q /\ (fst (random w0) <= 1)%Q) ->
  Forall (fun ad =>
            delay_within
              (Qmin (inject_Z (b * 2 ^ Z.of_nat (fst ad))) (inject_Z m))
              (inject_Z m) (snd ad))
    (warned_delays (trace run))
  /\ Forall (delay_within (inject_Z b) (inject_Z m)) (slept_delays (trace run))
  /\ (total_delay (slept_delays (trace run)) <= inject_Z n * inject_Z m)%Q.
Proof.
  intros Hrun Hn Hpos Hb Hm Hbm Hm53 Hkeeps Hrandom.
  pose proof (settings_unchanged_maxRetries schedule s Hkeeps) as Hsteady.
  destruct (executeWithRetry_inv World random sleep T s schedule operation name w run Hrun)
    as (r & Hr & Htr & _).
  destruct (attempts_shape World random sleep T operation name Hr)
    as (_ & Hsl & Hsd & _).
  pose proof (attempts_delays World random sleep T operation name Hr) as Hds.
  assert (Hle : le_num 0 (maxRetries (live s)) = true)
    by (rewrite Hn; simpl; apply Z.leb_le; lia).
  destruct (attempts_shape_steady World random sleep T operation name Hr Hsteady Hle)
    as [_ Hbound].
  rewrite Hn in Hbound. simpl in Hbound. apply Z.leb_le in Hbound.
  rewrite Htr. simpl warned_delays. simpl slept_delays.
  assert (Hwarned : Forall (fun ad =>
            delay_within
              (Qmin (inject_Z (b * 2 ^ Z.of_nat (fst ad))) (inject_Z m))
              (inject_Z m) (snd ad)
            /\ delay_within (inject_Z b) (inject_Z m) (snd ad))
            (warned_delays (trace r))).
  { eapply Forall_impl; [| exact Hds].
    intros [a d] (s' & w' & Hreach & Hd). simpl in *. subst d.
    destruct (Hrandom w') as [H0 H1].
    destruct (Hkeeps _ Hreach) as (_ & Hb' & Hm').
    rewrite Hb in Hb'. rewrite Hm in Hm'.
    destruct (calculateDelay_range (live s') a (fst (random w')) b m Hb' Hm' Hbm Hm53 H0 H1)
      as (j & d & _ & _ & _ & _ & -> & _ & Hlow & _ & Hhigh).
    simpl. split; [split; assumption |]. split; [| exact Hhigh].
    eapply Qle_trans; [| exact Hlow].
    apply Q.min_glb; rewrite <- Zle_Qle; [| lia].
    assert (0 < 2 ^ Z.of_nat a)%Z by (apply Z.pow_pos_nonneg; lia). nia. }
  assert (Hslept : Forall (delay_within (inject_Z b) (inject_Z m))
                     (slept_delays (trace r))).
  { rewrite Hsd. apply Forall_map.
    eapply Forall_impl; [| exact Hwarned]. intros ad [_ H]. exact H. }
  split; [| split].
  - eapply Forall_impl; [| exact Hwarned]. intros ad [H _]. exact H.
  - exact Hslept.
  - eapply Qle_trans; [apply (total_delay_bound _ _ _ Hslept) |].
    apply Qmult_le_compat_r.
    + rewrite <- Zle_Qle, slept_delays_length, Hsl. lia.
    + change 0%Q with (inject_Z 0). rewrite <- Zle_Qle. lia.
Qed.

End EngineExtraClaims.

(** ** More on reconfiguration *)

Section ConfigurationExtras.

Variable validConcurrency : Z -> bool.

Local Abbreviation configure := (configureThrottling validConcurrency).
Local Abbreviation step := (step validConcurrency).
Local Abbreviation run := (run validConcurrency).

(** X8. A [configureThrottling] call that throws applies none of its keys:
    the store is the one before the call, also for the keys other than
    [maxConcurrency].  The only errors are the in-flight error, carrying
    the current counts, and the error of the limiter constructor for the
    capacity supplied. *)
Theorem configureThrottling_all_or_nothing (s : Store) (p : PartialConfig)
    (e : ConfigError) :
  fst (configure s p) = inl e ->
  snd (configure s p) = s
  /\ (e = InFlightError (getActiveOperations s) (getPendingOperations s)
      \/ exists n,
           e = ConcurrencyTypeError n
           /\ p_maxConcurrency p = Some (Num n)
           /\ validConcurrency n = false).
Proof.
  unfold getActiveOperations, getPendingOperations.
  destruct (configure_cases validConcurrency s p); simpl; intro He;
    try discriminate; injection He as <-; split; eauto.
Qed.

(** X9. Reconfiguration never changes the counts a caller reads from
    [getActiveOperations()] and [getPendingOperations()], and the limiter
    is replaced only when both are zero, by an idle limiter of the
    capacity supplied: no queued or running operation is left behind on a
    discarded limiter. *)
Theorem configureThrottling_keeps_counts (s : Store) (p : PartialConfig) :
  let s' := snd (configure s p) in
  getActiveOperations s' = getActiveOperations s
  /\ getPendingOperations s' = getPendingOperations s
  /\ (fsLimit s' <> fsLimit s ->
      getActiveOperations s = 0
      /\ getPendingOperations s = 0
      /\ exists n,
           p_maxConcurrency p = Some (Num n)
           /\ fsLimit s' = {| concurrency := n; activeCount := 0; pendingCount := 0 |}).
Proof.
  cbv zeta. unfold getActiveOperations, getPendingOperations.
  destruct (configure_cases validConcurrency s p)
    as [n Hk Hne Hfl | n Hk Hne Ha Hp Hv | n s1 Hk Hne Ha Hp Hv Hlim | s1 Hk Hlim];
    simpl.
  - split; [reflexivity |]. split; [reflexivity |]. intro Hch. now contradiction Hch.
  - split; [reflexivity |]. split; [reflexivity |]. intro Hch. now contradiction Hch.
  - rewrite Hlim. simpl. split; [auto |]. split; [auto |]. intros _. eauto.
  - rewrite Hlim. split; [reflexivity |]. split; [reflexivity |].
    intro Hch. now contradiction Hch.
Qed.

Lemma spread_spread (c : ThrottleConfig) (p : PartialConfig) :
  spread (spread c p) p = spread c p.
Proof.
  unfold spread, spread_key; simpl.
  destruct p as [[?|] [?|] [?|] [?|]]; reflexivity.
Qed.

(** X10. Reconfiguration is idempotent: after a successful call, the same
    call again succeeds, whatever is in flight by then, and leaves the
    live configuration and the limiter as they are. *)
Theorem configureThrottling_idempotent (s s1 : Store) (p : PartialConfig) :
  configure s p = (inr tt, s1) ->
  forall lim,
    let busy := set_fsLimit s1 lim in
    exists s2,
      configure busy p = (inr tt, s2)
      /\ live s2 = live s1
      /\ fsLimit s2 = lim.
Proof.
  intros Hok lim busy.
  pose proof (configure_cases validConcurrency s p) as Hc. rewrite Hok in Hc.
  assert (Hlive : live s1 = spread (live s) p) by (inversion Hc; assumption).
  assert (Hsame : forall n, p_maxConcurrency p = Some (Num n) ->
                    Num n = maxConcurrency (live busy)).
  { intros n Hn. change (live busy) with (live s1). rewrite Hlive.
    unfold spread; simpl. now rewrite Hn. }
  destruct (configure_cases validConcurrency busy p)
    as [n Hk Hne | n Hk Hne | n s' Hk Hne | s' Hk Hlim Hl].
  1-3: now specialize (Hsame n Hk).
  exists s'. split; [reflexivity |]. split.
  - rewrite Hl. change (live busy) with (live s1).
    rewrite Hlive. apply spread_spread.
  - exact Hlim.
Qed.

(** X11. The retry and delay settings can be changed at any time: a call
    that supplies no [maxConcurrency] number other than the current one
    always succeeds, with operations active or pending, and keeps the very
    same limiter. *)
Theorem retry_settings_always_accepted (s : Store) (p : PartialConfig) :
  (forall n, p_maxConcurrency p = Some (Num n) -> Num n = maxConcurrency (live s)) ->
  fst (configure s p) = inr tt
  /\ fsLimit (snd (configure s p)) = fsLimit s.
Proof.
  intro Hsame.
  destruct (configure_cases validConcurrency s p)
    as [n Hk Hne | n Hk Hne | n s' Hk Hne | s' Hk Hlim Hl]; simpl.
  1-3: now specialize (Hsame n Hk).
  auto.
Qed.

(** X12. Two snapshots never share an object: in every state the module
    can reach, two successive [getThrottlingConfig()] calls return two
    different objects, both holding the live values; a write to the first
    shows in neither the second nor the live configuration, and taking
    snapshots changes neither the live configuration nor the limiter. *)
Theorem snapshots_are_independent (acts : list Action) (o : ThrottleConfig) :
  let s := run initial acts in
  let '(l1, s1) := getThrottlingConfig s in
  let '(l2, s2) := getThrottlingConfig s1 in
  l1 <> l2
  /\ deref s2 l1 = live s
  /\ deref s2 l2 = live s
  /\ deref (write s2 l1 o) l2 = live s
  /\ live (write s2 l1 o) = live s
  /\ live s2 = live s
  /\ fsLimit s2 = fsLimit s.
Proof.
  intro s.
  destruct (wf_run validConcurrency acts initial wf_initial)
    as (Hc & _).
  fold s in Hc. simpl. unfold live, deref; simpl.
  repeat split; try lia; unfold upd;
    repeat match goal with
           | |- context [Nat.eqb ?a ?b] => destruct (Nat.eqb_spec a b); try lia
           end;
    reflexivity.
Qed.

Lemma step_capacity (s : Store) (a : Action) :
  (forall n, validConcurrency n = true -> (1 <= n)%Z) ->
  wf s ->
  (exists n, maxConcurrency (live s) = Num n
             /\ concurrency (fsLimit s) = n /\ (1 <= n)%Z) ->
  defined_capacity a ->
  exists n, maxConcurrency (live (step s a)) = Num n
            /\ concurrency (fsLimit (step s a)) = n /\ (1 <= n)%Z.
Proof.
  intros Hvalid Hwf (n & Hmc & Hcap & Hn) Hdef.
  pose proof (step_frame validConcurrency s a Hwf) as Hfr.
  destruct a as [p | | l o | | |].
  2-6: (destruct Hfr as [-> ->]; [intros; discriminate | eauto]).
  simpl. destruct (configure_cases validConcurrency s p)
    as [k Hk Hne | k Hk Hne | k s' Hk Hne Ha Hp Hv Hlim Hl | s' Hk Hlim Hl];
    simpl; eauto.
  - exists k. rewrite Hl, Hlim. unfold spread; simpl. rewrite Hk. auto.
  - exists n. rewrite Hl, Hlim. unfold spread; simpl.
    simpl in Hdef. unfold defined_key in Hdef.
    destruct (p_maxConcurrency p) as [[|k]|]; simpl; auto.
    + congruence.
    + specialize (Hk k eq_refl). rewrite Hmc in Hk. auto.
Qed.

(** X13. Of the four settings, [maxConcurrency] is the one that stays
    valid.  If the limiter constructor only accepts capacities of at least
    one, then after any history in which no call supplies [undefined] for
    [maxConcurrency], the live [maxConcurrency] is a number of at least one
    and is the capacity of the live limiter, whatever numbers the calls
    supplied. *)
Theorem capacity_stays_valid (acts : list Action) :
  (forall n, validConcurrency n = true -> (1 <= n)%Z) ->
  Forall defined_capacity acts ->
  exists n,
    maxConcurrency (live (run initial acts)) = Num n
    /\ concurrency (fsLimit (run initial acts)) = n
    /\ (1 <= n)%Z.
Proof.
  intros Hvalid.
  assert (Hgen : forall (l : list Action) (s : Store),
             wf s ->
             (exists n, maxConcurrency (live s) = Num n
                        /\ concurrency (fsLimit s) = n /\ (1 <= n)%Z) ->
             Forall defined_capacity l ->
             exists n, maxConcurrency (live (run s l)) = Num n
                       /\ concurrency (fsLimit (run s l)) = n /\ (1 <= n)%Z).
  { induction l as [|a rest IH]; intros s Hwf Hinv Hall; simpl; auto.
    inversion Hall; subst.
    apply IH; auto using wf_step, step_capacity. }
  apply Hgen; [apply wf_initial |].
  exists 100%Z. repeat split. lia.
Qed.

(** X14. A call that supplies all four settings replaces the configuration
    wholesale, as the test suite does before each test: with no operation
    active or pending, a capacity the constructor accepts, and a limiter
    whose capacity is the current [maxConcurrency], the call succeeds and
    leaves exactly the supplied values and an idle limiter of the supplied
    capacity, whatever was configured before. *)
Theorem full_configuration_replaces (s : Store) (mc mr b m : Z) :
  getActiveOperations s = 0 ->
  getPendingOperations s = 0 ->
  validConcurrency mc = true ->
  consistent s ->
  let p := mkPartial (Some (Num mc)) (Some (Num mr)) (Some (Num b)) (Some (Num m)) in
  fst (configure s p) = inr tt
  /\ observe (snd (configure s p)) = mkConfig (Num mc) (Num mr) (Num b) (Num m)
  /\ fsLimit (snd (configure s p))
     = {| concurrency := mc; activeCount := 0; pendingCount := 0 |}.
Proof.
  intros Ha Hp Hv Hcons p.
  unfold getActiveOperations, getPendingOperations, consistent in *.
  rewrite observe_live.
  destruct (configure_cases validConcurrency s p)
    as [k Hk Hne Hfl | k Hk Hne Ha' Hp' Hv' | k s' Hk Hne Ha' Hp' Hv' Hlim Hl
       | s' Hk Hlim Hl]; simpl.
  - lia.
  - simpl in Hk. injection Hk as <-. congruence.
  - simpl in Hk. injection Hk as <-. rewrite Hl, Hlim. auto.
  - rewrite Hl, Hlim. specialize (Hk mc eq_refl).
    rewrite <- Hcons in Hk. injection Hk as Hk.
    destruct (fsLimit s) as [c a q]; simpl in *. subst. auto.
Qed.

End ConfigurationExtras.

(** ** More on the operation surface *)

Section SurfaceExtras.

Variable World : Type.
Variable random : World -> Q * World.
Variable sleep : Delay -> World -> World.
Variable FsResult : Type.
Variable validatePath : string -> Js.Value + string.
Variable fs : FsCall -> World -> (Js.Value + FsResult) * World.
Variable schedule : Schedule.

Local Abbreviation submit := (run_op random sleep (FsResult := FsResult) schedule).
Local Abbreviation gate := (validated (FsResult := FsResult) validatePath).
Local Abbreviation call := (fs_op fs).
Local Abbreviation entry := (invoke random sleep validatePath fs schedule).

(** An operation that settles at its first call, not with descriptor
    exhaustion, ends the run there. *)
Lemma run_op_settles_at_once (s : Store) (op : Operation World FsResult)
    (name : string) (w : World) (calls : list FsCall)
    (result : Js.Value + FsResult) (w1 : World) :
  le_num 0 (maxRetries (live s)) = true ->
  op w = (calls, result, w1) ->
  (forall e, result = inl e -> isFileDescriptorError e = false) ->
  submit s op name w
  = Some {| trace := EvLimit name :: EvAttempt 0 :: map EvFs calls
                       ++ match result with
                          | inl e => [EvCaught 0 e]
                          | inr _ => []
                          end;
            outcome := settle result;
            world := w1 |}.
Proof.
  intros Hle Hop Hfd. unfold run_op, executeWithRetry.
  destruct (fuel_positive schedule s) as [k ->]. simpl. rewrite Hle, Hop.
  destruct (resume schedule s) as [s1 schedule1].
  destruct result as [e | v]; simpl.
  - rewrite (Hfd e eq_refl). simpl. reflexivity.
  - rewrite app_nil_r. reflexivity.
Qed.

Lemma submit_shape (s : Store) (c0 : FsCall) (name : string) (w : World) :
  exists run,
    submit s (call c0) name w = Some run
    /\ count is_validate (trace run) = 0
    /\ count is_limit (trace run) = 1
    /\ (forall c, In c (fs_calls (trace run)) -> c = c0).
Proof.
  destruct (run_op_shape World random sleep FsResult schedule s (call c0) name w
              (fun c => c = c0) (fs_op_calls World FsResult fs c0))
    as (run & rest & Hrun & Htr & Hall & Hin).
  exists run. split; [exact Hrun |]. rewrite Htr.
  rewrite !count_cons. simpl.
  rewrite !count_engine; auto.
  - repeat split; auto. intros c Hc. apply Hin. now apply fs_calls_In.
  - intros e [_ He]. exact He.
  - intros e [He _]. exact He.
Qed.

Lemma accepted_one (s : Store) (raw vp name : string) (c0 : FsCall) (w : World)
    (op : string -> Operation World FsResult) :
  validatePath raw = inr vp ->
  op vp = call c0 ->
  accepted_shape [raw] c0 (gate raw w (fun v => submit s (op v) name w)).
Proof.
  intros Hv Hop. unfold accepted_shape, validated. rewrite Hv, Hop.
  destruct (submit_shape s c0 name w) as (run & Hrun & Hval & Hlim & Hin).
  rewrite Hrun. simpl. eexists. split; [reflexivity |]. simpl.
  rewrite !count_cons. simpl. rewrite Hval, Hlim. auto.
Qed.

Lemma accepted_two (s : Store) (raw1 raw2 vp1 vp2 name : string) (c0 : FsCall)
    (w : World) (op : string -> string -> Operation World FsResult) :
  validatePath raw1 = inr vp1 ->
  validatePath raw2 = inr vp2 ->
  op vp1 vp2 = call c0 ->
  accepted_shape [raw1; raw2] c0
    (gate raw1 w (fun v1 => gate raw2 w (fun v2 => submit s (op v1 v2) name w))).
Proof.
  intros Hv1 Hv2 Hop. unfold accepted_shape, validated. rewrite Hv1, Hv2, Hop.
  destruct (submit_shape s c0 name w) as (run & Hrun & Hval & Hlim & Hin).
  rewrite Hrun. simpl. eexists. split; [reflexivity |]. simpl.
  rewrite !count_cons. simpl. rewrite Hval, Hlim. auto.
Qed.

Lemma submit_settles (s : Store) (c : FsCall) (name : string) (w : World)
    (result : Js.Value + FsResult) (w1 : World) :
  le_num 0 (maxRetries (live s)) = true ->
  fs c w = (result, w1) ->
  (forall e, result = inl e -> isFileDescriptorError e = false) ->
  submit s (call c) name w
  = Some {| trace := EvLimit name :: EvAttempt 0 :: EvFs c
                       :: match result with
                          | inl e => [EvCaught 0 e]
                          | inr _ => []
                          end;
            outcome := settle result;
            world := w1 |}.
Proof.
  intros Hle Hfs Hfd.
  apply (run_op_settles_at_once s (call c) name w [c] result w1 Hle); auto.
  unfold fs_op. now rewrite Hfs.
Qed.

Local Ltac invert_accepted :=
  repeat match goal with
         | H : Forall2 _ (_ :: _) _ |- _ => inversion H; clear H; subst
         | H : Forall2 _ [] _ |- _ => inversion H; clear H; subst
         end.

Local Ltac pick_branch :=
  repeat match goal with
         | |- context [encoding_truthy ?e] => destruct (encoding_truthy e)
         | |- context [wants_file_types ?o] => destruct (wants_file_types o)
         end.

(** X15. Without descriptor exhaustion the wrapper is transparent.  When
    every path is accepted, [maxRetries] is a number [n >= 0] and the
    underlying call settles with a value or with an error that is not of
    the descriptor-exhaustion class, the entry point issues that call once,
    on the validated paths, and settles exactly as it did, leaving the
    world as it left it, with no notification. *)
Theorem wrapper_is_transparent (s : Store) (r : Request) (w : World)
    (validatedPaths : list string) (n : Z) (c : FsCall)
    (result : Js.Value + FsResult) (w1 : World) :
  maxRetries (live s) = Num n ->
  (0 <= n)%Z ->
  Forall2 (fun raw vp => validatePath raw = inr vp) (request_paths r) validatedPaths ->
  underlying_call r validatedPaths = Some c ->
  fs c w = (result, w1) ->
  (forall e, result = inl e -> ~ descriptor_exhaustion e) ->
  exists run,
    entry s r w = Some run
    /\ outcome run = settle result
    /\ world run = w1
    /\ fs_calls (trace run) = [c]
    /\ count is_warn (trace run) = 0.
Proof.
  intros Hn Hpos Hacc Hcall Hfs Hnot.
  assert (Hle : le_num 0 (maxRetries (live s)) = true)
    by (rewrite Hn; simpl; apply Z.leb_le; lia).
  assert (Hfd : forall e, result = inl e -> isFileDescriptorError e = false).
  { intros e He. destruct (isFileDescriptorError e) eqn:Hb; auto.
    apply isFileDescriptorError_spec in Hb. now contradiction (Hnot e He). }
  destruct r; simpl in Hacc; invert_accepted; simpl in Hcall;
    injection Hcall as <-; simpl;
    unfold access, readFile, writeFile, mkdir, readdir, stat, lstat, rm, unlink,
      copyFile, appendFile, rename, validated;
    repeat match goal with H : validatePath _ = inr _ |- _ => rewrite H; clear H end;
    revert Hfs; pick_branch; intro Hfs;
    rewrite (submit_settles s _ _ w result w1 Hle Hfs Hfd); simpl;
    (eexists; split; [reflexivity |]); simpl;
    destruct result; simpl; auto.
Qed.

(** X16. Retries neither validate again nor queue again.  When every path
    is accepted, whatever [maxRetries] is and however many attempts are
    made, the trace of an entry point holds one validation per path and one
    submission to the limiter, and every call of the primitive in it is the
    same call, on the paths validated at entry. *)
Theorem one_validation_one_slot (s : Store) (r : Request) (w : World)
    (validatedPaths : list string) :
  Forall2 (fun raw vp => validatePath raw = inr vp) (request_paths r) validatedPaths ->
  exists c run,
    underlying_call r validatedPaths = Some c
    /\ entry s r w = Some run
    /\ count is_validate (trace run) = List.length (request_paths r)
    /\ count is_limit (trace run) = 1
    /\ (forall c', In c' (fs_calls (trace run)) -> c' = c).
Proof.
  intro Hacc.
  assert (Hgen : exists c,
             underlying_call r validatedPaths = Some c
             /\ accepted_shape (request_paths r) c (entry s r w)).
  { destruct r; simpl in Hacc; invert_accepted; simpl;
      (eexists; split; [reflexivity |]);
      unfold access, readFile, writeFile, mkdir, readdir, stat, lstat, rm, unlink,
        copyFile, appendFile, rename;
      first [ eapply accepted_one; [eassumption | pick_branch; reflexivity]
            | eapply accepted_two; [eassumption | eassumption | reflexivity] ]. }
  destruct Hgen as (c & Hc & run & Hrun & Hval & Hlim & Hin).
  exists c, run. auto.
Qed.

End SurfaceExtras.

(** ** Instances *)

Lemma keeps_retry_settings_snapshot_taken : Forall keeps_retry_settings snapshot_taken.
Proof.
  unfold snapshot_taken. constructor; [| constructor].
  intro s. now rewrite getThrottlingConfig_live.
Qed.

Lemma recovers_after_transient_failures_witness :
  exists run v,
    executeWithRetry sample_random sample_sleep initial unrelated_changes
      (recovering_op 2) "stat(p)" 0
    = Some run
    /\ outcome run = Resolved v
    /\ count is_attempt (trace run) = 3
    /\ count is_warn (trace run) = 2
    /\ warned_attempts (trace run) = [0; 1].
Proof.
  apply (recovers_after_transient_failures nat sample_random sample_sleep nat
           initial unrelated_changes (recovering_op 2) "stat(p)" (fun w => w) 2 3 0
           eq_refl
           (unchanged_of_keeps unrelated_changes initial keeps_maxRetries_unrelated_changes)).
  - discriminate.
  - reflexivity.
  - intros w0 calls result w1 H. unfold recovering_op in H. now injection H as _ _ <-.
  - reflexivity.
  - reflexivity.
  - intros w0 Hlt. unfold recovering_op.
    apply Nat.ltb_lt in Hlt. rewrite Hlt.
    exists [fs_stat "/srv/p"], (EMFILE w0), (S w0). split; [reflexivity |].
    eexists. split; [reflexivity |]. right. reflexivity.
  - intros w0 ->. exists [fs_stat "/srv/p"], 2, 3. reflexivity.
Defined.


Lemma no_attempt_without_budget_witness :
  maxRetries (live store_without_budget) = Num (-1)
  /\ executeWithRetry sample_random sample_sleep store_without_budget unrelated_changes
       (recovering_op 0) "stat(p)" 0
     = Some {| trace := [EvLimit "stat(p)"];
               outcome := Rejected Js.Undefined;
               world := 0 |}.
Proof.
  split; [reflexivity |].
  apply (no_attempt_without_budget nat sample_random sample_sleep nat
           store_without_budget unrelated_changes (recovering_op 0) "stat(p)" 0).
  right. exists (-1)%Z. split; [reflexivity | reflexivity].
Defined.

Lemma settles_as_last_attempt_witness :
  exists run pre a w' calls result w1 tail,
    executeWithRetry sample_random sample_sleep initial unrelated_changes flaky_op
      "stat(p)" 0 = Some run
    /\ flaky_op w' = (calls, result, w1)
    /\ outcome run = settle result
    /\ trace run = pre ++ EvAttempt a :: map EvFs calls ++ tail
    /\ count is_attempt tail = 0
    /\ world run = w1
    /\ tail = match result with
              | inl e => [EvCaught a e]
              | inr _ => []
              end.
Proof.
  destruct (executeWithRetry_total nat sample_random sample_sleep unit
              initial unrelated_changes flaky_op "stat(p)" 0) as [run Hrun].
  destruct (settles_as_last_attempt nat sample_random sample_sleep unit
              initial unrelated_changes flaky_op "stat(p)" 0 run 3 Hrun eq_refl)
    as (pre & a & w' & calls & result & w1 & tail & H1 & H2 & H3 & H4 & H5);
    [discriminate |].
  destruct (H5 (unchanged_of_keeps unrelated_changes initial
                  keeps_maxRetries_unrelated_changes)) as [H6 H7].
  exists run, pre, a, w', calls, result, w1, tail. auto 10.
Defined.

Lemma waits_are_bounded_witness :
  exists run,
    executeWithRetry sample_random sample_sleep initial snapshot_taken exhausted_op
      "stat(p)" 0 = Some run
    /\ Forall (fun ad =>
                 delay_within
                   (Qmin (inject_Z (100 * 2 ^ Z.of_nat (fst ad))) (inject_Z 5000))
                   (inject_Z 5000) (snd ad))
         (warned_delays (trace run))
    /\ Forall (delay_within (inject_Z 100) (inject_Z 5000)) (slept_delays (trace run))
    /\ (total_delay (slept_delays (trace run)) <= inject_Z 3 * inject_Z 5000)%Q.
Proof.
  destruct (executeWithRetry_total nat sample_random sample_sleep unit
              initial snapshot_taken exhausted_op "stat(p)" 0) as [run Hrun].
  exists run. split; [exact Hrun |].
  apply (waits_are_bounded nat sample_random sample_sleep unit
           initial snapshot_taken exhausted_op "stat(p)" 0 run 3 100 5000 Hrun eq_refl).
  - discriminate.
  - reflexivity.
  - reflexivity.
  - lia.
  - reflexivity.
  - exact (settings_unchanged_of_keeps snapshot_taken initial
             keeps_retry_settings_snapshot_taken).
  - intro w0. split; discriminate.
Defined.

Lemma calculateDelay_saturates_witness :
  exists d, calculateDelay DEFAULT_CONFIG 6 (1 # 2) = Ms d /\ (d == inject_Z 5000)%Q.
Proof.
  apply (calculateDelay_saturates DEFAULT_CONFIG 6 (1 # 2) 100 5000 eq_refl eq_refl).
  - split; reflexivity.
  - split; [discriminate | reflexivity].
  - discriminate.
  - discriminate.
  - discriminate.
Defined.

Lemma calculateDelay_monotone_witness :
  exists d d',
    calculateDelay DEFAULT_CONFIG 1 (1 # 2) = Ms d
    /\ calculateDelay DEFAULT_CONFIG 4 (1 # 2) = Ms d'
    /\ (d <= d')%Q.
Proof.
  apply (calculateDelay_monotone DEFAULT_CONFIG 1 4 (1 # 2) 100 5000 eq_refl eq_refl).
  - split; reflexivity.
  - split; [discriminate | reflexivity].
  - discriminate.
  - discriminate.
  - lia.
Defined.

Lemma configureThrottling_all_or_nothing_witness :
  fst (configureThrottling accepts_positive initial refused_partial)
  = inl (ConcurrencyTypeError 0)
  /\ snd (configureThrottling accepts_positive initial refused_partial) = initial
  /\ (ConcurrencyTypeError 0
      = InFlightError (getActiveOperations initial) (getPendingOperations initial)
      \/ exists n,
           ConcurrencyTypeError 0 = ConcurrencyTypeError n
           /\ p_maxConcurrency refused_partial = Some (Num n)
           /\ accepts_positive n = false).
Proof.
  split; [reflexivity |].
  exact (configureThrottling_all_or_nothing accepts_positive initial refused_partial
           (ConcurrencyTypeError 0) eq_refl).
Defined.

Lemma configureThrottling_idempotent_witness :
  let p := mkPartial (Some (Num 50)) (Some (Num 5)) None None in
  let s1 := snd (configureThrottling accepts_positive initial p) in
  let lim := {| concurrency := 50; activeCount := 2; pendingCount := 1 |} in
  configureThrottling accepts_positive initial p = (inr tt, s1)
  /\ exists s2,
       configureThrottling accepts_positive (set_fsLimit s1 lim) p = (inr tt, s2)
       /\ live s2 = live s1
       /\ fsLimit s2 = lim.
Proof.
  intros p s1 lim. split; [reflexivity |].
  exact (configureThrottling_idempotent accepts_positive initial s1 p eq_refl lim).
Defined.

Lemma retry_settings_always_accepted_witness :
  let s := run accepts_positive initial [Submit; Admit; Submit] in
  let p := mkPartial None (Some (Num 5)) (Some (Num 200)) None in
  getActiveOperations s = 1
  /\ getPendingOperations s = 1
  /\ fst (configureThrottling accepts_positive s p) = inr tt
  /\ fsLimit (snd (configureThrottling accepts_positive s p)) = fsLimit s.
Proof.
  intros s p. split; [reflexivity |]. split; [reflexivity |].
  apply (retry_settings_always_accepted accepts_positive s p).
  intros n Hn. discriminate Hn.
Defined.

Lemma capacity_stays_valid_witness :
  exists n,
    maxConcurrency (live (run accepts_positive initial sample_history_refused)) = Num n
    /\ concurrency (fsLimit (run accepts_positive initial sample_history_refused)) = n
    /\ (1 <= n)%Z.
Proof.
  apply (capacity_stays_valid accepts_positive sample_history_refused).
  - intros n Hn. unfold accepts_positive in Hn. apply Z.ltb_lt in Hn. lia.
  - repeat constructor; discriminate.
Defined.

Lemma full_configuration_replaces_witness :
  let s := run accepts_positive initial sample_history in
  observe s = mkConfig (Num 50) (Num 5) (Num 200) (Num 10000)
  /\ fst (configureThrottling accepts_positive s test_reset) = inr tt
  /\ observe (snd (configureThrottling accepts_positive s test_reset)) = DEFAULT_CONFIG
  /\ fsLimit (snd (configureThrottling accepts_positive s test_reset))
     = {| concurrency := 100; activeCount := 0; pendingCount := 0 |}.
Proof.
  intro s. split; [reflexivity |].
  exact (full_configuration_replaces accepts_positive s 100 3 100 5000
           eq_refl eq_refl eq_refl eq_refl).
Defined.

Lemma wrapper_is_transparent_witness :
  exists run,
    invoke sample_random sample_sleep sample_gate sample_fs_missing lowered_budget initial
      (CallReadFile "/srv/app/a.txt" (Some "utf8")) 0 = Some run
    /\ outcome run = Rejected ENOENT
    /\ world run = 1
    /\ fs_calls (trace run) = [fs_readFile "/srv/app/a.txt" (Some "utf8")]
    /\ count is_warn (trace run) = 0.
Proof.
  apply (wrapper_is_transparent nat sample_random sample_sleep unit
           sample_gate sample_fs_missing lowered_budget initial
           (CallReadFile "/srv/app/a.txt" (Some "utf8")) 0
           ["/srv/app/a.txt"] 3 (fs_readFile "/srv/app/a.txt" (Some "utf8"))
           (inl ENOENT) 1 eq_refl).
  - discriminate.
  - repeat constructor.
  - reflexivity.
  - reflexivity.
  - intros e He (props & Hp & Hcode). injection He as <-.
    injection Hp as <-. simpl in Hcode. destruct Hcode; discriminate.
Defined.

Lemma one_validation_one_slot_witness :
  exists c run,
    underlying_call (CallCopyFile "/srv/a" "/srv/b" None) ["/srv/a"; "/srv/b"] = Some c
    /\ invoke sample_random sample_sleep sample_gate sample_fs_missing lowered_budget
         initial (CallCopyFile "/srv/a" "/srv/b" None) 0 = Some run
    /\ count is_validate (trace run) = 2
    /\ count is_limit (trace run) = 1
    /\ (forall c', In c' (fs_calls (trace run)) -> c' = c).
Proof.
  apply (one_validation_one_slot nat sample_random sample_sleep unit
           sample_gate sample_fs_missing lowered_budget initial
           (CallCopyFile "/srv/a" "/srv/b" None) 0 ["/srv/a"; "/srv/b"]).
  repeat constructor.
Defined.

(** ** Classification and composition *)

(** X17. Errors are classified by their [code] alone: two objects with the
    same [code] are classified alike, whatever else they carry; and a value
    that is not an object ([undefined], a boolean, a number, a string such
    as the bare text "EMFILE", a function) or is [null] is never of the
    descriptor-exhaustion class. *)
Theorem classified_by_code_only (e : Js.Value) (props1 props2 : list (string * Js.Value)) :
  Js.lookup "code" props1 = Js.lookup "code" props2 ->
  isFileDescriptorError (Js.Object props1) = isFileDescriptorError (Js.Object props2)
  /\ (Js.typeof e <> Js.TObject -> isFileDescriptorError e = false)
  /\ isFileDescriptorError Js.Null = false.
Proof.
  intro Hcode. split; [| split].
  - unfold isFileDescriptorError, Js.has_property, Js.get; simpl. now rewrite Hcode.
  - intro Htype. unfold isFileDescriptorError.
    destruct e; simpl in *; try reflexivity; try congruence;
      now rewrite ?andb_false_r.
  - reflexivity.
Qed.

Lemma classified_by_code_only_witness :
  isFileDescriptorError
    (Js.Object [("code", Js.Str "ENFILE"); ("syscall", Js.Str "open")])
  = isFileDescriptorError
      (Js.Object [("message", Js.Str "file table overflow"); ("code", Js.Str "ENFILE")])
  /\ (Js.typeof (Js.Str "EMFILE") <> Js.TObject ->
      isFileDescriptorError (Js.Str "EMFILE") = false)
  /\ isFileDescriptorError Js.Null = false.
Proof.
  exact (classified_by_code_only (Js.Str "EMFILE")
           [("code", Js.Str "ENFILE"); ("syscall", Js.Str "open")]
           [("message", Js.Str "file table overflow"); ("code", Js.Str "ENFILE")]
           eq_refl).
Defined.

Section Composition.

Variable validConcurrency : Z -> bool.
Variable World : Type.
Variable random : World -> Q * World.
Variable sleep : Delay -> World -> World.
Variable T : Type.

(** X18.  A new retry budget applies to the next call.
    [configureThrottling({maxRetries: k})] succeeds in every state, and a
    call started after it, during which [maxRetries] is not changed again
    and of which every attempt made fails with descriptor exhaustion, makes
    exactly [k + 1] attempts and emits [k] notifications; with [k = 0]
    retrying is switched off. *)
Theorem reconfigured_budget_applies (s : Store) (k : Z) (schedule : Schedule)
    (operation : Operation World T) (name : string) (w : World) (run : Run World T) :
  (0 <= k)%Z ->
  let r := configureThrottling validConcurrency s (mkPartial None (Some (Num k)) None None) in
  maxRetries_unchanged schedule (snd r) ->
  executeWithRetry random sleep (snd r) schedule operation name w = Some run ->
  (forall v, outcome run <> Resolved v) ->
  (forall a e, In (EvCaught a e) (trace run) -> descriptor_exhaustion e) ->
  fst r = inr tt
  /\ count is_attempt (trace run) = S (Z.to_nat k)
  /\ count is_warn (trace run) = Z.to_nat k.
Proof.
  intros Hk r Hsteady Hrun Hfailed Hfd.
  assert (Hr : fst r = inr tt /\ maxRetries (live (snd r)) = Num k).
  { subst r.
    destruct (configure_cases validConcurrency s (mkPartial None (Some (Num k)) None None))
      as [n Hn | n Hn | n s' Hn | s' _ _ Hl]; try discriminate.
    simpl. rewrite Hl. auto. }
  destruct Hr as [Hok Hmr]. split; [exact Hok |].
  destruct (executeWithRetry_inv World random sleep T (snd r) schedule operation name
              w run Hrun) as (r0 & Hr0 & Htr & Hout & _).
  destruct (attempts_all_fail World random sleep T operation name (Z.to_nat k)
              Hr0 Hsteady) as (pre & e & Hatt & Hwarn & _).
  - rewrite Z2Nat.id by exact Hk. exact Hmr.
  - lia.
  - intros v Hv. apply (Hfailed v). now rewrite Hout.
  - intros a e Hin. apply isFileDescriptorError_spec, (Hfd a).
    rewrite Htr. now right.
  - rewrite Nat.sub_0_r in Hatt, Hwarn.
    rewrite Htr, !count_cons. simpl. auto.
Qed.

End Composition.

Lemma reconfigured_budget_applies_witness :
  let s := run accepts_positive initial [Submit; Admit] in
  let r := configureThrottling accepts_positive s
             (mkPartial None (Some (Num 0)) None None) in
  exists ran,
    executeWithRetry sample_random sample_sleep (snd r) unrelated_changes
      (recovering_op 10) "stat(p)" 0 = Some ran
    /\ fst r = inr tt
    /\ count is_attempt (trace ran) = 1
    /\ count is_warn (trace ran) = 0.
Proof.
  intros s r.
  destruct (executeWithRetry_total nat sample_random sample_sleep nat
              (snd r) unrelated_changes (recovering_op 10) "stat(p)" 0) as [ran Hran].
  exists ran. split; [exact Hran |].
  apply (reconfigured_budget_applies accepts_positive nat sample_random sample_sleep nat
           s 0 unrelated_changes (recovering_op 10) "stat(p)" 0 ran).
  - discriminate.
  - exact (unchanged_of_keeps unrelated_changes (snd r)
             keeps_maxRetries_unrelated_changes).
  - exact Hran.
  - intros v Hv. vm_compute in Hran. injection Hran as <-. discriminate.
  - intros a e Hin. vm_compute in Hran. injection Hran as <-. simpl in Hin.
    repeat (destruct Hin as [Hin | Hin];
            [first [ discriminate Hin
                   | injection Hin as <- <-;
                     eexists; split; [reflexivity |]; right; reflexivity ] |]).
    contradiction.
Defined.
